(** * Sequential transaction handler: queue, retry policy and executor

    A shallow embedding of [src/types.ts], [src/retry/RetryManager.ts],
    [src/queue/TransactionQueue.ts] and [src/executor/TransactionExecutor.ts],
    with [addSequence] of the handler and the gas estimate of the
    WalletConnect provider, followed by the properties of the scheduling
    and execution engine.

    Conventions of the embedding.
    - A JavaScript [Map<string, V>] is a [gmap string V]; a [Set<string>] is a
      [gset string].  Insertion order of maps and sets is not kept:
      [hasPendingDependencies] only asks whether some member blocks, and
      the functions that iterate over the map of records ([getAll] and
      what is built on it) take the order of iteration as an argument.
    - An optional field is an [option]; the JavaScript truthiness tests
      ([x || d], [!x]) are written out ([0], [0n] and the empty string are
      falsy).
    - Integers ([priority], [retryCount], [maxRetries], nonces, gas) are [Z].
      Nonces are JavaScript numbers, which agree with [Z] on the safe
      integers; a statement that needs [nonce + 1] to be above [nonce]
      assumes that range.  Delays are exact rationals [Q]; the value of
      [Math.random()] is an explicit argument.
    - Error objects are represented by their message.  [toLowerCase] is the
      ASCII one, byte by byte.
    - The records are shared mutable objects: the executor works on the
      object it obtained from the queue.  Every such object is stored under
      its own identifier, so the model passes the identifier and reads and
      writes the store.
    - Calls of the emitter are recorded, in order, in a trace.
    - The loop is modelled twice.  [TransactionExecutor.processQueue] runs
      every execution to its end within the turn that starts it, which is
      the loop with at most one execution at a time.  Module [Overlap] has
      the executions suspended at their [await]s and a scheduler that
      resumes them in any order, for any [maxConcurrent]. *)

From Stdlib Require Import ZArith QArith Qminmax Qround String Ascii List Bool Lia Sorted.
From stdpp Require Import gmap strings list fin_maps sorting relations.

Local Open Scope Z_scope.

(** ** Types ([src/types.ts]) *)

Module Types.

Inductive TransactionStatus :=
| PENDING | QUEUED | EXECUTING | CONFIRMING
| CONFIRMED | FAILED | CANCELLED | REPLACED.

Inductive RetryStrategy :=
| EXPONENTIAL_BACKOFF | LINEAR | FIXED_DELAY | NONE.

Definition status_eqb (a b : TransactionStatus) : bool :=
  match a, b with
  | PENDING, PENDING | QUEUED, QUEUED | EXECUTING, EXECUTING
  | CONFIRMING, CONFIRMING | CONFIRMED, CONFIRMED | FAILED, FAILED
  | CANCELLED, CANCELLED | REPLACED, REPLACED => true
  | _, _ => false
  end.

Definition Address := string.
Definition Hash := string.
Definition Error := string.

Record TransactionReceipt := mkReceipt {
  gasUsed : Z;
  blockNumber : Z
}.

Record TransactionConfig := mkConfig {
  cid : option string;
  to : option Address;
  data : option string;
  value : option Z;
  gasLimit : option Z;
  gasPrice : option Z;
  maxFeePerGas : option Z;
  maxPriorityFeePerGas : option Z;
  nonce : option Z;
  chainId : option Z
}.

Record QueuedTransaction := mkTx {
  id : string;
  config : TransactionConfig;
  status : TransactionStatus;
  priority : Z;
  dependencies : list string;
  retryCount : Z;
  maxRetries : Z;
  createdAt : Z;
  executedAt : option Z;
  confirmedAt : option Z;
  hash : option Hash;
  receipt : option TransactionReceipt;
  error : option Error;
  metadata : option string
}.

Record TransactionQueueOptions := mkQueueOptions {
  maxConcurrent : Z;
  defaultMaxRetries : Z;
  retryStrategy : RetryStrategy;
  retryDelay : Q;
  maxRetryDelay : Q;
  confirmationBlocks : Z;
  autoStart : bool;
  nonceManager : bool
}.

Record RetryOptions := mkRetryOptions {
  strategy : RetryStrategy;
  ro_maxRetries : Z;
  baseDelay : Q;
  maxDelay : Q;
  backoffMultiplier : Q
}.

Record TransactionValidation := mkValidation {
  isValid : bool;
  errors : list string;
  warnings : list string;
  estimatedGas : option Z;
  estimatedCost : option Z
}.

(** The notifications of [TransactionEvents], with the arguments the
    emitter is called with (the record is named by its identifier). *)
Inductive Event :=
| TransactionQueued (i : string)
| TransactionStarted (i : string)
| TransactionSent (i : string) (h : Hash)
| TransactionConfirmed (i : string) (r : TransactionReceipt)
| TransactionFailed (i : string) (e : Error)
| TransactionRetry (i : string) (attemptNumber : Z)
| TransactionCancelled (i : string)
| QueueEmpty
| QueuePaused
| QueueResumed.

(** Field updates of the mutable record. *)
Definition set_status (s : TransactionStatus) (t : QueuedTransaction) :=
  mkTx t.(id) t.(config) s t.(priority) t.(dependencies) t.(retryCount)
       t.(maxRetries) t.(createdAt) t.(executedAt) t.(confirmedAt)
       t.(hash) t.(receipt) t.(error) t.(metadata).

Definition set_priority (p : Z) (t : QueuedTransaction) :=
  mkTx t.(id) t.(config) t.(status) p t.(dependencies) t.(retryCount)
       t.(maxRetries) t.(createdAt) t.(executedAt) t.(confirmedAt)
       t.(hash) t.(receipt) t.(error) t.(metadata).

Definition set_retryCount (n : Z) (t : QueuedTransaction) :=
  mkTx t.(id) t.(config) t.(status) t.(priority) t.(dependencies) n
       t.(maxRetries) t.(createdAt) t.(executedAt) t.(confirmedAt)
       t.(hash) t.(receipt) t.(error) t.(metadata).

Definition set_executedAt (now : Z) (t : QueuedTransaction) :=
  mkTx t.(id) t.(config) t.(status) t.(priority) t.(dependencies)
       t.(retryCount) t.(maxRetries) t.(createdAt) (Some now)
       t.(confirmedAt) t.(hash) t.(receipt) t.(error) t.(metadata).

Definition set_confirmedAt (now : Z) (t : QueuedTransaction) :=
  mkTx t.(id) t.(config) t.(status) t.(priority) t.(dependencies)
       t.(retryCount) t.(maxRetries) t.(createdAt) t.(executedAt)
       (Some now) t.(hash) t.(receipt) t.(error) t.(metadata).

Definition set_hash (h : Hash) (t : QueuedTransaction) :=
  mkTx t.(id) t.(config) t.(status) t.(priority) t.(dependencies)
       t.(retryCount) t.(maxRetries) t.(createdAt) t.(executedAt)
       t.(confirmedAt) (Some h) t.(receipt) t.(error) t.(metadata).

Definition set_receipt (r : TransactionReceipt) (t : QueuedTransaction) :=
  mkTx t.(id) t.(config) t.(status) t.(priority) t.(dependencies)
       t.(retryCount) t.(maxRetries) t.(createdAt) t.(executedAt)
       t.(confirmedAt) t.(hash) (Some r) t.(error) t.(metadata).

Definition set_error (e : Error) (t : QueuedTransaction) :=
  mkTx t.(id) t.(config) t.(status) t.(priority) t.(dependencies)
       t.(retryCount) t.(maxRetries) t.(createdAt) t.(executedAt)
       t.(confirmedAt) t.(hash) t.(receipt) (Some e) t.(metadata).

(** JavaScript truthiness of optional numbers and strings. *)
Definition truthyZ (o : option Z) : bool :=
  match o with Some z => negb (z =? 0) | None => false end.

Definition truthyS (o : option string) : bool :=
  match o with Some EmptyString => false | Some _ => true | None => false end.

(** [o || d] on optional numbers. *)
Definition orZ (o : option Z) (d : Z) : Z :=
  match o with Some z => if z =? 0 then d else z | None => d end.

Definition orQ (o : option Q) (d : Q) : Q :=
  match o with Some x => if Qeq_bool x 0 then d else x | None => d end.

(** [Partial<TransactionQueueOptions>] and [Partial<RetryOptions>], as the
    constructors receive them. *)
Record PartialQueueOptions := mkPartialQueueOptions {
  p_maxConcurrent : option Z;
  p_defaultMaxRetries : option Z;
  p_retryStrategy : option RetryStrategy;
  p_retryDelay : option Q;
  p_maxRetryDelay : option Q;
  p_confirmationBlocks : option Z;
  p_autoStart : option bool;
  p_nonceManager : option bool
}.

Record PartialRetryOptions := mkPartialRetryOptions {
  p_strategy : option RetryStrategy;
  p_maxRetries : option Z;
  p_baseDelay : option Q;
  p_maxDelay : option Q;
  p_backoffMultiplier : option Q
}.

End Types.

Import Types.

(** ** Strings: [toLowerCase] and [includes] *)

Module Str.

Definition lower_ascii (c : ascii) : ascii :=
  let n := nat_of_ascii c in
  if ((65 <=? n)%nat && (n <=? 90)%nat)%bool then ascii_of_nat (n + 32) else c.

Fixpoint toLowerCase (s : string) : string :=
  match s with
  | EmptyString => EmptyString
  | String c s' => String (lower_ascii c) (toLowerCase s')
  end.

(** [includes s sub]: [sub] occurs in [s] as a contiguous substring. *)
Fixpoint includes (s sub : string) : bool :=
  String.prefix sub s ||
  match s with
  | EmptyString => false
  | String _ s' => includes s' sub
  end.

End Str.

(** ** Retry policy ([src/retry/RetryManager.ts]) *)

Module RetryManager.

(** The constructor: absent and falsy options take their defaults. *)
Definition create (p : PartialRetryOptions) : RetryOptions :=
  mkRetryOptions (default EXPONENTIAL_BACKOFF p.(p_strategy))
                 (orZ p.(p_maxRetries) 3)
                 (orQ p.(p_baseDelay) 1000%Q)
                 (orQ p.(p_maxDelay) 30000%Q)
                 (orQ p.(p_backoffMultiplier) 2%Q).

Definition isRetryableError (error : Error) : bool :=
  let errorMessage := Str.toLowerCase error in
  if Str.includes errorMessage "network" ||
     Str.includes errorMessage "timeout" ||
     Str.includes errorMessage "connection" then true
  else if Str.includes errorMessage "rate limit" ||
     Str.includes errorMessage "too many requests" ||
     Str.includes errorMessage "429" then true
  else if Str.includes errorMessage "nonce too low" ||
     Str.includes errorMessage "already known" then true
  else if Str.includes errorMessage "replacement transaction underpriced" ||
     Str.includes errorMessage "gas price too low" then true
  else if Str.includes errorMessage "pending" ||
     Str.includes errorMessage "queued" then true
  else if Str.includes errorMessage "user rejected" ||
     Str.includes errorMessage "user denied" ||
     Str.includes errorMessage "insufficient funds" ||
     Str.includes errorMessage "insufficient balance" then false
  else if Str.includes errorMessage "revert" ||
     Str.includes errorMessage "execution reverted" then false
  else false.

Definition shouldRetry (transaction : QueuedTransaction) (error : Error) : bool :=
  if transaction.(retryCount) >=? transaction.(maxRetries) then false
  else isRetryableError error.

(** [rand] is the value returned by [Math.random()], in [0, 1). *)
Definition getExponentialBackoffDelay (o : RetryOptions) (rand : Q) (attemptNumber : Z) : Q :=
  let delay := (o.(baseDelay) * Qpower o.(backoffMultiplier) (attemptNumber - 1))%Q in
  let jitter := (rand * (1 # 10) * delay)%Q in
  let totalDelay := Qmin (delay + jitter)%Q o.(maxDelay) in
  inject_Z (Qfloor totalDelay).

Definition getLinearDelay (o : RetryOptions) (attemptNumber : Z) : Q :=
  let delay := (o.(baseDelay) * inject_Z attemptNumber)%Q in
  Qmin delay o.(maxDelay).

Definition getRetryDelay (o : RetryOptions) (rand : Q) (attemptNumber : Z) : Q :=
  match o.(strategy) with
  | EXPONENTIAL_BACKOFF => getExponentialBackoffDelay o rand attemptNumber
  | LINEAR => getLinearDelay o attemptNumber
  | FIXED_DELAY => o.(baseDelay)
  | NONE => 0%Q
  end.

(** Both return a fresh copy; the argument is left as it is. *)
Definition resetRetryCount (transaction : QueuedTransaction) : QueuedTransaction :=
  set_retryCount 0 transaction.

Definition incrementRetryCount (transaction : QueuedTransaction) : QueuedTransaction :=
  set_retryCount (transaction.(retryCount) + 1) transaction.

End RetryManager.

(** ** Scheduling queue ([src/queue/TransactionQueue.ts]) *)

(** A call either returns a value or throws. *)
Inductive Outcome (A : Type) :=
| Returned (a : A)
| Thrown (e : Error).
Arguments Returned {A} a.
Arguments Thrown {A} e.

Module TransactionQueue.

Record State := mkQueue {
  queue : gmap string QueuedTransaction;
  executionOrder : list string;
  options : TransactionQueueOptions;
  dependencyGraph : gmap string (gset string)
}.

(** The constructor completes the options it is given with the defaults
    and starts from an empty queue. *)
Definition completeOptions (p : PartialQueueOptions) : TransactionQueueOptions :=
  mkQueueOptions (orZ p.(p_maxConcurrent) 1)
                 (orZ p.(p_defaultMaxRetries) 3)
                 (default EXPONENTIAL_BACKOFF p.(p_retryStrategy))
                 (orQ p.(p_retryDelay) 1000%Q)
                 (orQ p.(p_maxRetryDelay) 30000%Q)
                 (orZ p.(p_confirmationBlocks) 1)
                 (default true p.(p_autoStart))
                 (default true p.(p_nonceManager)).

Definition create (o : TransactionQueueOptions) : State :=
  mkQueue ∅ [] o ∅.

Definition new (p : PartialQueueOptions) : State :=
  create (completeOptions p).

Record AddOptions := mkAddOptions {
  o_priority : option Z;
  o_dependencies : option (list string);
  o_maxRetries : option Z;
  o_metadata : option string
}.

Definition with_id (i : string) (c : TransactionConfig) : TransactionConfig :=
  mkConfig (Some i) c.(to) c.(data) c.(value) c.(gasLimit) c.(gasPrice)
           c.(maxFeePerGas) c.(maxPriorityFeePerGas) c.(nonce) c.(chainId).

(** The loop of [insertIntoExecutionOrder]: the index of the first entry,
    from position [i] on, whose record has a priority below [p]; the length
    of the order when there is none. *)
Fixpoint insertIndexFrom (m : gmap string QueuedTransaction) (p : Z)
    (rest : list string) (i : nat) : nat :=
  match rest with
  | [] => i
  | x :: rest' =>
      match m !! x with
      | Some existingTx =>
          if existingTx.(priority) <? p then i
          else insertIndexFrom m p rest' (S i)
      | None => insertIndexFrom m p rest' (S i)
      end
  end.

(** [l.splice(i, 0, x)] *)
Definition splice0 (l : list string) (i : nat) (x : string) : list string :=
  take i l ++ x :: drop i l.

Definition insertIntoExecutionOrder (m : gmap string QueuedTransaction)
    (i : string) (p : Z) (order : list string) : list string :=
  splice0 order (insertIndexFrom m p order 0) i.

(** [now] is the value of [new Date()], [generated] that of [generateId()]. *)
Definition add (now : Z) (generated : string) (c : TransactionConfig)
    (o : AddOptions) (q : State) : string * State :=
  let i := if truthyS c.(cid) then default generated c.(cid) else generated in
  let transaction :=
    mkTx i (with_id i c) PENDING (orZ o.(o_priority) 0)
         (default [] o.(o_dependencies)) 0
         (orZ o.(o_maxRetries) q.(options).(defaultMaxRetries))
         now None None None None None o.(o_metadata) in
  let queue' := <[i := transaction]> q.(queue) in
  let graph' :=
    match o.(o_dependencies) with
    | Some (d :: ds) => <[i := list_to_set (d :: ds)]> q.(dependencyGraph)
    | _ => q.(dependencyGraph)
    end in
  (i, mkQueue queue'
        (insertIntoExecutionOrder queue' i transaction.(priority) q.(executionOrder))
        q.(options) graph').

Definition status_name (s : TransactionStatus) : string :=
  match s with
  | PENDING => "PENDING" | QUEUED => "QUEUED" | EXECUTING => "EXECUTING"
  | CONFIRMING => "CONFIRMING" | CONFIRMED => "CONFIRMED" | FAILED => "FAILED"
  | CANCELLED => "CANCELLED" | REPLACED => "REPLACED"
  end.

Definition remove (i : string) (q : State) : Outcome bool * State :=
  match q.(queue) !! i with
  | None => (Returned false, q)
  | Some transaction =>
      if status_eqb transaction.(status) EXECUTING ||
         status_eqb transaction.(status) CONFIRMING
      then (Thrown ("Cannot remove transaction " +:+ i +:+ " in status " +:+
                    status_name transaction.(status)), q)
      else (Returned true,
            mkQueue (delete i q.(queue))
                    (filter (λ txId, txId ≠ i) q.(executionOrder))
                    q.(options)
                    ((λ deps : gset string, deps ∖ {[i]}) <$>
                       delete i q.(dependencyGraph)))
  end.

Definition cancel (i : string) (q : State) : bool * State :=
  match q.(queue) !! i with
  | None => (false, q)
  | Some transaction =>
      if status_eqb transaction.(status) CONFIRMED then (false, q)
      else (true,
            mkQueue (<[i := set_status CANCELLED transaction]> q.(queue))
                    q.(executionOrder) q.(options) q.(dependencyGraph))
  end.

Definition get (i : string) (q : State) : option QueuedTransaction :=
  q.(queue) !! i.

Definition blocks (depTx : QueuedTransaction) : bool :=
  negb (status_eqb depTx.(status) CONFIRMED) &&
  negb (status_eqb depTx.(status) CANCELLED).

Definition hasPendingDependencies (q : State) (i : string) : bool :=
  match q.(dependencyGraph) !! i with
  | None => false
  | Some deps =>
      existsb (λ depId,
                 match q.(queue) !! depId with
                 | None => false
                 | Some depTx => blocks depTx
                 end)
              (elements deps)
  end.

Fixpoint getNextFrom (q : State) (order : list string) : option QueuedTransaction :=
  match order with
  | [] => None
  | i :: rest =>
      match q.(queue) !! i with
      | None => getNextFrom q rest
      | Some transaction =>
          if negb (status_eqb transaction.(status) PENDING) &&
             negb (status_eqb transaction.(status) QUEUED)
          then getNextFrom q rest
          else if hasPendingDependencies q i then getNextFrom q rest
          else Some transaction
      end
  end.

Definition getNext (q : State) : option QueuedTransaction :=
  getNextFrom q q.(executionOrder).

Definition stamp (now : Z) (s : TransactionStatus) (t : QueuedTransaction) :=
  match s with
  | EXECUTING => set_executedAt now t
  | CONFIRMED => set_confirmedAt now t
  | _ => t
  end.

Definition updateStatus (now : Z) (i : string) (s : TransactionStatus)
    (q : State) : bool * State :=
  match q.(queue) !! i with
  | None => (false, q)
  | Some transaction =>
      (true,
       mkQueue (<[i := stamp now s (set_status s transaction)]> q.(queue))
               q.(executionOrder) q.(options) q.(dependencyGraph))
  end.

Definition size (q : State) : nat := base.size q.(queue).

(** The double-quote character of the first error message. *)
Definition dquote : string := String (ascii_of_nat 34) EmptyString.

Definition validateTransaction (c : TransactionConfig) (q : State)
    : TransactionValidation :=
  let errors1 :=
    if truthyS c.(to) then []
    else ["Transaction must have a " +:+ dquote +:+ "to" +:+ dquote +:+ " address"] in
  let warnings1 :=
    if negb (truthyS c.(data)) && negb (truthyZ c.(value))
    then ["Transaction has no data or value"] else [] in
  let errors2 :=
    match c.(cid) with
    | Some i =>
        if truthyS (Some i) && bool_decide (is_Some (q.(queue) !! i))
        then ["Transaction with ID " +:+ i +:+ " already exists"] else []
    | None => []
    end in
  let errs := errors1 ++ errors2 in
  mkValidation (Nat.eqb (length errs) 0) errs warnings1 c.(gasLimit)
    (if truthyZ c.(gasLimit) && truthyZ c.(gasPrice)
     then match c.(gasLimit), c.(gasPrice) with
          | Some g, Some p => Some (g * p)
          | _, _ => None
          end
     else None).

Definition reorder (i : string) (newPriority : Z) (q : State) : bool * State :=
  match q.(queue) !! i with
  | None => (false, q)
  | Some transaction =>
      let order1 := filter (λ txId, txId ≠ i) q.(executionOrder) in
      let queue' := <[i := set_priority newPriority transaction]> q.(queue) in
      (true,
       mkQueue queue' (insertIntoExecutionOrder queue' i newPriority order1)
               q.(options) q.(dependencyGraph))
  end.

End TransactionQueue.

(** ** Execution engine ([src/executor/TransactionExecutor.ts]) *)

Module TransactionExecutor.

(** The provider, as the answers it gives: each call returns or throws. *)
Record WalletProvider := mkProvider {
  sendTransaction : TransactionConfig → Outcome Hash;
  getTransactionCount : Address → Outcome Z;
  estimateGas : TransactionConfig → Outcome Z;
  getGasPrice : Outcome Z;
  waitForTransaction : Hash → Z → Outcome TransactionReceipt
}.

(** What one call of the engine sees of its environment: the provider,
    the clock and the random source. *)
Record World := mkWorld {
  provider : WalletProvider;
  now : Z;
  random : Q
}.

Record State := mkExecutor {
  queue : TransactionQueue.State;
  options : TransactionQueueOptions;
  retryManager : RetryOptions;
  isRunning : bool;
  currentlyExecuting : gset string;
  nonceTracker : gmap Address Z;
  emitted : list Event
}.

Definition set_queue (q : TransactionQueue.State) (s : State) : State :=
  mkExecutor q s.(options) s.(retryManager) s.(isRunning)
             s.(currentlyExecuting) s.(nonceTracker) s.(emitted).

Definition set_isRunning (b : bool) (s : State) : State :=
  mkExecutor s.(queue) s.(options) s.(retryManager) b
             s.(currentlyExecuting) s.(nonceTracker) s.(emitted).

Definition set_currentlyExecuting (c : gset string) (s : State) : State :=
  mkExecutor s.(queue) s.(options) s.(retryManager) s.(isRunning)
             c s.(nonceTracker) s.(emitted).

Definition set_nonceTracker (n : gmap Address Z) (s : State) : State :=
  mkExecutor s.(queue) s.(options) s.(retryManager) s.(isRunning)
             s.(currentlyExecuting) n s.(emitted).

Definition emit (e : Event) (s : State) : State :=
  mkExecutor s.(queue) s.(options) s.(retryManager) s.(isRunning)
             s.(currentlyExecuting) s.(nonceTracker) (s.(emitted) ++ [e]).

(** The constructor, without the [autoStart] call of [start]. *)
Definition create (q : TransactionQueue.State) (o : TransactionQueueOptions) : State :=
  mkExecutor q o
    (RetryManager.create
       (mkPartialRetryOptions (Some o.(retryStrategy)) (Some o.(defaultMaxRetries))
          (Some o.(retryDelay)) (Some o.(maxRetryDelay)) None))
    false ∅ ∅ [].

(** *** A state and exception monad for the asynchronous methods *)

Definition M (A : Type) : Type := State → Outcome A * State.

Definition ret {A} (a : A) : M A := λ s, (Returned a, s).

Definition bind {A B} (m : M A) (k : A → M B) : M B :=
  λ s, match m s with
       | (Returned a, s') => k a s'
       | (Thrown e, s') => (Thrown e, s')
       end.

Definition await {A} (o : Outcome A) : M A := λ s, (o, s).

Definition update (f : State → State) : M unit := λ s, (Returned tt, f s).

Definition read {A} (f : State → A) : M A := λ s, (Returned (f s), s).

Notation "'do' x <- m ; k" := (bind m (λ x, k))
  (at level 10, x name, m at level 100, k at level 200).
Notation "'do_' m ; k" := (bind m (λ _, k))
  (at level 10, m at level 100, k at level 200).

(** The write [transaction.f = v] through the shared record. *)
Definition modifyRecord (i : string) (f : QueuedTransaction → QueuedTransaction)
    (s : State) : State :=
  set_queue
    (TransactionQueue.mkQueue
       (alter f i s.(queue).(TransactionQueue.queue))
       s.(queue).(TransactionQueue.executionOrder)
       s.(queue).(TransactionQueue.options)
       s.(queue).(TransactionQueue.dependencyGraph)) s.

Definition updateStatus (w : World) (i : string) (st : TransactionStatus)
    (s : State) : State :=
  set_queue (TransactionQueue.updateStatus w.(now) i st s.(queue)).2 s.

Definition getAccount : Address := "0x0000000000000000000000000000000000000000".

Definition with_nonce (n : Z) (c : TransactionConfig) : TransactionConfig :=
  mkConfig c.(cid) c.(to) c.(data) c.(value) c.(gasLimit) c.(gasPrice)
           c.(maxFeePerGas) c.(maxPriorityFeePerGas) (Some n) c.(chainId).

Definition with_gasLimit (g : Z) (c : TransactionConfig) : TransactionConfig :=
  mkConfig c.(cid) c.(to) c.(data) c.(value) (Some g) c.(gasPrice)
           c.(maxFeePerGas) c.(maxPriorityFeePerGas) c.(nonce) c.(chainId).

Definition with_gasPrice (g : Z) (c : TransactionConfig) : TransactionConfig :=
  mkConfig c.(cid) c.(to) c.(data) c.(value) c.(gasLimit) (Some g)
           c.(maxFeePerGas) c.(maxPriorityFeePerGas) c.(nonce) c.(chainId).

Definition prepareNonce (w : World) (c : TransactionConfig) : M TransactionConfig :=
  do nm <- read (λ s, s.(options).(nonceManager));
  if nm && negb (truthyZ c.(nonce)) then
    let account := getAccount in
    do currentNonce <- await (w.(provider).(getTransactionCount) account);
    do tracked <- read (λ s, s.(nonceTracker) !! account);
    let trackedNonce := orZ tracked currentNonce in
    let n := Z.max currentNonce trackedNonce in
    do_ update (λ s, set_nonceTracker (<[account := n + 1]> s.(nonceTracker)) s);
    ret (with_nonce n c)
  else ret c.

Definition prepareGasLimit (w : World) (c : TransactionConfig) : M TransactionConfig :=
  if negb (truthyZ c.(gasLimit)) then
    do g <- await (w.(provider).(estimateGas) c);
    ret (with_gasLimit g c)
  else ret c.

Definition prepareGasPrice (w : World) (c : TransactionConfig) : M TransactionConfig :=
  if negb (truthyZ c.(gasPrice)) && negb (truthyZ c.(maxFeePerGas)) then
    do g <- await (w.(provider).(getGasPrice));
    ret (with_gasPrice g c)
  else ret c.

Definition prepareTransaction (w : World) (transaction : QueuedTransaction)
    : M TransactionConfig :=
  let c := transaction.(config) in
  do c1 <- prepareNonce w c;
  do c2 <- prepareGasLimit w c1;
  prepareGasPrice w c2.

(** [wait(delay)] only lets time pass; the state is as it was. *)
Definition handleTransactionError (w : World) (i : string) (err : Error)
    (s : State) : State :=
  match TransactionQueue.get i s.(queue) with
  | None => s
  | Some transaction =>
      if RetryManager.shouldRetry transaction err then
        let updatedTx := RetryManager.incrementRetryCount transaction in
        let s1 := updateStatus w updatedTx.(id) PENDING s in
        let delay := RetryManager.getRetryDelay s.(retryManager) w.(random)
                       updatedTx.(retryCount) in
        let s2 := emit (TransactionRetry updatedTx.(id) updatedTx.(retryCount)) s1 in
        if Str.includes (Str.toLowerCase err) "nonce" then
          set_nonceTracker (delete getAccount s2.(nonceTracker)) s2
        else s2
      else
        let s1 := modifyRecord i (set_error err) s in
        let s2 := updateStatus w transaction.(id) FAILED s1 in
        emit (TransactionFailed transaction.(id) err) s2
  end.

Definition executeBody (w : World) (i : string) : M unit :=
  do_ update (λ s, set_currentlyExecuting ({[i]} ∪ s.(currentlyExecuting)) s);
  do_ update (updateStatus w i EXECUTING);
  do_ update (emit (TransactionStarted i));
  do stored <- read (λ s, TransactionQueue.get i s.(queue));
  match stored with
  | None => ret tt
  | Some transaction =>
      do preparedConfig <- prepareTransaction w transaction;
      do h <- await (w.(provider).(sendTransaction) preparedConfig);
      do_ update (modifyRecord i (set_hash h));
      do_ update (emit (TransactionSent i h));
      do_ update (updateStatus w i CONFIRMING);
      do cb <- read (λ s, s.(options).(confirmationBlocks));
      do r <- await (w.(provider).(waitForTransaction) h cb);
      do_ update (modifyRecord i (set_receipt r));
      do_ update (updateStatus w i CONFIRMED);
      update (emit (TransactionConfirmed i r))
  end.

(** [try { body } catch (error) { handle } finally { delete }] *)
Definition executeTransaction (w : World) (i : string) (s : State) : State :=
  let s' :=
    match executeBody w i s with
    | (Returned _, s1) => s1
    | (Thrown err, s1) => handleTransactionError w i err s1
    end in
  set_currentlyExecuting (s'.(currentlyExecuting) ∖ {[i]}) s'.

(** One turn of the loop of [processQueue]; the started execution runs to
    its end before the next turn.  The source calls [executeTransaction]
    without [await] and goes on to the next turn, which waits while the
    in-flight set is full: the turns below are those of the source when
    [maxConcurrent] is at most 1 (executions do not overlap). *)
Definition processStep (w : World) (s : State) : State :=
  if Z.of_nat (base.size s.(currentlyExecuting)) >=? s.(options).(maxConcurrent)
  then s
  else
    match TransactionQueue.getNext s.(queue) with
    | None =>
        if Nat.eqb (base.size s.(currentlyExecuting)) 0 then emit QueueEmpty s
        else s
    | Some transaction =>
        let s1 := updateStatus w transaction.(id) QUEUED s in
        let s2 := emit (TransactionQueued transaction.(id)) s1 in
        executeTransaction w transaction.(id) s2
    end.

(** [turns] turns of the loop, the [k]-th in the world [ws k]. *)
Fixpoint processQueue (turns : nat) (ws : nat → World) (s : State) : State :=
  if s.(isRunning) then
    match turns with
    | O => s
    | S n => processQueue n (λ k, ws (S k)) (processStep (ws O) s)
    end
  else s.

Definition start (turns : nat) (ws : nat → World) (s : State) : State :=
  if s.(isRunning) then s
  else processQueue turns ws (emit QueueResumed (set_isRunning true s)).

Definition stop (s : State) : State :=
  emit QueuePaused (set_isRunning false s).

Definition cancelTransaction (i : string) (s : State) : bool * State :=
  match TransactionQueue.get i s.(queue) with
  | None => (false, s)
  | Some transaction =>
      if bool_decide (i ∈ s.(currentlyExecuting)) then (false, s)
      else
        let '(cancelled, q') := TransactionQueue.cancel i s.(queue) in
        let s1 := set_queue q' s in
        (cancelled,
         if cancelled then emit (TransactionCancelled transaction.(id)) s1 else s1)
  end.

Definition retryTransaction (w : World) (i : string) (s : State) : bool * State :=
  match TransactionQueue.get i s.(queue) with
  | None => (false, s)
  | Some transaction =>
      if negb (status_eqb transaction.(status) FAILED) then (false, s)
      else
        let resetTx := RetryManager.resetRetryCount transaction in
        (true, updateStatus w resetTx.(id) PENDING s)
  end.

End TransactionExecutor.

(** ** Notions used to state the properties *)

Module Props.

Import TransactionQueue.

(** A delay is a whole number of time units. *)
Definition isWhole (d : Q) : Prop := (inject_Z (Qfloor d) == d)%Q.

(** The transient categories, as the substrings looked for. *)
Definition transientMarkers : list string :=
  [ "network"; "timeout"; "connection";
    "rate limit"; "too many requests"; "429";
    "nonce too low"; "already known";
    "replacement transaction underpriced"; "gas price too low";
    "pending"; "queued" ].

Definition mentionsAny (markers : list string) (error : Error) : bool :=
  existsb (Str.includes (Str.toLowerCase error)) markers.

(** Eligibility in the words of the specification: the status allows
    execution and every dependency that is present in the queue is
    confirmed or cancelled. *)
Definition satisfied (q : State) (depId : string) : Prop :=
  ∀ depTx, q.(queue) !! depId = Some depTx →
           depTx.(status) = CONFIRMED ∨ depTx.(status) = CANCELLED.

Definition eligible (q : State) (i : string) (t : QueuedTransaction) : Prop :=
  q.(queue) !! i = Some t ∧
  (t.(status) = PENDING ∨ t.(status) = QUEUED) ∧
  ∀ deps depId, q.(dependencyGraph) !! i = Some deps → depId ∈ deps →
                satisfied q depId.

(** [t] is the record of the first eligible entry of the execution order. *)
Definition firstEligible (q : State) (t : QueuedTransaction) : Prop :=
  ∃ n i, q.(executionOrder) !! n = Some i ∧ eligible q i t ∧
         ∀ m j t', (m < n)%nat → q.(executionOrder) !! m = Some j →
                   ¬ eligible q j t'.

(** Sequences of [add] and [reorder] calls. *)
Inductive QueueOp :=
| OpAdd (now : Z) (generated : string) (c : TransactionConfig) (o : AddOptions)
| OpReorder (i : string) (newPriority : Z).

Definition applyOp (op : QueueOp) (q : State) : State :=
  match op with
  | OpAdd now g c o => (add now g c o q).2
  | OpReorder i p => (reorder i p q).2
  end.

Definition runOps (ops : list QueueOp) (q : State) : State :=
  fold_left (λ q op, applyOp op q) ops q.

(** The identifier a call puts into the execution order, if any. *)
Definition inserted (op : QueueOp) (q : State) : option string :=
  match op with
  | OpAdd now g c o => Some (add now g c o q).1
  | OpReorder i p => if (reorder i p q).1 then Some i else None
  end.

(** Bookkeeping for the statement only: for every identifier, the number
    of the call that last put it into the execution order. *)
Fixpoint arrivals (ops : list QueueOp) (k : nat) (q : State)
    (arr : gmap string nat) : gmap string nat :=
  match ops with
  | [] => arr
  | op :: ops' =>
      arrivals ops' (S k) (applyOp op q)
        (match inserted op q with
         | Some i => <[i := k]> arr
         | None => arr
         end)
  end.

(** No [add] of the sequence uses an identifier that is in the queue at
    the time of the call. *)
Fixpoint freshAdds (ops : list QueueOp) (q : State) : Prop :=
  match ops with
  | [] => True
  | op :: ops' =>
      match op with
      | OpAdd now g c o => q.(queue) !! (add now g c o q).1 = None
      | OpReorder _ _ => True
      end ∧ freshAdds ops' (applyOp op q)
  end.

(** The order the claim asks for: earlier positions have a higher
    priority, or the same priority and an earlier arrival. *)
Definition goesBefore (q : State) (arr : gmap string nat) (a b : string) : Prop :=
  ∃ ta tb na nb,
    q.(queue) !! a = Some ta ∧ q.(queue) !! b = Some tb ∧
    arr !! a = Some na ∧ arr !! b = Some nb ∧
    (ta.(priority) > tb.(priority) ∨
     (ta.(priority) = tb.(priority) ∧ (na < nb)%nat)).

Definition sortedStable (q : State) (arr : gmap string nat) : Prop :=
  ∀ n m a b, (n < m)%nat →
    q.(executionOrder) !! n = Some a → q.(executionOrder) !! m = Some b →
    goesBefore q arr a b.

(** The invariant behind [sortedStable], after [k] calls: the execution
    order is sorted, and each of its entries has a record and arrived
    before call [k]. *)
Definition orderedUpTo (k : nat) (q : State) (arr : gmap string nat) : Prop :=
  StronglySorted (goesBefore q arr) q.(executionOrder) ∧
  ∀ a, a ∈ q.(executionOrder) →
       ∃ ta na, q.(queue) !! a = Some ta ∧ arr !! a = Some na ∧ (na < k)%nat.

(** Number of retry and of failed notifications for a record in a trace. *)
Definition isRetryOf (i : string) (e : Event) : bool :=
  match e with TransactionRetry j _ => bool_decide (i = j) | _ => false end.

Definition isFailedOf (i : string) (e : Event) : bool :=
  match e with TransactionFailed j _ => bool_decide (i = j) | _ => false end.

Definition countRetry (i : string) (tr : list Event) : nat :=
  length (List.filter (isRetryOf i) tr).

Definition countFailed (i : string) (tr : list Event) : nat :=
  length (List.filter (isFailedOf i) tr).

End Props.

(** ** Concrete scenarios *)

Module Scenario.

Import TransactionQueue.

(** The default options, with [autoStart] off. *)
Definition defaults : TransactionQueueOptions :=
  completeOptions
    (mkPartialQueueOptions None None None None None None (Some false) None).

Definition transfer (i : string) : TransactionConfig :=
  mkConfig (Some i) (Some "0x00000000000000000000000000000000000000aa")
           None (Some 1) None None None None None None.

Definition withPriority (p : Z) : AddOptions :=
  mkAddOptions (Some p) None None None.

Definition noOptions : AddOptions := mkAddOptions None None None None.

Definition dependingOn (ds : list string) : AddOptions :=
  mkAddOptions None (Some ds) None None.

(** A record as [add] creates it, put into a given status and retry count. *)
Definition record (i : string) (st : TransactionStatus) (rc : Z) : QueuedTransaction :=
  mkTx i (transfer i) st 0 [] rc 3 0 None None None None None None.

Definition single (i : string) (st : TransactionStatus) (rc : Z) : State :=
  mkQueue {[ i := record i st rc ]} [i] defaults ∅.

(** One record with retry ceiling 3, as enqueued. *)
Definition oneEnqueued : State :=
  (add 0 "tx_generated" (transfer "tx") noOptions (create defaults)).2.

(** A provider whose [sendTransaction] always fails with [msg]. *)
Definition failingWith (msg : Error) : TransactionExecutor.WalletProvider :=
  TransactionExecutor.mkProvider
    (λ _, Thrown msg) (λ _, Returned 7) (λ _, Returned 21000)
    (Returned 1000000000) (λ _ _, Thrown msg).

Definition alwaysFailing (msg : Error) : nat → TransactionExecutor.World :=
  λ _, TransactionExecutor.mkWorld (failingWith msg) 0 0%Q.

Definition running (q : State) : TransactionExecutor.State :=
  TransactionExecutor.set_isRunning true (TransactionExecutor.create q defaults).

(** The shape of the engine's state between two failing attempts on the
    one record: only the execution timestamp, the nonce ledger and the
    trace vary. *)
Definition retryingRecord (ea : option Z) : QueuedTransaction :=
  mkTx "tx" (transfer "tx") PENDING 0 [] 0 3 0 ea None None None None None.

Definition retrying (ea : option Z) (nt : gmap Address Z) (ev : list Event)
    : TransactionExecutor.State :=
  TransactionExecutor.mkExecutor
    (mkQueue {[ "tx" := retryingRecord ea ]} ["tx"] defaults ∅)
    defaults
    (mkRetryOptions EXPONENTIAL_BACKOFF 3 1000%Q 30000%Q 2%Q)
    true ∅ nt ev.

(** A provider that answers every call. *)
Definition answering (count : Z) : TransactionExecutor.WalletProvider :=
  TransactionExecutor.mkProvider
    (λ _, Returned "0xhash") (λ _, Returned count) (λ _, Returned 21000)
    (Returned 1000000000) (λ _ _, Returned (mkReceipt 21000 1)).

End Scenario.

(** ** Further operations of the queue ([src/queue/TransactionQueue.ts]) *)

(** The views iterate over the [Map] of records in its insertion order,
    which a [gmap] does not keep: the order of iteration is the argument
    [keys] of the functions below. *)

Module QueueViews.

Import TransactionQueue.

(** [keys] lists every identifier of the queue once. *)
Definition enumerates (keys : list string) (q : State) : Prop :=
  NoDup keys ∧ ∀ k, k ∈ keys ↔ is_Some (q.(queue) !! k).

Definition getAll (keys : list string) (q : State) : list QueuedTransaction :=
  omap (λ k, q.(queue) !! k) keys.

Definition pendingLike (tx : QueuedTransaction) : bool :=
  status_eqb tx.(status) PENDING || status_eqb tx.(status) QUEUED.

Definition inFlight (tx : QueuedTransaction) : bool :=
  status_eqb tx.(status) EXECUTING || status_eqb tx.(status) CONFIRMING.

Definition completed (tx : QueuedTransaction) : bool :=
  status_eqb tx.(status) CONFIRMED || status_eqb tx.(status) FAILED ||
  status_eqb tx.(status) CANCELLED.

Definition getPending (keys : list string) (q : State) : list QueuedTransaction :=
  List.filter pendingLike (getAll keys q).

Definition getExecuting (keys : list string) (q : State) : list QueuedTransaction :=
  List.filter inFlight (getAll keys q).

Definition getCompleted (keys : list string) (q : State) : list QueuedTransaction :=
  List.filter completed (getAll keys q).

Definition clear (keys : list string) (q : State) : State :=
  let executing := getExecuting keys q in
  mkQueue (fold_left (λ m tx, <[tx.(id) := tx]> m) executing ∅)
          (List.map id executing)
          q.(options)
          ∅.

Definition isEmpty (keys : list string) (q : State) : bool :=
  Nat.eqb (length (getPending keys q)) 0 &&
  Nat.eqb (length (getExecuting keys q)) 0.

Record QueueStatistics := mkStatistics {
  totalQueued : nat;
  totalExecuting : nat;
  totalConfirmed : nat;
  totalFailed : nat;
  averageConfirmationTime : Q;
  averageGasUsed : Z;
  successRate : Q
}.

Definition hasStatus (st : TransactionStatus) (tx : QueuedTransaction) : bool :=
  status_eqb tx.(status) st.

(** The two accumulations over the confirmed records. *)
Definition confirmationTime (tx : QueuedTransaction) : Z :=
  match tx.(confirmedAt) with
  | Some c => c - tx.(createdAt)
  | None => 0
  end.

Definition gasOf (tx : QueuedTransaction) : Z :=
  match tx.(receipt) with
  | Some r => r.(gasUsed)
  | None => 0
  end.

Definition sumZ (l : list Z) : Z := fold_left Z.add l 0.

(** Number division for the two ratios, truncating [BigInt] division for
    the gas. *)
Definition getStatistics (keys : list string) (q : State) : QueueStatistics :=
  let all := getAll keys q in
  let confirmed := List.filter (hasStatus CONFIRMED) all in
  let failed := List.filter (hasStatus FAILED) all in
  let totalConfirmationTime := sumZ (List.map confirmationTime confirmed) in
  let totalGasUsed := sumZ (List.map gasOf confirmed) in
  mkStatistics
    (length (getPending keys q))
    (length (getExecuting keys q))
    (length confirmed)
    (length failed)
    (if (0 <? length confirmed)%nat
     then (inject_Z totalConfirmationTime / inject_Z (Z.of_nat (length confirmed)))%Q
     else 0%Q)
    (if (0 <? length confirmed)%nat
     then Z.quot totalGasUsed (Z.of_nat (length confirmed))
     else 0)
    (if (0 <? length all)%nat
     then (inject_Z (Z.of_nat (length confirmed)) / inject_Z (Z.of_nat (length all)))%Q
     else 0%Q).

End QueueViews.

(** ** Total retry time ([RetryManager.getMaxRetryTime]) *)

Module RetryTime.

Import RetryManager.

(** The loop [for (i = first; i <= maxRetries; i++)], with [turns] turns
    left; [rands k] is the value of the [k]-th call of [Math.random()]. *)
Fixpoint sumDelays (o : RetryOptions) (rands : nat → Q) (turns : nat)
    (i : Z) (totalTime : Q) : Q :=
  match turns with
  | O => totalTime
  | S n =>
      sumDelays o (λ k, rands (S k)) n (i + 1)
        (totalTime + getRetryDelay o (rands O) i)%Q
  end.

Definition getMaxRetryTime (o : RetryOptions) (rands : nat → Q) : Q :=
  sumDelays o rands (Z.to_nat o.(ro_maxRetries)) 1 0%Q.

End RetryTime.

(** ** Submission surface ([SequentialTransactionHandler]) *)

Module SequentialTransactionHandler.

Import TransactionQueue.

(** [env k] gives the clock and the generated identifier of the [k]-th
    call of [add]. *)
Record SequenceOptions := mkSequenceOptions {
  s_priority : option Z;
  s_maxRetries : option Z;
  s_metadata : option string
}.

(** Turn [i] of the loop of [addSequence]; [ids] holds the [i]
    identifiers returned so far. *)
Fixpoint addSequenceFrom (env : nat → Z * string)
    (transactions : list TransactionConfig) (o : SequenceOptions)
    (i : nat) (ids : list string) (q : State) : list string * State :=
  match transactions with
  | [] => (ids, q)
  | c :: rest =>
      let dependencies :=
        match i with
        | O => []
        | S j => option_list (ids !! j)
        end in
      let r := add (env O).1 (env O).2 c
                   (mkAddOptions o.(s_priority) (Some dependencies)
                                 o.(s_maxRetries) o.(s_metadata)) q in
      addSequenceFrom (λ k, env (S k)) rest o (S i) (ids ++ [r.1]) r.2
  end.

Definition addSequence (env : nat → Z * string)
    (transactions : list TransactionConfig) (o : SequenceOptions)
    (q : State) : list string * State :=
  addSequenceFrom env transactions o O [] q.

End SequentialTransactionHandler.

(** ** Gas estimate of the provider ([WalletConnectProvider.estimateGas]) *)

Module WalletConnectProvider.

(** What the public client can throw: an [Error], a string, an object
    with a [message] that is a string, or anything else. *)
Inductive Raised :=
| ErrorObject (message : string)
| StringValue (s : string)
| MessageBearing (message : string)
| OtherValue.

Definition normalizeError (error : Raised) : Error :=
  match error with
  | ErrorObject message => message
  | StringValue s => s
  | MessageBearing message =>
      if truthyS (Some message) then message else "Unknown error occurred"
  | OtherValue => "Unknown error occurred"
  end.

(** [estimate] is the answer of the public client. *)
Definition estimateGas (estimate : Z + Raised) : Outcome Z :=
  match estimate with
  | inl gas => Returned (gas + Z.quot (gas * 20) 100)
  | inr error => Thrown (normalizeError error)
  end.

End WalletConnectProvider.

(** ** Notions for the further properties *)

Module MoreProps.

Import TransactionQueue Props.

(** Sequences of calls of the queue. *)
Inductive QueueCall :=
| CallAdd (now : Z) (generated : string) (c : TransactionConfig) (o : AddOptions)
| CallReorder (i : string) (newPriority : Z)
| CallRemove (i : string)
| CallCancel (i : string)
| CallUpdateStatus (now : Z) (i : string) (st : TransactionStatus).

Definition applyCall (call : QueueCall) (q : State) : State :=
  match call with
  | CallAdd now g c o => (add now g c o q).2
  | CallReorder i p => (reorder i p q).2
  | CallRemove i => (remove i q).2
  | CallCancel i => (cancel i q).2
  | CallUpdateStatus now i st => (updateStatus now i st q).2
  end.

Definition runCalls (calls : list QueueCall) (q : State) : State :=
  fold_left (λ q call, applyCall call q) calls q.

Definition placed (call : QueueCall) (q : State) : option string :=
  match call with
  | CallAdd now g c o => Some (add now g c o q).1
  | CallReorder i p => if (reorder i p q).1 then Some i else None
  | _ => None
  end.

(** For every identifier, the number of the call that last put it into
    the execution order. *)
Fixpoint arrivalsOf (calls : list QueueCall) (k : nat) (q : State)
    (arr : gmap string nat) : gmap string nat :=
  match calls with
  | [] => arr
  | call :: calls' =>
      arrivalsOf calls' (S k) (applyCall call q)
        (match placed call q with
         | Some i => <[i := k]> arr
         | None => arr
         end)
  end.

(** No [add] of the sequence uses an identifier that is in the queue at
    the time of the call. *)
Fixpoint freshCalls (calls : list QueueCall) (q : State) : Prop :=
  match calls with
  | [] => True
  | call :: calls' =>
      match call with
      | CallAdd now g c o => q.(queue) !! (add now g c o q).1 = None
      | _ => True
      end ∧ freshCalls calls' (applyCall call q)
  end.

(** Every entry of the execution order has a record, every record has
    exactly one entry, every record is stored under its own identifier,
    and every dependency set belongs to a record. *)
Definition consistent (q : State) : Prop :=
  NoDup q.(executionOrder) ∧
  (∀ k, k ∈ q.(executionOrder) ↔ is_Some (q.(queue) !! k)) ∧
  (∀ k t, q.(queue) !! k = Some t → t.(id) = k) ∧
  (∀ k, is_Some (q.(dependencyGraph) !! k) → is_Some (q.(queue) !! k)).

(** The part of a record that only the queue's own [add] and [reorder]
    write. *)
Definition submitted (t : QueuedTransaction)
    : string * TransactionConfig * list string * Z * Z * Z * option string :=
  (t.(id), t.(config), t.(dependencies), t.(retryCount), t.(maxRetries),
   t.(createdAt), t.(metadata)).

(** What a turn of the engine's loop leaves as it is. *)
Definition schedule (s : TransactionExecutor.State) :=
  (s.(TransactionExecutor.options), s.(TransactionExecutor.retryManager),
   s.(TransactionExecutor.isRunning),
   s.(TransactionExecutor.queue).(executionOrder),
   s.(TransactionExecutor.queue).(dependencyGraph),
   s.(TransactionExecutor.queue).(options),
   (λ t, (submitted t, t.(priority))) <$> s.(TransactionExecutor.queue).(queue)).

(** The record a notification is about. *)
Definition about (i : string) (e : Event) : Prop :=
  match e with
  | TransactionQueued j | TransactionStarted j | TransactionSent j _
  | TransactionConfirmed j _ | TransactionFailed j _ | TransactionRetry j _
  | TransactionCancelled j => j = i
  | QueueEmpty | QueuePaused | QueueResumed => False
  end.

(** What the execution of record [i] does to the state, besides the
    record's own progress and the nonce ledger: the schedule and the
    in-flight set are as before, every other record is as it was, and the
    notifications added to the trace are about [i]. *)
Definition turnOf (i : string) (s s' : TransactionExecutor.State) : Prop :=
  schedule s' = schedule s ∧
  s'.(TransactionExecutor.currentlyExecuting)
  = s.(TransactionExecutor.currentlyExecuting) ∧
  (∀ k, k ≠ i →
        s'.(TransactionExecutor.queue).(queue) !! k
        = s.(TransactionExecutor.queue).(queue) !! k) ∧
  ∃ evs, s'.(TransactionExecutor.emitted) = s.(TransactionExecutor.emitted) ++ evs ∧
         Forall (about i) evs.

(** Every identifier of the list but the first depends on its
    predecessor, and both records are in the queue, Pending. *)
Definition chained (ids : list string) (q : State) : Prop :=
  ∀ k a b, ids !! k = Some a → ids !! (S k) = Some b →
    q.(dependencyGraph) !! b = Some {[a]} ∧
    (∃ ta, q.(queue) !! a = Some ta ∧ ta.(status) = PENDING) ∧
    (∃ tb, q.(queue) !! b = Some tb ∧ tb.(status) = PENDING ∧
           tb.(dependencies) = [a]).

(** A set of records none of which can run: each is finished (neither
    Pending, Queued, Executing nor Confirming) or waits for a member of the
    set that is neither Confirmed nor Cancelled. *)
Definition stuck (ids : gset string) (q : State) : Prop :=
  ∀ k, k ∈ ids →
    ∃ t, q.(queue) !! k = Some t ∧
         ((t.(status) = CONFIRMED ∨ t.(status) = FAILED ∨
           t.(status) = CANCELLED ∨ t.(status) = REPLACED) ∨
          ∃ deps d td, q.(dependencyGraph) !! k = Some deps ∧ d ∈ deps ∧
                       d ∈ ids ∧ q.(queue) !! d = Some td ∧ blocks td = true).

(** The provider answers the three calls of the preparation. *)
Definition answersPreparation (w : TransactionExecutor.World) : Prop :=
  (∃ count, w.(TransactionExecutor.provider).(TransactionExecutor.getTransactionCount)
              TransactionExecutor.getAccount = Returned count) ∧
  (∀ c0, ∃ g, w.(TransactionExecutor.provider).(TransactionExecutor.estimateGas) c0
              = Returned g) ∧
  (∃ gp, w.(TransactionExecutor.provider).(TransactionExecutor.getGasPrice)
         = Returned gp).

(** Nonces are JavaScript numbers.  Up to [Number.MAX_SAFE_INTEGER] the
    sum [nonce + 1] of the source is the sum of integers; from [2^53] on it
    is rounded and no longer above [nonce]. *)
Definition maxSafeInteger : Z := 2 ^ 53 - 1.

End MoreProps.

(** ** Reachable states of the engine *)

Module Reachability.

Import TransactionQueue MoreProps.

(** The writes that the code of the engine makes to its state and,
    through the shared records and [queue.updateStatus], to the queue: an
    execution, however it overlaps with others, is a sequence of them. *)
Inductive EngineWrite :=
| SetStatus (w : TransactionExecutor.World) (i : string) (st : TransactionStatus)
| SetHash (i : string) (h : Hash)
| SetReceipt (i : string) (r : TransactionReceipt)
| SetError (i : string) (e : Error)
| Emit (e : Event)
| SetNonce (account : Address) (n : Z)
| DeleteNonce (account : Address)
| EnterInFlight (i : string)
| LeaveInFlight (i : string).

Definition applyWrite (wr : EngineWrite) (s : TransactionExecutor.State)
    : TransactionExecutor.State :=
  match wr with
  | SetStatus w i st => TransactionExecutor.updateStatus w i st s
  | SetHash i h => TransactionExecutor.modifyRecord i (set_hash h) s
  | SetReceipt i r => TransactionExecutor.modifyRecord i (set_receipt r) s
  | SetError i e => TransactionExecutor.modifyRecord i (set_error e) s
  | Emit e => TransactionExecutor.emit e s
  | SetNonce account n =>
      TransactionExecutor.set_nonceTracker
        (<[account := n]> s.(TransactionExecutor.nonceTracker)) s
  | DeleteNonce account =>
      TransactionExecutor.set_nonceTracker
        (delete account s.(TransactionExecutor.nonceTracker)) s
  | EnterInFlight i =>
      TransactionExecutor.set_currentlyExecuting
        ({[i]} ∪ s.(TransactionExecutor.currentlyExecuting)) s
  | LeaveInFlight i =>
      TransactionExecutor.set_currentlyExecuting
        (s.(TransactionExecutor.currentlyExecuting) ∖ {[i]}) s
  end.

(** The states of an engine and its queue after construction and any
    sequence of calls of the queue ([add], [reorder], [remove], [cancel],
    [updateStatus], [clear]) and of the engine ([start], [stop], turns of
    the loop, single executions, [cancelTransaction], [retryTransaction]),
    with any provider answers; [reachable_write] lets the writes of
    executions that overlap come in any order (the states of the engine
    under the scheduler of [Overlap] are reachable in this sense, lemma
    [runs_reachable]). *)
Inductive reachable : TransactionExecutor.State → Prop :=
| reachable_new (qo o : TransactionQueueOptions) :
    reachable (TransactionExecutor.create (create qo) o)
| reachable_call (call : QueueCall) (s : TransactionExecutor.State) :
    reachable s →
    reachable (TransactionExecutor.set_queue
                 (applyCall call s.(TransactionExecutor.queue)) s)
| reachable_clear (keys : list string) (s : TransactionExecutor.State) :
    reachable s →
    reachable (TransactionExecutor.set_queue
                 (QueueViews.clear keys s.(TransactionExecutor.queue)) s)
| reachable_start (turns : nat) (ws : nat → TransactionExecutor.World)
    (s : TransactionExecutor.State) :
    reachable s → reachable (TransactionExecutor.start turns ws s)
| reachable_stop (s : TransactionExecutor.State) :
    reachable s → reachable (TransactionExecutor.stop s)
| reachable_loop (turns : nat) (ws : nat → TransactionExecutor.World)
    (s : TransactionExecutor.State) :
    reachable s → reachable (TransactionExecutor.processQueue turns ws s)
| reachable_execution (w : TransactionExecutor.World) (i : string)
    (s : TransactionExecutor.State) :
    reachable s → reachable (TransactionExecutor.executeTransaction w i s)
| reachable_cancel (i : string) (s : TransactionExecutor.State) :
    reachable s → reachable (TransactionExecutor.cancelTransaction i s).2
| reachable_retry (w : TransactionExecutor.World) (i : string)
    (s : TransactionExecutor.State) :
    reachable s → reachable (TransactionExecutor.retryTransaction w i s).2
| reachable_write (wr : EngineWrite) (s : TransactionExecutor.State) :
    reachable s → reachable (applyWrite wr s).

(** Every record is stored under its own identifier with retry counter 0. *)
Definition countersAtZero (q : State) : Prop :=
  ∀ k t, q.(queue) !! k = Some t → t.(id) = k ∧ t.(retryCount) = 0.

End Reachability.

(** ** Executions that overlap *)

(** The loop calls [executeTransaction] without [await]: with
    [maxConcurrent] above 1 several executions are in flight at a time,
    each suspended at one of its [await]s.  Below, an asynchronous method
    is the tree of its reads, writes and [await]s; the engine's state is
    shared, and a suspended execution goes on when the scheduler resumes
    it. *)

Module Overlap.

Import TransactionQueue MoreProps Reachability.

Inductive Async (A : Type) : Type :=
| Settled (o : Outcome A)
| Read (k : TransactionExecutor.State → Async A)
| Write (wr : EngineWrite) (k : Async A)
| Await (k : Async A).
Arguments Settled {A} o.
Arguments Read {A} k.
Arguments Write {A} wr k.
Arguments Await {A} k.

(** [m], then [h] on its outcome. *)
Fixpoint andThen {A B : Type} (m : Async A) (h : Outcome A → Async B) : Async B :=
  match m with
  | Settled o => h o
  | Read k => Read (λ s, andThen (k s) h)
  | Write wr k => Write wr (andThen k h)
  | Await k => Await (andThen k h)
  end.

Definition bindA {A B : Type} (m : Async A) (h : A → Async B) : Async B :=
  andThen m (λ o, match o with
                  | Returned a => h a
                  | Thrown e => Settled (Thrown e)
                  end).

(** [try { m } catch (error) { h error }] *)
Definition catchA {A : Type} (m : Async A) (h : Error → Async A) : Async A :=
  andThen m (λ o, match o with
                  | Returned a => Settled (Returned a)
                  | Thrown e => h e
                  end).

(** [try { m } finally { f }] *)
Definition finallyA {A : Type} (m : Async A) (f : Async unit) : Async A :=
  andThen m (λ o, bindA f (λ _, Settled o)).

(** [await] of a call of the provider, whose answer is [o]. *)
Definition awaitP {A : Type} (o : Outcome A) : Async A := Await (Settled o).

(** [await] of a call of an asynchronous method of the engine: the
    caller goes on after the method has settled. *)
Definition awaitA {A : Type} (m : Async A) : Async A :=
  andThen m (λ o, Await (Settled o)).

Definition retA {A : Type} (a : A) : Async A := Settled (Returned a).

Notation "'run' x <- m ; k" := (bindA m (λ x, k))
  (at level 10, x name, m at level 100, k at level 200).

Definition prepareNonce (w : TransactionExecutor.World) (c : TransactionConfig)
    : Async TransactionConfig :=
  Read (λ s,
    if s.(TransactionExecutor.options).(nonceManager) && negb (truthyZ c.(nonce)) then
      let account := TransactionExecutor.getAccount in
      Await
        (run currentNonce <-
           awaitP (w.(TransactionExecutor.provider)
                     .(TransactionExecutor.getTransactionCount) account);
         Read (λ s,
           let trackedNonce :=
             orZ (s.(TransactionExecutor.nonceTracker) !! account) currentNonce in
           let n := Z.max currentNonce trackedNonce in
           Write (SetNonce account (n + 1))
                 (retA (TransactionExecutor.with_nonce n c))))
    else retA c).

Definition prepareGasLimit (w : TransactionExecutor.World) (c : TransactionConfig)
    : Async TransactionConfig :=
  if negb (truthyZ c.(gasLimit)) then
    run g <- awaitP (w.(TransactionExecutor.provider).(TransactionExecutor.estimateGas) c);
    retA (TransactionExecutor.with_gasLimit g c)
  else retA c.

Definition prepareGasPrice (w : TransactionExecutor.World) (c : TransactionConfig)
    : Async TransactionConfig :=
  if negb (truthyZ c.(gasPrice)) && negb (truthyZ c.(maxFeePerGas)) then
    run g <- awaitP (w.(TransactionExecutor.provider).(TransactionExecutor.getGasPrice));
    retA (TransactionExecutor.with_gasPrice g c)
  else retA c.

Definition prepareTransaction (w : TransactionExecutor.World)
    (transaction : QueuedTransaction) : Async TransactionConfig :=
  let c := transaction.(config) in
  run c1 <- prepareNonce w c;
  run c2 <- prepareGasLimit w c1;
  prepareGasPrice w c2.

(** The first [Await] of the retry branch is [await this.wait(delay)], the
    second [await this.getAccount()]. *)
Definition handleTransactionError (w : TransactionExecutor.World) (i : string)
    (err : Error) : Async unit :=
  Read (λ s,
    match get i s.(TransactionExecutor.queue) with
    | None => retA tt
    | Some transaction =>
        if RetryManager.shouldRetry transaction err then
          let updatedTx := RetryManager.incrementRetryCount transaction in
          Write (SetStatus w updatedTx.(id) PENDING)
            (Write (Emit (TransactionRetry updatedTx.(id) updatedTx.(retryCount)))
               (Await
                  (if Str.includes (Str.toLowerCase err) "nonce" then
                     Await (Write (DeleteNonce TransactionExecutor.getAccount)
                                  (retA tt))
                   else retA tt)))
        else
          Write (SetError i err)
            (Write (SetStatus w transaction.(id) FAILED)
               (Write (Emit (TransactionFailed transaction.(id) err)) (retA tt)))
    end).

Definition executeBody (w : TransactionExecutor.World) (i : string) : Async unit :=
  Write (EnterInFlight i)
    (Write (SetStatus w i EXECUTING)
       (Write (Emit (TransactionStarted i))
          (Read (λ s,
             match get i s.(TransactionExecutor.queue) with
             | None => retA tt
             | Some transaction =>
                 run preparedConfig <- awaitA (prepareTransaction w transaction);
                 run h <- awaitP (w.(TransactionExecutor.provider)
                                    .(TransactionExecutor.sendTransaction) preparedConfig);
                 Write (SetHash i h)
                   (Write (Emit (TransactionSent i h))
                      (Write (SetStatus w i CONFIRMING)
                         (Read (λ s,
                            let cb := s.(TransactionExecutor.options).(confirmationBlocks) in
                            run r <- awaitP (w.(TransactionExecutor.provider)
                                               .(TransactionExecutor.waitForTransaction) h cb);
                            Write (SetReceipt i r)
                              (Write (SetStatus w i CONFIRMED)
                                 (Write (Emit (TransactionConfirmed i r)) (retA tt)))))))
             end)))).

(** [try { body } catch (error) { await handle } finally { delete }] *)
Definition executeTransaction (w : TransactionExecutor.World) (i : string)
    : Async unit :=
  finallyA
    (catchA (executeBody w i) (λ err, awaitA (handleTransactionError w i err)))
    (Write (LeaveInFlight i) (retA tt)).

(** A method runs until its next [await] (or its end): what is left of
    it, and the state. *)
Fixpoint advance {A : Type} (m : Async A) (s : TransactionExecutor.State)
    : Async A * TransactionExecutor.State :=
  match m with
  | Settled o => (Settled o, s)
  | Read k => advance (k s) s
  | Write wr k => advance k (applyWrite wr s)
  | Await k => (k, s)
  end.

(** A method run to its end with nothing in between. *)
Fixpoint runAlone {A : Type} (m : Async A) (s : TransactionExecutor.State)
    : Outcome A * TransactionExecutor.State :=
  match m with
  | Settled o => (o, s)
  | Read k => runAlone (k s) s
  | Write wr k => runAlone k (applyWrite wr s)
  | Await k => runAlone k s
  end.

(** What a write of the execution of record [i] may be, and what it does
    then: it leaves the schedule and every other record, and the
    notifications are about [i]. *)
Definition targets (i : string) (wr : EngineWrite) : Prop :=
  match wr with
  | SetStatus _ j _ | SetHash j _ | SetReceipt j _ | SetError j _ => j = i
  | Emit e => about i e
  | SetNonce _ _ | DeleteNonce _ | EnterInFlight _ | LeaveInFlight _ => True
  end.

Definition concerns (i : string) (s s' : TransactionExecutor.State) : Prop :=
  schedule s' = schedule s ∧
  (∀ k, k ≠ i →
        s'.(TransactionExecutor.queue).(queue) !! k
        = s.(TransactionExecutor.queue).(queue) !! k) ∧
  ∃ evs, s'.(TransactionExecutor.emitted) = s.(TransactionExecutor.emitted) ++ evs ∧
         Forall (about i) evs.

(** A method all of whose writes are writes of the execution of [i], as
    long as the record [i] is stored under its own identifier. *)
Inductive confined (i : string) {A : Type} : Async A → Prop :=
| confined_settled (o : Outcome A) : confined i (Settled o)
| confined_read (k : TransactionExecutor.State → Async A) :
    (∀ s, (∀ t, s.(TransactionExecutor.queue).(queue) !! i = Some t → t.(id) = i) →
          confined i (k s)) →
    confined i (Read k)
| confined_write (wr : EngineWrite) (k : Async A) :
    targets i wr → confined i k → confined i (Write wr k)
| confined_await (k : Async A) : confined i k → confined i (Await k).

(** An execution of a record outside of the set [ids]. *)
Definition outside (ids : gset string) (m : Async unit) : Prop :=
  ∃ i, (i ∉ ids) ∧ confined i m.

(** The number of [await]s a method meets when it runs alone. *)
Fixpoint awaits {A : Type} (m : Async A) (s : TransactionExecutor.State) : nat :=
  match m with
  | Settled _ => O
  | Read k => awaits (k s) s
  | Write wr k => awaits k (applyWrite wr s)
  | Await k => S (awaits k s)
  end.

(** The engine with the executions that are suspended. *)
Record System := mkSystem {
  engine : TransactionExecutor.State;
  suspended : list (Async unit)
}.

(** One turn of the loop of [processQueue]: the execution it starts runs
    to its first [await] and is left suspended. *)
Definition loopTurn (w : TransactionExecutor.World) (sys : System) : System :=
  let s := sys.(engine) in
  if Z.of_nat (base.size s.(TransactionExecutor.currentlyExecuting))
     >=? s.(TransactionExecutor.options).(maxConcurrent)
  then sys
  else
    match getNext s.(TransactionExecutor.queue) with
    | None =>
        if Nat.eqb (base.size s.(TransactionExecutor.currentlyExecuting)) 0
        then mkSystem (TransactionExecutor.emit QueueEmpty s) sys.(suspended)
        else sys
    | Some transaction =>
        let s1 := TransactionExecutor.updateStatus w transaction.(id) QUEUED s in
        let s2 := TransactionExecutor.emit (TransactionQueued transaction.(id)) s1 in
        let r := advance (executeTransaction w transaction.(id)) s2 in
        mkSystem r.2 (sys.(suspended) ++ [r.1])
    end.

(** The [j]-th suspended execution goes on to its next [await]. *)
Definition resume (j : nat) (sys : System) : System :=
  match sys.(suspended) !! j with
  | None => sys
  | Some m =>
      let r := advance m sys.(engine) in
      mkSystem r.2 (<[j := r.1]> sys.(suspended))
  end.

(** The scheduler: while the engine is running the loop takes a turn, in
    any world; at any time a suspended execution is resumed.  (The source
    resumes executions only while the loop waits: its schedules are among
    these.) *)
Inductive step : System → System → Prop :=
| step_turn (w : TransactionExecutor.World) (sys : System) :
    sys.(engine).(TransactionExecutor.isRunning) = true →
    step sys (loopTurn w sys)
| step_resume (j : nat) (sys : System) :
    step sys (resume j sys).

Definition runs : System → System → Prop := rtc step.

(** A scenario: two records, and an engine that runs two executions at a
    time. *)
Definition twoAtATime : TransactionQueueOptions :=
  completeOptions
    (mkPartialQueueOptions (Some 2) None None None None None (Some false) None).

Definition twoEnqueued : System :=
  mkSystem
    (TransactionExecutor.set_isRunning true
       (TransactionExecutor.create
          (add 0 "g" (Scenario.transfer "b") Scenario.noOptions
             (add 0 "g" (Scenario.transfer "a") Scenario.noOptions
                (create twoAtATime)).2).2
          twoAtATime))
    [].

End Overlap.

(** * Properties *)

(** ** Retry policy *)

Section RetryPolicy.

Import RetryManager Props.

Local Ltac split_includes :=
  repeat match goal with
         | |- context [Str.includes ?a ?b] =>
             generalize (Str.includes a b); intros []; cbn [orb];
             try reflexivity
         end.

(** The classification is exactly: the lower-cased message mentions one of
    the transient categories. *)
Lemma isRetryableError_transient (e : Error) :
  isRetryableError e = mentionsAny transientMarkers e.
Proof.
  unfold isRetryableError, mentionsAny, transientMarkers.
  cbn [existsb]. cbv zeta. split_includes.
Qed.

(** Fail-closed: a message of no transient category is not retried. *)
Lemma isRetryableError_unknown (e : Error) :
  mentionsAny transientMarkers e = false → isRetryableError e = false.
Proof. intros H. now rewrite isRetryableError_transient. Qed.

Lemma shouldRetry_unknown (t : QueuedTransaction) (e : Error) :
  mentionsAny transientMarkers e = false → shouldRetry t e = false.
Proof.
  intros H. unfold shouldRetry.
  destruct (retryCount t >=? maxRetries t); [reflexivity|].
  now apply isRetryableError_unknown.
Qed.

Lemma shouldRetry_ceiling (t : QueuedTransaction) (e : Error) :
  t.(maxRetries) <= t.(retryCount) → shouldRetry t e = false.
Proof.
  intros H. unfold shouldRetry.
  destruct (Z.geb_spec (retryCount t) (maxRetries t)); [reflexivity | lia].
Qed.

(** C7 (the code at the failing inputs): a record below its ceiling and a
    message that names a permanent category (insufficient funds, user
    rejection, execution revert) is retried as soon as the message also
    contains a transient marker, because the transient checks return first;
    the same messages without the marker are not retried. *)
Theorem shouldRetry_permanent_masked :
  let t := Scenario.record "tx" PENDING 0 in
  shouldRetry t "insufficient funds for gas * price + value (network: base)" = true ∧
  shouldRetry t "User rejected the request (connection 7)" = true ∧
  shouldRetry t "execution reverted: withdrawal still pending" = true ∧
  shouldRetry t "insufficient funds for gas * price + value" = false ∧
  shouldRetry t "User rejected the request" = false ∧
  shouldRetry t "execution reverted: paused" = false.
Proof. vm_compute. repeat split; reflexivity. Qed.

(** *** Delays *)

Lemma isWhole_inject_Z (z : Z) : isWhole (inject_Z z).
Proof. unfold isWhole. now rewrite Qfloor_Z. Qed.

Lemma isWhole_Qeq (a b : Q) : (a == b)%Q → isWhole a → isWhole b.
Proof.
  unfold isWhole. intros Hab Ha.
  rewrite <- Hab at 2. rewrite <- Ha.
  now rewrite (Qfloor_comp _ _ Hab).
Qed.

Lemma isWhole_Qmin (a b : Q) : isWhole a → isWhole b → isWhole (Qmin a b).
Proof.
  intros Ha Hb.
  destruct (Q.min_spec a b) as [[_ H] | [_ H]];
    eapply isWhole_Qeq; try (symmetry; exact H); assumption.
Qed.

Lemma isWhole_mult_Z (a : Q) (n : Z) : isWhole a → isWhole (a * inject_Z n)%Q.
Proof.
  intros Ha. unfold isWhole in Ha.
  apply (isWhole_Qeq (inject_Z (Qfloor a * n))).
  - rewrite inject_Z_mult. now rewrite Ha.
  - apply isWhole_inject_Z.
Qed.

Lemma exponential_whole_bounded (o : RetryOptions) (rand : Q) (n : Z) :
  isWhole (getExponentialBackoffDelay o rand n) ∧
  (getExponentialBackoffDelay o rand n <= o.(maxDelay))%Q.
Proof.
  unfold getExponentialBackoffDelay. cbv zeta. split.
  - apply isWhole_inject_Z.
  - eapply Qle_trans; [apply Qfloor_le | apply Q.le_min_r].
Qed.

Lemma linear_bounded (o : RetryOptions) (n : Z) :
  (getLinearDelay o n <= o.(maxDelay))%Q.
Proof. unfold getLinearDelay. apply Q.le_min_r. Qed.

Lemma linear_whole (o : RetryOptions) (n : Z) :
  isWhole o.(baseDelay) → isWhole o.(maxDelay) → isWhole (getLinearDelay o n).
Proof.
  intros Hb Hm. unfold getLinearDelay.
  apply isWhole_Qmin; [now apply isWhole_mult_Z | assumption].
Qed.

(** C8 as stated fails: the fixed strategy returns a base delay above the
    maximum as it is, and the linear strategy does not floor. *)
Lemma getRetryDelay_not_always_clamped :
  let fixed := mkRetryOptions FIXED_DELAY 3 50000%Q 30000%Q 2%Q in
  let linear := mkRetryOptions LINEAR 3 (1 # 2)%Q 30000%Q 2%Q in
  ¬ (getRetryDelay fixed 0%Q 1 <= fixed.(maxDelay))%Q ∧
  ¬ isWhole (getRetryDelay linear 0%Q 1).
Proof.
  split.
  - vm_compute. intros H. apply H. reflexivity.
  - vm_compute. discriminate.
Qed.

(** C8, amended: the exponential delay is a whole number and at most the
    maximum; the linear delay is at most the maximum, and whole when base
    and maximum are; the fixed delay is at most the maximum when the base
    delay is, and whole when the base delay is; the none strategy gives 0. *)
Theorem getRetryDelay_bounds (o : RetryOptions) (rand : Q) (attemptNumber : Z) :
  let d := getRetryDelay o rand attemptNumber in
  match o.(strategy) with
  | EXPONENTIAL_BACKOFF => isWhole d ∧ (d <= o.(maxDelay))%Q
  | LINEAR =>
      (d <= o.(maxDelay))%Q ∧
      (isWhole o.(baseDelay) → isWhole o.(maxDelay) → isWhole d)
  | FIXED_DELAY =>
      ((o.(baseDelay) <= o.(maxDelay))%Q → (d <= o.(maxDelay))%Q) ∧
      (isWhole o.(baseDelay) → isWhole d)
  | NONE => (d == 0)%Q
  end.
Proof.
  unfold getRetryDelay. destruct (strategy o) eqn:E; cbv zeta.
  - apply exponential_whole_bounded.
  - split; [apply linear_bounded | apply linear_whole].
  - split; auto.
  - reflexivity.
Qed.

End RetryPolicy.

(** ** Scheduling queue: eligibility *)

Section Eligibility.

Import TransactionQueue Props.

Lemma blocks_false (t : QueuedTransaction) :
  blocks t = false ↔ t.(status) = CONFIRMED ∨ t.(status) = CANCELLED.
Proof. unfold blocks. destruct (status t); cbn; intuition discriminate. Qed.

Lemma runnable_status (t : QueuedTransaction) :
  negb (status_eqb t.(status) PENDING) && negb (status_eqb t.(status) QUEUED) = false
  ↔ t.(status) = PENDING ∨ t.(status) = QUEUED.
Proof. destruct (status t); cbn; intuition discriminate. Qed.

Lemma hasPendingDependencies_false (q : State) (i : string) :
  hasPendingDependencies q i = false ↔
  ∀ deps depId, q.(dependencyGraph) !! i = Some deps → depId ∈ deps →
                satisfied q depId.
Proof.
  unfold hasPendingDependencies, satisfied.
  destruct (dependencyGraph q !! i) as [deps|] eqn:G.
  - rewrite <- not_true_iff_false, existsb_exists. split.
    + intros Hno deps' depId [= <-] Hin depTx Hdep.
      apply blocks_false. apply not_true_iff_false. intros Hb.
      apply Hno. exists depId. split.
      * apply list_elem_of_In, elem_of_elements, Hin.
      * now rewrite Hdep.
    + intros Hall (depId & Hin & Hb).
      apply list_elem_of_In, elem_of_elements in Hin.
      destruct (queue q !! depId) as [depTx|] eqn:Hdep; [|discriminate].
      apply not_true_iff_false in Hb; [exact Hb|].
      apply blocks_false. exact (Hall deps depId eq_refl Hin depTx Hdep).
  - split; [intros _ deps depId [=] | reflexivity].
Qed.

(** What one turn of the scan of [getNext] decides at entry [i]. *)
Lemma scan_head (q : State) (i : string) (rest : list string) :
  (∃ t, eligible q i t ∧ getNextFrom q (i :: rest) = Some t) ∨
  ((∀ t, ¬ eligible q i t) ∧ getNextFrom q (i :: rest) = getNextFrom q rest).
Proof.
  cbn [getNextFrom]. destruct (queue q !! i) as [t|] eqn:Hq.
  - destruct (negb (status_eqb (status t) PENDING) &&
              negb (status_eqb (status t) QUEUED)) eqn:Hs.
    + right. split; [|reflexivity]. intros t' (Hq' & Hst & _).
      rewrite Hq in Hq'. injection Hq' as <-.
      apply runnable_status in Hst. congruence.
    + destruct (hasPendingDependencies q i) eqn:Hd.
      * right. split; [|reflexivity]. intros t' (_ & _ & Hdeps).
        apply hasPendingDependencies_false in Hdeps. congruence.
      * left. exists t. split; [|reflexivity]. split; [exact Hq|]. split.
        -- now apply runnable_status.
        -- now apply hasPendingDependencies_false.
  - right. split; [|reflexivity]. intros t' (Hq' & _). congruence.
Qed.

Lemma eligible_functional (q : State) (i : string) (t t' : QueuedTransaction) :
  eligible q i t → eligible q i t' → t = t'.
Proof. intros (H & _) (H' & _). congruence. Qed.

Lemma getNextFrom_Some (q : State) (l : list string) (t : QueuedTransaction) :
  getNextFrom q l = Some t ↔
  ∃ n i, l !! n = Some i ∧ eligible q i t ∧
         ∀ m j t', (m < n)%nat → l !! m = Some j → ¬ eligible q j t'.
Proof.
  induction l as [|i rest IH].
  - cbn. split; [discriminate|]. intros (n & j & H & _). destruct n; discriminate.
  - destruct (scan_head q i rest) as [(t0 & He & Hn) | (Hne & Hn)]; rewrite Hn.
    + split.
      * intros [= <-]. exists O, i. split; [reflexivity|]. split; [exact He|].
        intros m j t' Hm. lia.
      * intros (n & j & Hl & Hej & Hfirst). destruct n as [|n].
        -- injection Hl as <-. f_equal. eapply eligible_functional; eassumption.
        -- exfalso. apply (Hfirst O i t0); [lia | reflexivity | exact He].
    + rewrite IH. split.
      * intros (n & j & Hl & Hej & Hfirst). exists (S n), j.
        split; [exact Hl|]. split; [exact Hej|].
        intros m k t' Hm Hk. destruct m as [|m].
        -- injection Hk as <-. apply Hne.
        -- apply (Hfirst m k t'); [lia | exact Hk].
      * intros (n & j & Hl & Hej & Hfirst). destruct n as [|n].
        -- injection Hl as <-. exfalso. exact (Hne t Hej).
        -- exists n, j. split; [exact Hl|]. split; [exact Hej|].
           intros m k t' Hm Hk. apply (Hfirst (S m) k t'); [lia | exact Hk].
Qed.

Lemma getNextFrom_None (q : State) (l : list string) :
  getNextFrom q l = None ↔ ∀ i t, i ∈ l → ¬ eligible q i t.
Proof.
  induction l as [|i rest IH].
  - cbn. split; [|reflexivity]. intros _ i t Hin. inversion Hin.
  - destruct (scan_head q i rest) as [(t0 & He & Hn) | (Hne & Hn)]; rewrite Hn.
    + split; [discriminate|]. intros H. exfalso.
      apply (H i t0); [left | exact He].
    + rewrite IH. split.
      * intros H j t Hin. apply elem_of_cons in Hin as [-> | Hin];
          [apply Hne | now apply H].
      * intros H j t Hin. apply H. now right.
Qed.

(** C3: [getNext] returns the record of the first entry of the execution
    order that is eligible (status Pending or Queued, every dependency that
    is in the queue Confirmed or Cancelled; an identifier that is not in the
    queue does not block), and none when no entry is eligible.  So a
    returned record has no dependency in the queue that is neither
    Confirmed nor Cancelled. *)
Theorem getNext_first_eligible (q : State) :
  (∀ t, getNext q = Some t ↔ firstEligible q t) ∧
  (getNext q = None ↔ ∀ i t, i ∈ q.(executionOrder) → ¬ eligible q i t) ∧
  (∀ t, getNext q = Some t →
        ∃ i, i ∈ q.(executionOrder) ∧ q.(queue) !! i = Some t ∧
             (t.(status) = PENDING ∨ t.(status) = QUEUED) ∧
             ∀ deps depId depTx,
               q.(dependencyGraph) !! i = Some deps → depId ∈ deps →
               q.(queue) !! depId = Some depTx →
               depTx.(status) = CONFIRMED ∨ depTx.(status) = CANCELLED).
Proof.
  split; [|split].
  - intros t. apply getNextFrom_Some.
  - apply getNextFrom_None.
  - intros t H. apply getNextFrom_Some in H as (n & i & Hl & (Hq & Hs & Hd) & _).
    exists i. split; [eapply list_elem_of_lookup_2; exact Hl|].
    split; [exact Hq|]. split; [exact Hs|].
    intros deps depId depTx Hg Hin Hdep. exact (Hd deps depId Hg Hin depTx Hdep).
Qed.

End Eligibility.

(** ** Scheduling queue: removal, cancellation, submission *)

Section QueueOperations.

Import TransactionQueue Props.

Lemma remove_present (q : State) (i : string) (t : QueuedTransaction) :
  q.(queue) !! i = Some t →
  t.(status) ≠ EXECUTING → t.(status) ≠ CONFIRMING →
  remove i q =
    (Returned true,
     mkQueue (delete i q.(queue))
             (filter (λ txId, txId ≠ i) q.(executionOrder))
             q.(options)
             ((λ deps : gset string, deps ∖ {[i]}) <$> delete i q.(dependencyGraph))).
Proof.
  intros Hq He Hc. unfold remove. rewrite Hq.
  destruct (status t); try reflexivity; congruence.
Qed.

(** The removal guard: an in-flight record is not removed. *)
Lemma remove_in_flight (q : State) (i : string) (t : QueuedTransaction) :
  q.(queue) !! i = Some t →
  t.(status) = EXECUTING ∨ t.(status) = CONFIRMING →
  ∃ e, remove i q = (Thrown e, q).
Proof.
  intros Hq Hs. unfold remove. rewrite Hq.
  destruct Hs as [-> | ->]; cbn; eauto.
Qed.

(** After the removal of [i], another record is eligible exactly when it
    was eligible up to its dependency on [i]. *)
Lemma remove_eligible (q : State) (i j : string) (tj : QueuedTransaction) :
  j ≠ i →
  eligible (mkQueue (delete i q.(queue))
                    (filter (λ txId, txId ≠ i) q.(executionOrder))
                    q.(options)
                    ((λ deps : gset string, deps ∖ {[i]}) <$>
                       delete i q.(dependencyGraph))) j tj ↔
  q.(queue) !! j = Some tj ∧
  (tj.(status) = PENDING ∨ tj.(status) = QUEUED) ∧
  ∀ deps depId, q.(dependencyGraph) !! j = Some deps → depId ∈ deps →
                depId ≠ i → satisfied q depId.
Proof.
  intros Hj. unfold eligible, satisfied. cbn [queue dependencyGraph].
  rewrite lookup_delete_ne by done.
  split; intros (H1 & H2 & H3); (split; [exact H1|]); (split; [exact H2|]).
  - intros deps depId Hg Hin Hne depTx Hdep.
    apply (H3 (deps ∖ {[i]}) depId).
    + rewrite lookup_fmap, lookup_delete_ne by done. now rewrite Hg.
    + set_solver.
    + now rewrite lookup_delete_ne.
  - intros deps' depId Hg Hin depTx Hdep.
    rewrite lookup_fmap, lookup_delete_ne in Hg by done.
    destruct (dependencyGraph q !! j) as [deps|] eqn:Hg0; [|discriminate].
    injection Hg as <-. apply elem_of_difference in Hin as [Hin Hne].
    assert (depId ≠ i) as Hd by set_solver.
    rewrite lookup_delete_ne in Hdep by done.
    exact (H3 deps depId eq_refl Hin Hd depTx Hdep).
Qed.

(** C9: removing a record that is not in flight deletes the record, its
    entry of the execution order and its own dependency entry, and takes
    its identifier out of every other dependency set; no other record, no
    other dependency and no option changes.  Afterwards a record is blocked
    exactly by its other dependencies: the removed one no longer counts,
    whatever its status was. *)
Theorem remove_effect (q : State) (i : string) (t : QueuedTransaction) :
  q.(queue) !! i = Some t →
  t.(status) ≠ EXECUTING → t.(status) ≠ CONFIRMING →
  ∃ q', remove i q = (Returned true, q') ∧
    q'.(queue) !! i = None ∧
    (∀ j, j ≠ i → q'.(queue) !! j = q.(queue) !! j) ∧
    q'.(executionOrder) = (filter (λ txId, txId ≠ i) q.(executionOrder)) ∧
    (i ∉ q'.(executionOrder)) ∧
    q'.(dependencyGraph) !! i = None ∧
    (∀ j, j ≠ i →
          q'.(dependencyGraph) !! j =
          (λ deps : gset string, deps ∖ {[i]}) <$> q.(dependencyGraph) !! j) ∧
    q'.(options) = q.(options) ∧
    (∀ j, hasPendingDependencies q' j = true ↔
          ∃ deps depId depTx,
            j ≠ i ∧ q.(dependencyGraph) !! j = Some deps ∧
            depId ∈ deps ∧ depId ≠ i ∧
            q.(queue) !! depId = Some depTx ∧ blocks depTx = true) ∧
    (∀ j tj, j ≠ i →
          (eligible q' j tj ↔
           q.(queue) !! j = Some tj ∧
           (tj.(status) = PENDING ∨ tj.(status) = QUEUED) ∧
           ∀ deps depId, q.(dependencyGraph) !! j = Some deps → depId ∈ deps →
                         depId ≠ i → satisfied q depId)).
Proof.
  intros Hq He Hc. eexists. split; [exact (remove_present q i t Hq He Hc)|].
  cbn [queue executionOrder dependencyGraph options].
  split; [apply lookup_delete_eq|].
  split; [intros j Hj; now apply lookup_delete_ne|].
  split; [reflexivity|].
  split; [intros Hin; apply list_elem_of_filter in Hin as [Hne _]; now apply Hne|].
  split; [rewrite lookup_fmap, lookup_delete_eq; reflexivity|].
  split; [intros j Hj; rewrite lookup_fmap, lookup_delete_ne by done; reflexivity|].
  split; [reflexivity|].
  split; [|intros j tj Hj; now apply remove_eligible].
  intros j. unfold hasPendingDependencies.
  cbn [queue executionOrder dependencyGraph options].
  rewrite lookup_fmap. destruct (decide (j = i)) as [-> | Hj].
  - rewrite lookup_delete_eq. cbn. split; [discriminate|].
    intros (? & ? & ? & Hne & _). congruence.
  - rewrite lookup_delete_ne by done.
    destruct (dependencyGraph q !! j) as [deps|] eqn:Hg; cbn.
    + rewrite existsb_exists. split.
      * intros (depId & Hin & Hb).
        apply list_elem_of_In, elem_of_elements, elem_of_difference in Hin
          as [Hin Hne].
        assert (depId ≠ i) as Hd by set_solver.
        rewrite lookup_delete_ne in Hb by done.
        destruct (queue q !! depId) as [depTx|] eqn:Hdep; [|discriminate].
        exists deps, depId, depTx. repeat split; auto.
      * intros (deps' & depId & depTx & _ & [= <-] & Hin & Hd & Hdep & Hb).
        exists depId. split.
        -- apply list_elem_of_In, elem_of_elements, elem_of_difference.
           split; [exact Hin | set_solver].
        -- rewrite lookup_delete_ne by done. now rewrite Hdep.
    + split; [discriminate|]. intros (? & ? & ? & _ & [=] & _).
Qed.

Lemma remove_effect_witness :
  ∃ q', remove "a" (add 0 "g" (Scenario.transfer "b") (Scenario.dependingOn ["a"])
                      (add 0 "g" (Scenario.transfer "a") Scenario.noOptions
                         (create Scenario.defaults)).2).2
        = (Returned true, q') ∧
        q'.(queue) !! "a" = None ∧ "a" ∉ q'.(executionOrder).
Proof.
  destruct (remove_effect
              (add 0 "g" (Scenario.transfer "b") (Scenario.dependingOn ["a"])
                 (add 0 "g" (Scenario.transfer "a") Scenario.noOptions
                    (create Scenario.defaults)).2).2
              "a" (Scenario.record "a" PENDING 0))
    as (q' & Hr & Hgone & _ & _ & Hord & _).
  - vm_compute. reflexivity.
  - discriminate.
  - discriminate.
  - exists q'. split; [exact Hr|]. split; [exact Hgone | exact Hord].
Defined.

(** *** Cancellation *)

(** C5 as stated fails: a Failed record is cancelled, by the queue and by
    the engine. *)
Lemma cancel_failed_record :
  let q := Scenario.single "tx" FAILED 3 in
  status <$> q.(queue) !! "tx" = Some FAILED ∧
  (cancel "tx" q).1 = true ∧
  status <$> (cancel "tx" q).2.(queue) !! "tx" = Some CANCELLED ∧
  (TransactionExecutor.cancelTransaction "tx" (Scenario.running q)).1 = true ∧
  status <$> (TransactionExecutor.cancelTransaction "tx" (Scenario.running q)).2
               .(TransactionExecutor.queue).(queue) !! "tx" = Some CANCELLED.
Proof. vm_compute. repeat split; reflexivity. Qed.

Lemma cancel_confirmed (q : State) (i : string) (t : QueuedTransaction) :
  q.(queue) !! i = Some t → t.(status) = CONFIRMED → cancel i q = (false, q).
Proof. intros Hq Hs. unfold cancel. now rewrite Hq, Hs. Qed.

Lemma cancel_other (q : State) (i : string) (t : QueuedTransaction) :
  q.(queue) !! i = Some t → t.(status) ≠ CONFIRMED →
  cancel i q =
    (true, mkQueue (<[i := set_status CANCELLED t]> q.(queue))
                   q.(executionOrder) q.(options) q.(dependencyGraph)).
Proof.
  intros Hq Hs. unfold cancel. rewrite Hq.
  destruct (status t); try reflexivity; congruence.
Qed.

(** C5, amended: cancellation fails, and leaves the state as it is, for a
    Confirmed record; the engine also refuses a record of its in-flight
    set.  Every other record, whatever its status, becomes Cancelled. *)
Theorem cancel_guard (s : TransactionExecutor.State) (i : string)
    (t : QueuedTransaction) :
  let q := s.(TransactionExecutor.queue) in
  q.(queue) !! i = Some t →
  (t.(status) = CONFIRMED →
     cancel i q = (false, q) ∧
     TransactionExecutor.cancelTransaction i s = (false, s)) ∧
  (i ∈ s.(TransactionExecutor.currentlyExecuting) →
     TransactionExecutor.cancelTransaction i s = (false, s)) ∧
  (t.(status) ≠ CONFIRMED →
     (cancel i q).1 = true ∧
     (cancel i q).2.(queue) !! i = Some (set_status CANCELLED t) ∧
     (i ∉ s.(TransactionExecutor.currentlyExecuting) →
        let r := TransactionExecutor.cancelTransaction i s in
        r.1 = true ∧
        r.2.(TransactionExecutor.queue).(queue) !! i
          = Some (set_status CANCELLED t) ∧
        r.2.(TransactionExecutor.emitted)
          = s.(TransactionExecutor.emitted) ++ [TransactionCancelled t.(id)])).
Proof.
  intros q Hq. subst q. split; [|split].
  - intros Hs. split; [now apply (cancel_confirmed _ _ t)|].
    unfold TransactionExecutor.cancelTransaction, get. rewrite Hq.
    case_bool_decide; [reflexivity|].
    rewrite (cancel_confirmed _ _ t Hq Hs). now destruct s.
  - intros Hin. unfold TransactionExecutor.cancelTransaction, get. rewrite Hq.
    now rewrite bool_decide_eq_true_2.
  - intros Hs. rewrite (cancel_other _ _ t Hq Hs). cbn [fst snd queue].
    split; [reflexivity|]. split; [apply lookup_insert_eq|].
    intros Hnot. unfold TransactionExecutor.cancelTransaction, get. rewrite Hq.
    rewrite bool_decide_eq_false_2 by done.
    rewrite (cancel_other _ _ t Hq Hs). cbn.
    split; [reflexivity|]. split; [apply lookup_insert_eq | reflexivity].
Qed.

Lemma cancel_guard_witness :
  cancel "tx" (Scenario.single "tx" CONFIRMED 0)
    = (false, Scenario.single "tx" CONFIRMED 0).
Proof.
  refine (proj1 (proj1 (cancel_guard
            (Scenario.running (Scenario.single "tx" CONFIRMED 0)) "tx"
            (Scenario.record "tx" CONFIRMED 0) _) _)).
  - vm_compute. reflexivity.
  - reflexivity.
Defined.

(** *** Submission *)

(** C2 as stated fails: [add] accepts an identifier that is already in the
    queue, returns it, and the queue is not what it was. *)
Lemma add_accepts_duplicate :
  let q := Scenario.oneEnqueued in
  let r := add 1 "tx_generated" (Scenario.transfer "tx") Scenario.noOptions q in
  is_Some (q.(queue) !! "tx") ∧
  r.1 = "tx" ∧
  q.(executionOrder) = ["tx"] ∧
  r.2.(executionOrder) = ["tx"; "tx"] ∧
  r.2.(queue) ≠ q.(queue).
Proof.
  cbv zeta. split; [vm_compute; eauto|].
  split; [vm_compute; reflexivity|].
  split; [vm_compute; reflexivity|].
  split; [vm_compute; reflexivity|].
  intros H. apply (f_equal (λ m, createdAt <$> m !! "tx")) in H.
  vm_compute in H. discriminate.
Qed.

Lemma add_returns_supplied (now : Z) (g : string) (c : TransactionConfig)
    (o : AddOptions) (q : State) (i : string) :
  c.(cid) = Some i → i ≠ "" → (add now g c o q).1 = i.
Proof.
  intros Hc Hi. unfold add. cbn [fst]. rewrite Hc.
  destruct i; [congruence | reflexivity].
Qed.

(** C2, amended: an identifier that is already in the queue is reported by
    the pre-flight validator, which marks the intent invalid with an error
    naming the identifier and is a pure query of the queue; [add] makes no
    such check and returns the supplied identifier. *)
Theorem duplicate_reported_by_validator (q : State) (c : TransactionConfig)
    (i : string) :
  c.(cid) = Some i → i ≠ "" → is_Some (q.(queue) !! i) →
  (validateTransaction c q).(isValid) = false ∧
  ("Transaction with ID " +:+ i +:+ " already exists")
    ∈ (validateTransaction c q).(errors) ∧
  ∀ now g o, (add now g c o q).1 = i.
Proof.
  intros Hc Hi Hin.
  assert (truthyS (Some i) = true) as Ht by (destruct i; [congruence | reflexivity]).
  split; [|split].
  - unfold validateTransaction. cbn [isValid]. rewrite Hc, Ht.
    rewrite bool_decide_eq_true_2 by done. cbn [andb].
    destruct (truthyS (to c)); reflexivity.
  - unfold validateTransaction. cbn [errors]. rewrite Hc, Ht.
    rewrite bool_decide_eq_true_2 by done. cbn [andb].
    apply elem_of_app. right. left.
  - intros now g o. now apply add_returns_supplied.
Qed.

Lemma duplicate_reported_by_validator_witness :
  (validateTransaction (Scenario.transfer "tx") Scenario.oneEnqueued).(isValid)
    = false.
Proof.
  refine (proj1 (duplicate_reported_by_validator Scenario.oneEnqueued
                   (Scenario.transfer "tx") "tx" _ _ _)).
  - reflexivity.
  - discriminate.
  - vm_compute. eauto.
Defined.

End QueueOperations.

(** ** Scheduling queue: the execution order *)

Section ExecutionOrder.

Import TransactionQueue Props.

Lemma insertIndexFrom_shift (m : gmap string QueuedTransaction) (p : Z)
    (l : list string) (k : nat) :
  insertIndexFrom m p l k = (k + insertIndexFrom m p l 0)%nat.
Proof.
  revert k. induction l as [|x rest IH]; intros k; cbn [insertIndexFrom].
  - lia.
  - rewrite (IH (S k)), (IH 1%nat).
    destruct (m !! x) as [tx|]; [destruct (priority tx <? p)|]; lia.
Qed.

Lemma insert_nil (m : gmap string QueuedTransaction) (i : string) (p : Z) :
  insertIntoExecutionOrder m i p [] = [i].
Proof. reflexivity. Qed.

Lemma insert_cons_below (m : gmap string QueuedTransaction) (i : string) (p : Z)
    (x : string) (rest : list string) (tx : QueuedTransaction) :
  m !! x = Some tx → tx.(priority) < p →
  insertIntoExecutionOrder m i p (x :: rest) = i :: x :: rest.
Proof.
  intros Hx Hp. unfold insertIntoExecutionOrder. cbn [insertIndexFrom].
  rewrite Hx. destruct (Z.ltb_spec (priority tx) p); [reflexivity | lia].
Qed.

Lemma insert_cons_skip (m : gmap string QueuedTransaction) (i : string) (p : Z)
    (x : string) (rest : list string) :
  (∀ tx, m !! x = Some tx → p <= tx.(priority)) →
  insertIntoExecutionOrder m i p (x :: rest)
  = x :: insertIntoExecutionOrder m i p rest.
Proof.
  intros Hx. unfold insertIntoExecutionOrder. cbn [insertIndexFrom].
  assert (insertIndexFrom m p rest 1 = S (insertIndexFrom m p rest 0)) as E
    by (rewrite insertIndexFrom_shift; reflexivity).
  destruct (m !! x) as [tx|] eqn:Hm.
  - specialize (Hx tx eq_refl).
    destruct (Z.ltb_spec (priority tx) p); [lia|]. now rewrite E.
  - now rewrite E.
Qed.

Lemma elem_of_insert (m : gmap string QueuedTransaction) (i : string) (p : Z)
    (l : list string) (a : string) :
  a ∈ insertIntoExecutionOrder m i p l ↔ a = i ∨ a ∈ l.
Proof.
  unfold insertIntoExecutionOrder, splice0.
  set (n := insertIndexFrom m p l 0).
  rewrite elem_of_app, elem_of_cons.
  assert (a ∈ l ↔ a ∈ take n l ∨ a ∈ drop n l) as ->
    by (rewrite <- elem_of_app, take_drop; reflexivity).
  tauto.
Qed.

Lemma goesBefore_intro (q : State) (arr : gmap string nat) (a b : string)
    (ta tb : QueuedTransaction) (na nb : nat) :
  q.(queue) !! a = Some ta → q.(queue) !! b = Some tb →
  arr !! a = Some na → arr !! b = Some nb →
  ta.(priority) > tb.(priority) ∨
  (ta.(priority) = tb.(priority) ∧ (na < nb)%nat) →
  goesBefore q arr a b.
Proof. intros. exists ta, tb, na, nb. auto. Qed.

(** A change of the record and of the arrival of [i] alone does not
    disturb the order among the other identifiers. *)
Lemma goesBefore_frame (q q' : State) (arr arr' : gmap string nat)
    (i a b : string) :
  (∀ c, c ≠ i → q'.(queue) !! c = q.(queue) !! c) →
  (∀ c, c ≠ i → arr' !! c = arr !! c) →
  a ≠ i → b ≠ i → goesBefore q arr a b → goesBefore q' arr' a b.
Proof.
  intros Hq Harr Ha Hb (ta & tb & na & nb & H1 & H2 & H3 & H4 & H5).
  exists ta, tb, na, nb. rewrite !Hq, !Harr by assumption. auto.
Qed.

Lemma StronglySorted_frame (q q' : State) (arr arr' : gmap string nat)
    (i : string) (l : list string) :
  (∀ c, c ≠ i → q'.(queue) !! c = q.(queue) !! c) →
  (∀ c, c ≠ i → arr' !! c = arr !! c) →
  i ∉ l →
  StronglySorted (goesBefore q arr) l → StronglySorted (goesBefore q' arr') l.
Proof.
  intros Hq Harr. induction l as [|x rest IH]; intros Hi Hs.
  - constructor.
  - apply StronglySorted_cons in Hs as [Hall Hs].
    apply not_elem_of_cons in Hi as [Hix Hi].
    apply StronglySorted_cons. split; [|now apply IH].
    rewrite Forall_forall in Hall |- *. intros y Hy.
    eapply goesBefore_frame; eauto. intros ->. contradiction.
Qed.

(** Stable insertion: putting [i], with priority [p] and the latest
    arrival [k], into a sorted order gives a sorted order. *)
Lemma insert_sorted (q q' : State) (arr arr' : gmap string nat) (i : string)
    (t' : QueuedTransaction) (k : nat) (l : list string) :
  q'.(queue) !! i = Some t' →
  (∀ c, c ≠ i → q'.(queue) !! c = q.(queue) !! c) →
  arr' !! i = Some k →
  (∀ c, c ≠ i → arr' !! c = arr !! c) →
  i ∉ l →
  (∀ a, a ∈ l → ∃ ta na, q.(queue) !! a = Some ta ∧ arr !! a = Some na ∧ (na < k)%nat) →
  StronglySorted (goesBefore q arr) l →
  StronglySorted (goesBefore q' arr')
    (insertIntoExecutionOrder q'.(queue) i t'.(priority) l).
Proof.
  intros Hi Hq Hk Harr. induction l as [|x rest IH]; intros Hnot Hmem Hs.
  - rewrite insert_nil. repeat constructor.
  - apply not_elem_of_cons in Hnot as [Hix Hnot].
    destruct (Hmem x) as (tx & nx & Hx & Hax & Hnx); [left|].
    assert (q'.(queue) !! x = Some tx) as Hx' by (rewrite Hq; auto).
    assert (StronglySorted (goesBefore q' arr') (x :: rest)) as Hs'
      by (eapply StronglySorted_frame; eauto; apply not_elem_of_cons; auto).
    pose proof Hs as Hs0.
    apply StronglySorted_cons in Hs0 as [Hall Hrest].
    rewrite Forall_forall in Hall.
    destruct (Z.lt_ge_cases (priority tx) (priority t')) as [Hlt | Hge].
    + rewrite (insert_cons_below _ _ _ _ _ tx Hx' Hlt).
      apply StronglySorted_cons. split; [|exact Hs'].
      rewrite Forall_forall. intros y Hy.
      apply elem_of_cons in Hy as [-> | Hy].
      * apply (goesBefore_intro _ _ _ _ t' tx k nx); auto.
        -- rewrite Harr; auto.
        -- left. lia.
      * destruct (Hall y Hy) as (ta & tb & na & nb & H1 & H2 & H3 & H4 & H5).
        assert (y ≠ i) as Hyi by (intros ->; contradiction).
        rewrite Hx in H1. injection H1 as <-.
        apply (goesBefore_intro _ _ _ _ t' tb k nb); auto.
        -- rewrite Hq; auto.
        -- rewrite Harr; auto.
        -- left. lia.
    + rewrite insert_cons_skip
        by (intros tx0 Hx0; rewrite Hx' in Hx0; injection Hx0 as <-; exact Hge).
      apply StronglySorted_cons. split.
      * rewrite Forall_forall. intros y Hy.
        apply elem_of_insert in Hy as [-> | Hy].
        -- apply (goesBefore_intro _ _ _ _ tx t' nx k); auto.
           ++ rewrite Harr; auto.
           ++ lia.
        -- apply StronglySorted_cons in Hs' as [Hall' _].
           rewrite Forall_forall in Hall'. auto.
      * apply IH; auto. intros a Ha. apply Hmem. now right.
Qed.

Lemma StronglySorted_filter_ne (R : string → string → Prop) (i : string)
    (l : list string) :
  StronglySorted R l → StronglySorted R (filter (λ txId, txId ≠ i) l).
Proof.
  induction l as [|x rest IH]; intros Hs; [constructor|].
  apply StronglySorted_cons in Hs as [Hall Hs].
  rewrite filter_cons. case_decide.
  - apply StronglySorted_cons. split; [|auto].
    rewrite Forall_forall in Hall |- *. intros y Hy.
    apply list_elem_of_filter in Hy as [_ Hy]. auto.
  - auto.
Qed.

Lemma orderedUpTo_weaken (k : nat) (q : State) (arr : gmap string nat) :
  orderedUpTo k q arr → orderedUpTo (S k) q arr.
Proof.
  intros [Hs Hm]. split; [exact Hs|]. intros a Ha.
  destruct (Hm a Ha) as (ta & na & ? & ? & ?). exists ta, na. auto with lia.
Qed.

Lemma add_ordered (k : nat) (q : State) (arr : gmap string nat)
    (now : Z) (g : string) (c : TransactionConfig) (o : AddOptions) :
  orderedUpTo k q arr →
  q.(queue) !! (add now g c o q).1 = None →
  orderedUpTo (S k) (add now g c o q).2 (<[(add now g c o q).1 := k]> arr).
Proof.
  intros [Hs Hm] Hfresh. unfold add in *. cbn [fst snd] in *.
  set (i := if truthyS (cid c) then default g (cid c) else g) in *.
  set (t' := mkTx i _ _ _ _ _ _ _ _ _ _ _ _ _) in *.
  assert (i ∉ executionOrder q) as Hnot.
  { intros Hin. destruct (Hm i Hin) as (ta & _ & Hq & _). congruence. }
  split; cbn [executionOrder queue].
  - change (orZ (o_priority o) 0) with (priority t').
    match goal with
    | |- StronglySorted (goesBefore ?q' ?arr') _ =>
        apply (insert_sorted q q' arr arr' i t' k); cbn [queue]; auto
    end.
    + apply lookup_insert_eq.
    + intros c0 Hc. now apply lookup_insert_ne.
    + apply lookup_insert_eq.
    + intros c0 Hc. now apply lookup_insert_ne.
  - intros a Ha. apply elem_of_insert in Ha as [-> | Ha].
    + exists t', k. rewrite !lookup_insert_eq. auto with lia.
    + destruct (Hm a Ha) as (ta & na & H1 & H2 & H3).
      assert (a ≠ i) as Hne by (intros ->; contradiction).
      exists ta, na. rewrite !lookup_insert_ne by auto. auto with lia.
Qed.

Lemma reorder_ordered (k : nat) (q : State) (arr : gmap string nat)
    (i : string) (p : Z) (t : QueuedTransaction) :
  orderedUpTo k q arr →
  q.(queue) !! i = Some t →
  (reorder i p q).1 = true ∧
  orderedUpTo (S k) (reorder i p q).2 (<[i := k]> arr).
Proof.
  intros [Hs Hm] Hq. unfold reorder. rewrite Hq. cbn [fst snd].
  split; [reflexivity|].
  assert (i ∉ filter (λ txId, txId ≠ i) (executionOrder q)) as Hnot.
  { intros Hin. apply list_elem_of_filter in Hin as [Hne _]. now apply Hne. }
  split; cbn [executionOrder queue].
  - change p with (priority (set_priority p t)) at 2.
    match goal with
    | |- StronglySorted (goesBefore ?q' ?arr') _ =>
        apply (insert_sorted q q' arr arr' i (set_priority p t) k);
        cbn [queue]; auto
    end.
    + apply lookup_insert_eq.
    + intros c0 Hc. now apply lookup_insert_ne.
    + apply lookup_insert_eq.
    + intros c0 Hc. now apply lookup_insert_ne.
    + intros a Ha. apply list_elem_of_filter in Ha as [_ Ha]. auto.
    + now apply StronglySorted_filter_ne.
  - intros a Ha. apply elem_of_insert in Ha as [-> | Ha].
    + exists (set_priority p t), k. rewrite !lookup_insert_eq. auto with lia.
    + apply list_elem_of_filter in Ha as [Hne Ha].
      destruct (Hm a Ha) as (ta & na & H1 & H2 & H3).
      exists ta, na. rewrite !lookup_insert_ne by auto. auto with lia.
Qed.

Lemma reorder_absent (q : State) (i : string) (p : Z) :
  q.(queue) !! i = None → reorder i p q = (false, q).
Proof. intros Hq. unfold reorder. now rewrite Hq. Qed.

Lemma runOps_ordered (ops : list QueueOp) :
  ∀ k q arr, orderedUpTo k q arr → freshAdds ops q →
             orderedUpTo (k + length ops) (runOps ops q) (arrivals ops k q arr).
Proof.
  induction ops as [|op ops IH]; intros k q arr Hinv Hfresh.
  - cbn. now rewrite Nat.add_0_r.
  - cbn [length runOps fold_left arrivals]. destruct Hfresh as [Hop Hfresh].
    replace (k + S (length ops))%nat with (S k + length ops)%nat by lia.
    apply IH; [|exact Hfresh].
    destruct op as [now g c o | i p]; cbn [applyOp inserted].
    + now apply add_ordered.
    + destruct (queue q !! i) as [t|] eqn:Hq.
      * destruct (reorder_ordered k q arr i p t Hinv Hq) as [-> H]. exact H.
      * rewrite (reorder_absent q i p Hq). cbn [fst snd].
        now apply orderedUpTo_weaken.
Qed.

Lemma StronglySorted_lookup (R : string → string → Prop) (l : list string) :
  StronglySorted R l →
  ∀ n m a b, (n < m)%nat → l !! n = Some a → l !! m = Some b → R a b.
Proof.
  induction l as [|x rest IH]; intros Hs n m a b Hnm Ha Hb.
  - destruct n; discriminate.
  - apply StronglySorted_cons in Hs as [Hall Hs].
    destruct m as [|m]; [lia|]. cbn in Hb. destruct n as [|n].
    + injection Ha as <-. rewrite Forall_forall in Hall.
      apply Hall. eapply list_elem_of_lookup_2; eauto.
    + cbn in Ha. apply (IH Hs n m); auto with lia.
Qed.

(** C6 as stated fails: an [add] that reuses an identifier leaves the old
    entry in the execution order, now with the new priority. *)
Lemma duplicate_add_breaks_order :
  let ops := [ OpAdd 0 "g" (Scenario.transfer "A") (Scenario.withPriority 10);
               OpAdd 0 "g" (Scenario.transfer "B") (Scenario.withPriority 5);
               OpAdd 0 "g" (Scenario.transfer "A") (Scenario.withPriority 0) ] in
  let q := runOps ops (create Scenario.defaults) in
  q.(executionOrder) = ["A"; "B"; "A"] ∧
  priority <$> q.(queue) !! "A" = Some 0 ∧
  priority <$> q.(queue) !! "B" = Some 5 ∧
  ¬ sortedStable q (arrivals ops 0 (create Scenario.defaults) ∅).
Proof.
  cbv zeta. split; [vm_compute; reflexivity|].
  split; [vm_compute; reflexivity|]. split; [vm_compute; reflexivity|].
  intros H.
  destruct (H 0%nat 1%nat "A" "B") as (ta & tb & na & nb & Ha & Hb & _ & _ & Hp);
    [lia | vm_compute; reflexivity | vm_compute; reflexivity |].
  vm_compute in Ha. vm_compute in Hb.
  injection Ha as <-. injection Hb as <-. cbn in Hp. lia.
Qed.

(** C6, amended: after every sequence of [add] and [reorder] calls on a new
    queue in which no [add] reuses an identifier that is in the queue, the
    execution order is sorted: of two entries the earlier one has the
    higher priority, or the same priority and the earlier arrival. *)
Theorem executionOrder_sorted_stable (o : TransactionQueueOptions)
    (ops : list QueueOp) :
  freshAdds ops (create o) →
  sortedStable (runOps ops (create o)) (arrivals ops 0 (create o) ∅).
Proof.
  intros Hfresh.
  destruct (runOps_ordered ops 0 (create o) ∅) as [Hs _]; [|exact Hfresh|].
  - split; [constructor|]. intros a Ha. inversion Ha.
  - intros n m a b Hnm Ha Hb. eapply StronglySorted_lookup; eauto.
Qed.

Lemma executionOrder_sorted_stable_witness :
  sortedStable
    (runOps [ OpAdd 0 "g" (Scenario.transfer "low") (Scenario.withPriority 1);
              OpAdd 0 "g" (Scenario.transfer "high") (Scenario.withPriority 10);
              OpReorder "low" 10 ]
       (create Scenario.defaults))
    (arrivals [ OpAdd 0 "g" (Scenario.transfer "low") (Scenario.withPriority 1);
                OpAdd 0 "g" (Scenario.transfer "high") (Scenario.withPriority 10);
                OpReorder "low" 10 ]
       0 (create Scenario.defaults) ∅).
Proof.
  apply executionOrder_sorted_stable.
  cbn [freshAdds]. repeat split; vm_compute; reflexivity.
Defined.

End ExecutionOrder.

(** ** Execution engine *)

Section Engine.

Import TransactionQueue TransactionExecutor Props.

(** *** Preparation *)

Lemma prepareGas_returns (w : World) (c : TransactionConfig) (s : State) :
  (∀ c0, ∃ g, w.(provider).(estimateGas) c0 = Returned g) →
  (∃ gp, w.(provider).(getGasPrice) = Returned gp) →
  ∃ c', (do c2 <- prepareGasLimit w c; prepareGasPrice w c2) s
        = (Returned c', s) ∧
        c'.(nonce) = c.(nonce).
Proof.
  intros Hg [gp Hp]. unfold bind, prepareGasLimit, prepareGasPrice, await, ret.
  destruct (negb (truthyZ (gasLimit c))) eqn:E1; cbn.
  - destruct (Hg c) as [g ->]. cbn.
    destruct (negb (truthyZ (gasPrice c)) && negb (truthyZ (maxFeePerGas c)));
      [rewrite Hp|]; cbn; eauto.
  - destruct (negb (truthyZ (gasPrice c)) && negb (truthyZ (maxFeePerGas c)));
      [rewrite Hp|]; cbn; eauto.
Qed.

Lemma prepareTransaction_steps (w : World) (t : QueuedTransaction) (s : State) :
  prepareTransaction w t s =
  match prepareNonce w t.(config) s with
  | (Returned c1, s1) => (do c2 <- prepareGasLimit w c1; prepareGasPrice w c2) s1
  | (Thrown e, s1) => (Thrown e, s1)
  end.
Proof. reflexivity. Qed.

Lemma prepareNonce_explicit (w : World) (c : TransactionConfig) (s : State) (k : Z) :
  c.(nonce) = Some k → k ≠ 0 → prepareNonce w c s = (Returned c, s).
Proof.
  intros Hn Hk. unfold prepareNonce, bind, read. rewrite Hn. cbn [truthyZ].
  destruct (Z.eqb_spec k 0) as [|_]; [contradiction|].
  now rewrite andb_false_r.
Qed.

Lemma prepareNonce_managed (w : World) (c : TransactionConfig) (s : State)
    (count : Z) :
  s.(options).(nonceManager) = true →
  truthyZ c.(nonce) = false →
  w.(provider).(getTransactionCount) getAccount = Returned count →
  let n := Z.max count (orZ (s.(nonceTracker) !! getAccount) count) in
  prepareNonce w c s
  = (Returned (with_nonce n c),
     set_nonceTracker (<[getAccount := n + 1]> s.(nonceTracker)) s).
Proof.
  intros Hm Hn Hc n. unfold prepareNonce, bind, read, await, update, ret.
  rewrite Hm, Hn, Hc. reflexivity.
Qed.

(** An explicit nonce other than 0 is kept, and the ledger is not touched. *)
Lemma prepareTransaction_nonce_kept (w : World) (s : State)
    (t : QueuedTransaction) (k : Z) :
  t.(config).(nonce) = Some k → k ≠ 0 →
  (∀ c0, ∃ g, w.(provider).(estimateGas) c0 = Returned g) →
  (∃ gp, w.(provider).(getGasPrice) = Returned gp) →
  ∃ c', prepareTransaction w t s = (Returned c', s) ∧ c'.(nonce) = Some k.
Proof.
  intros Hn Hk Hg Hp.
  rewrite prepareTransaction_steps, (prepareNonce_explicit w _ s k Hn Hk).
  destruct (prepareGas_returns w (config t) s Hg Hp) as (c' & -> & Hc').
  exists c'. split; [reflexivity | congruence].
Qed.

(** C10: with automatic nonce management, an intent whose nonce field is 0
    is prepared like one without a nonce: the nonce becomes the larger of
    the provider's pending count and the ledger's entry for the account
    (the count itself when the ledger has no entry, or the entry 0), and
    the ledger is set to that nonce plus one. *)
Theorem prepareTransaction_nonce_zero (w : World) (s : State)
    (t : QueuedTransaction) (count : Z) :
  s.(options).(nonceManager) = true →
  t.(config).(nonce) = Some 0 →
  w.(provider).(getTransactionCount) getAccount = Returned count →
  (∀ c0, ∃ g, w.(provider).(estimateGas) c0 = Returned g) →
  (∃ gp, w.(provider).(getGasPrice) = Returned gp) →
  let tracked := s.(nonceTracker) !! getAccount in
  let n := Z.max count (orZ tracked count) in
  (∃ c', prepareTransaction w t s
         = (Returned c', set_nonceTracker (<[getAccount := n + 1]> s.(nonceTracker)) s) ∧
         c'.(nonce) = Some n) ∧
  (tracked = None → n = count) ∧
  (∀ k, tracked = Some k → k ≠ 0 → n = Z.max count k).
Proof.
  intros Hm Hn Hc Hg Hp tracked n. split; [|split].
  - rewrite prepareTransaction_steps.
    rewrite (prepareNonce_managed w _ s count Hm) by (rewrite ?Hn; auto).
    fold tracked. fold n.
    destruct (prepareGas_returns w (with_nonce n (config t))
                (set_nonceTracker (<[getAccount := n + 1]> (nonceTracker s)) s)
                Hg Hp) as (c' & -> & Hc').
    exists c'. split; [reflexivity | exact Hc'].
  - intros Ht. subst n. rewrite Ht. cbn. lia.
  - intros k Ht Hk. subst n. rewrite Ht. cbn.
    destruct (Z.eqb_spec k 0); [contradiction | reflexivity].
Qed.

Lemma prepareTransaction_nonce_zero_witness :
  ∃ c', prepareTransaction
          (mkWorld (Scenario.answering 7) 0 0%Q)
          (mkTx "tx" (with_nonce 0 (Scenario.transfer "tx")) PENDING 0 [] 0 3 0
                None None None None None None)
          (Scenario.running Scenario.oneEnqueued)
        = (Returned c',
           set_nonceTracker (<[getAccount := 8]> ∅)
             (Scenario.running Scenario.oneEnqueued)) ∧
        c'.(nonce) = Some 7.
Proof.
  exact (proj1 (prepareTransaction_nonce_zero
                  (mkWorld (Scenario.answering 7) 0 0%Q)
                  (Scenario.running Scenario.oneEnqueued)
                  (mkTx "tx" (with_nonce 0 (Scenario.transfer "tx")) PENDING 0 []
                        0 3 0 None None None None None None)
                  7 eq_refl eq_refl eq_refl
                  (λ _, ex_intro _ 21000 eq_refl)
                  (ex_intro _ 1000000000 eq_refl))).
Defined.

(** *** Failure handling *)

Lemma updateStatus_present (w : World) (s : State) (i : string)
    (st : TransactionStatus) (t : QueuedTransaction) :
  s.(queue).(TransactionQueue.queue) !! i = Some t →
  (updateStatus w i st s).(queue).(TransactionQueue.queue)
  = <[i := stamp w.(now) st (set_status st t)]> s.(queue).(TransactionQueue.queue).
Proof.
  intros Hq. unfold updateStatus, TransactionQueue.updateStatus.
  rewrite Hq. reflexivity.
Qed.

(** What the retry branch of the failure handler leaves behind: the status
    is Pending again, the notification carries the counter plus one, and
    the stored record has the counter it had. *)
Lemma handleTransactionError_retry (w : World) (s : State) (i : string)
    (err : Error) (t : QueuedTransaction) :
  s.(queue).(TransactionQueue.queue) !! i = Some t →
  t.(id) = i →
  RetryManager.shouldRetry t err = true →
  let s' := handleTransactionError w i err s in
  s'.(queue).(TransactionQueue.queue) !! i = Some (set_status PENDING t) ∧
  retryCount (set_status PENDING t) = t.(retryCount) ∧
  s'.(emitted) = s.(emitted) ++ [TransactionRetry i (t.(retryCount) + 1)].
Proof.
  intros Hq Hid Hr. cbv zeta. unfold handleTransactionError, get.
  rewrite Hq, Hr. cbn [id RetryManager.incrementRetryCount set_retryCount retryCount].
  rewrite Hid.
  destruct (Str.includes (Str.toLowerCase err) "nonce");
    cbn [queue set_nonceTracker emit emitted];
    rewrite (updateStatus_present w s i PENDING t Hq), lookup_insert_eq;
    (split; [reflexivity|]); (split; [reflexivity|]);
    unfold updateStatus; reflexivity.
Qed.

(** The terminal branch: the record becomes Failed, with the error. *)
Lemma handleTransactionError_terminal (w : World) (s : State) (i : string)
    (err : Error) (t : QueuedTransaction) :
  s.(queue).(TransactionQueue.queue) !! i = Some t →
  t.(id) = i →
  RetryManager.shouldRetry t err = false →
  let s' := handleTransactionError w i err s in
  s'.(queue).(TransactionQueue.queue) !! i
    = Some (set_status FAILED (set_error err t)) ∧
  s'.(emitted) = s.(emitted) ++ [TransactionFailed i err].
Proof.
  intros Hq Hid Hr. cbv zeta. unfold handleTransactionError, get.
  rewrite Hq, Hr, Hid.
  assert ((modifyRecord i (set_error err) s).(queue).(TransactionQueue.queue) !! i
          = Some (set_error err t)) as Hm.
  { unfold modifyRecord. cbn. now rewrite lookup_alter_eq, Hq. }
  cbn [emit queue emitted].
  rewrite (updateStatus_present w _ i FAILED _ Hm), lookup_insert_eq.
  split; reflexivity.
Qed.

Lemma running_oneEnqueued :
  Scenario.running Scenario.oneEnqueued = Scenario.retrying None ∅ [].
Proof. vm_compute. reflexivity. Qed.

(** One turn of the loop on the one record, with a provider that fails with
    a network error: the state has the same shape, with the notifications
    queued, started and retry (attempt 1) added. *)
Lemma processStep_retrying (ea : option Z) (nt : gmap Address Z) (ev : list Event) :
  processStep (Scenario.alwaysFailing "Network error" O) (Scenario.retrying ea nt ev)
  = Scenario.retrying (Some 0)
      (<[getAccount := Z.max 7 (orZ (nt !! getAccount) 7) + 1]> nt)
      (((ev ++ [TransactionQueued "tx"]) ++ [TransactionStarted "tx"])
         ++ [TransactionRetry "tx" 1]).
Proof. vm_compute. reflexivity. Qed.

Lemma countRetry_app (i : string) (a b : list Event) :
  countRetry i (a ++ b) = (countRetry i a + countRetry i b)%nat.
Proof. unfold countRetry. now rewrite List.filter_app, length_app. Qed.

Lemma countFailed_app (i : string) (a b : list Event) :
  countFailed i (a ++ b) = (countFailed i a + countFailed i b)%nat.
Proof. unfold countFailed. now rewrite List.filter_app, length_app. Qed.

Lemma processQueue_turn (n : nat) (ws : nat → World) (s : State) :
  s.(isRunning) = true →
  processQueue (S n) ws s = processQueue n (λ k, ws (S k)) (processStep (ws O) s).
Proof. intros H. cbn [processQueue]. now rewrite H. Qed.

Lemma retrying_isRunning (ea : option Z) (nt : gmap Address Z) (ev : list Event) :
  (Scenario.retrying ea nt ev).(isRunning) = true.
Proof. reflexivity. Qed.

Lemma retrying_lookup (ea : option Z) (nt : gmap Address Z) (ev : list Event) :
  (Scenario.retrying ea nt ev).(queue).(TransactionQueue.queue) !! "tx"
  = Some (Scenario.retryingRecord ea).
Proof. vm_compute. reflexivity. Qed.

Lemma retrying_emitted (ea : option Z) (nt : gmap Address Z) (ev : list Event) :
  (Scenario.retrying ea nt ev).(emitted) = ev.
Proof. reflexivity. Qed.

Lemma count_turn (ev : list Event) :
  countRetry "tx" (((ev ++ [TransactionQueued "tx"]) ++ [TransactionStarted "tx"])
                     ++ [TransactionRetry "tx" 1]) = S (countRetry "tx" ev) ∧
  countFailed "tx" (((ev ++ [TransactionQueued "tx"]) ++ [TransactionStarted "tx"])
                      ++ [TransactionRetry "tx" 1]) = countFailed "tx" ev.
Proof.
  rewrite !countRetry_app, !countFailed_app.
  assert (countRetry "tx" [TransactionQueued "tx"] = 0%nat) as -> by reflexivity.
  assert (countRetry "tx" [TransactionStarted "tx"] = 0%nat) as -> by reflexivity.
  assert (countRetry "tx" [TransactionRetry "tx" 1] = 1%nat) as ->
    by (vm_compute; reflexivity).
  assert (countFailed "tx" [TransactionQueued "tx"] = 0%nat) as -> by reflexivity.
  assert (countFailed "tx" [TransactionStarted "tx"] = 0%nat) as -> by reflexivity.
  assert (countFailed "tx" [TransactionRetry "tx" 1] = 0%nat) as -> by reflexivity.
  split; lia.
Qed.

Lemma processQueue_retrying (n : nat) :
  ∀ ws ea nt ev,
    (∀ k, ws k = Scenario.alwaysFailing "Network error" O) →
    ∃ ea' nt' ev',
      processQueue n ws (Scenario.retrying ea nt ev) = Scenario.retrying ea' nt' ev' ∧
      countRetry "tx" ev' = (countRetry "tx" ev + n)%nat ∧
      countFailed "tx" ev' = countFailed "tx" ev.
Proof.
  induction n as [|n IH]; intros ws ea nt ev Hws.
  - exists ea, nt, ev. split; [|split]; [|lia|reflexivity].
    unfold processQueue. now rewrite retrying_isRunning.
  - rewrite processQueue_turn by apply retrying_isRunning.
    rewrite (Hws O), processStep_retrying.
    destruct (IH (λ k, ws (S k)) (Some 0)
                (<[getAccount := Z.max 7 (orZ (nt !! getAccount) 7) + 1]> nt)
                (((ev ++ [TransactionQueued "tx"]) ++ [TransactionStarted "tx"])
                   ++ [TransactionRetry "tx" 1]))
      as (ea' & nt' & ev' & Hrun & Hr & Hf).
    { intros k. apply Hws. }
    exists ea', nt', ev'. split; [exact Hrun|].
    destruct (count_turn ev) as [Hr1 Hf1].
    rewrite Hr, Hf, Hr1, Hf1. split; [lia | reflexivity].
Qed.

(** C1 (the code on the scenario of the claim): one record with retry
    ceiling 3 and a provider that always fails with a retryable error.
    After any number [n] of turns of the loop the record is Pending, its
    stored retry counter is still 0, [n] retry notifications have been
    emitted and no failed one: it is never Failed, and from the fourth
    turn on the retries exceed the ceiling. *)
Theorem retry_ceiling_not_enforced (n : nat) :
  let s := processQueue n (Scenario.alwaysFailing "Network error")
             (Scenario.running Scenario.oneEnqueued) in
  ∃ t, s.(queue).(TransactionQueue.queue) !! "tx" = Some t ∧
       t.(status) = PENDING ∧ t.(retryCount) = 0 ∧ t.(maxRetries) = 3 ∧
       countRetry "tx" s.(emitted) = n ∧
       countFailed "tx" s.(emitted) = 0%nat.
Proof.
  cbv zeta. rewrite running_oneEnqueued.
  destruct (processQueue_retrying n (Scenario.alwaysFailing "Network error")
              None ∅ []) as (ea & nt & ev & Hrun & Hr & Hf);
    [reflexivity|].
  rewrite Hrun, retrying_lookup, retrying_emitted.
  exists (Scenario.retryingRecord ea).
  split; [reflexivity|]. split; [reflexivity|]. split; [reflexivity|].
  split; [reflexivity|]. split; [exact Hr | exact Hf].
Qed.

(** *** Manual retry *)

Lemma retryTransaction_not_failed (w : World) (s : State) (i : string)
    (t : QueuedTransaction) :
  s.(queue).(TransactionQueue.queue) !! i = Some t →
  t.(status) ≠ FAILED → retryTransaction w i s = (false, s).
Proof.
  intros Hq Hs. unfold retryTransaction, get. rewrite Hq.
  destruct (status t); try reflexivity; congruence.
Qed.

(** On a Failed record the manual retry succeeds and the status becomes
    Pending; every other field of the stored record, the retry counter
    included, stays. *)
Lemma retryTransaction_failed (w : World) (s : State) (i : string)
    (t : QueuedTransaction) :
  s.(queue).(TransactionQueue.queue) !! i = Some t →
  t.(id) = i → t.(status) = FAILED →
  (retryTransaction w i s).1 = true ∧
  (retryTransaction w i s).2.(queue).(TransactionQueue.queue) !! i
    = Some (set_status PENDING t).
Proof.
  intros Hq Hid Hs. unfold retryTransaction, get. rewrite Hq, Hs.
  cbn [status_eqb negb fst snd RetryManager.resetRetryCount set_retryCount id].
  rewrite Hid, (updateStatus_present w s i PENDING t Hq), lookup_insert_eq.
  split; reflexivity.
Qed.

End Engine.

(** ** Retry policy: further properties *)

Section MoreRetryPolicy.

Import RetryManager RetryTime Props.

(** [shouldRetry] holds exactly when the record is below its ceiling and
    the lower-cased message contains one of the transient markers; nothing
    else about the error matters. *)
Theorem shouldRetry_iff (t : QueuedTransaction) (e : Error) :
  shouldRetry t e = true ↔
  t.(retryCount) < t.(maxRetries) ∧ mentionsAny transientMarkers e = true.
Proof.
  unfold shouldRetry. rewrite isRetryableError_transient.
  destruct (Z.geb_spec (retryCount t) (maxRetries t)) as [Hge | Hlt].
  - split; [discriminate | intros [H _]; lia].
  - split; [intros H; split; [lia | exact H] | intros [_ H]; exact H].
Qed.

Lemma exponential_raw_bounds (o : RetryOptions) (rand : Q) (n : Z) :
  (0 <= rand)%Q → (rand < 1)%Q →
  let d := (o.(baseDelay) * Qpower o.(backoffMultiplier) (n - 1))%Q in
  (0 <= d)%Q →
  (d <= d + rand * (1 # 10) * d)%Q ∧ (d + rand * (1 # 10) * d <= (11 # 10) * d)%Q.
Proof.
  intros Hr0 Hr1 d Hd. split.
  - rewrite <- (Qplus_0_r d) at 1. apply Qplus_le_r.
    apply Qmult_le_0_compat; [|exact Hd].
    apply Qmult_le_0_compat; [exact Hr0 | discriminate].
  - setoid_replace ((11 # 10) * d)%Q with (d + 1 * (1 # 10) * d)%Q using relation Qeq by ring.
    apply Qplus_le_r. apply Qmult_le_compat_r; [|exact Hd].
    apply Qmult_le_compat_r; [apply Qlt_le_weak, Hr1 | discriminate].
Qed.

(** Exponential backoff with jitter: for a random value in [0, 1) and a
    non-negative un-jittered delay [d = base * multiplier^(attempt-1)], the
    result is at least the floor of [min d max] and at most
    [min (1.1 d) max]; once [d] reaches a whole maximum the result is the
    maximum itself. *)
Theorem exponential_delay_range (o : RetryOptions) (rand : Q) (n : Z) :
  (0 <= rand)%Q → (rand < 1)%Q →
  let d := (o.(baseDelay) * Qpower o.(backoffMultiplier) (n - 1))%Q in
  (0 <= d)%Q →
  (inject_Z (Qfloor (Qmin d o.(maxDelay))) <= getExponentialBackoffDelay o rand n)%Q ∧
  (getExponentialBackoffDelay o rand n <= Qmin ((11 # 10) * d) o.(maxDelay))%Q ∧
  ((o.(maxDelay) <= d)%Q → isWhole o.(maxDelay) →
   (getExponentialBackoffDelay o rand n == o.(maxDelay))%Q).
Proof.
  intros Hr0 Hr1 d Hd.
  destruct (exponential_raw_bounds o rand n Hr0 Hr1 Hd) as [Hlo Hhi].
  fold d in Hlo, Hhi. unfold getExponentialBackoffDelay. cbv zeta. fold d.
  split; [|split].
  - rewrite <- Zle_Qle. apply Qfloor_resp_le. now apply Q.min_le_compat_r.
  - eapply Qle_trans; [apply Qfloor_le|]. now apply Q.min_le_compat_r.
  - intros Hcap Hwhole.
    assert (Qmin (d + rand * (1 # 10) * d) (maxDelay o) == maxDelay o)%Q as E.
    { apply Q.min_r. eapply Qle_trans; [exact Hcap | exact Hlo]. }
    rewrite (Qfloor_comp _ _ E). exact Hwhole.
Qed.

Lemma exponential_delay_range_witness :
  (getExponentialBackoffDelay (mkRetryOptions EXPONENTIAL_BACKOFF 3 100 5000 2)
     (1 # 2) 10 == 5000)%Q.
Proof.
  refine (proj2 (proj2 (exponential_delay_range
            (mkRetryOptions EXPONENTIAL_BACKOFF 3 100 5000 2) (1 # 2) 10 _ _ _)) _ _).
  - discriminate.
  - reflexivity.
  - discriminate.
  - discriminate.
  - reflexivity.
Defined.

(** The linear delay is [base * attempt] as long as that is at most the
    maximum, the maximum from then on, and for a non-negative base delay
    it never decreases with the attempt number. *)
Theorem linear_delay_monotone (o : RetryOptions) (n m : Z) :
  (0 <= o.(baseDelay))%Q → n <= m →
  (getLinearDelay o n <= getLinearDelay o m)%Q ∧
  ((o.(baseDelay) * inject_Z n <= o.(maxDelay))%Q →
   (getLinearDelay o n == o.(baseDelay) * inject_Z n)%Q) ∧
  ((o.(maxDelay) <= o.(baseDelay) * inject_Z n)%Q →
   (getLinearDelay o n == o.(maxDelay))%Q ∧ (getLinearDelay o m == o.(maxDelay))%Q).
Proof.
  intros Hb Hnm. unfold getLinearDelay.
  assert (baseDelay o * inject_Z n <= baseDelay o * inject_Z m)%Q as Hmono.
  { rewrite !(Qmult_comm (baseDelay o)). apply Qmult_le_compat_r; [|exact Hb].
    rewrite <- Zle_Qle. exact Hnm. }
  split; [|split].
  - now apply Q.min_le_compat_r.
  - intros H. now apply Q.min_l.
  - intros H. split; apply Q.min_r; [exact H|]. eapply Qle_trans; eauto.
Qed.

Lemma linear_delay_monotone_witness :
  (getLinearDelay (mkRetryOptions LINEAR 3 100 1000 2) 3
   <= getLinearDelay (mkRetryOptions LINEAR 3 100 1000 2) 10)%Q.
Proof.
  refine (proj1 (linear_delay_monotone (mkRetryOptions LINEAR 3 100 1000 2) 3 10 _ _)).
  - discriminate.
  - lia.
Defined.

Lemma sumDelays_bound (o : RetryOptions) (B : Q) :
  (∀ r i, getRetryDelay o r i <= B)%Q →
  ∀ turns rands i tot,
    (sumDelays o rands turns i tot <= tot + inject_Z (Z.of_nat turns) * B)%Q.
Proof.
  intros HB. induction turns as [|n IH]; intros rands i tot; cbn [sumDelays].
  - cbn. rewrite Qmult_0_l, Qplus_0_r. apply Qle_refl.
  - eapply Qle_trans; [apply IH|].
    rewrite Nat2Z.inj_succ, <- Z.add_1_r, inject_Z_plus.
    setoid_replace (tot + (inject_Z (Z.of_nat n) + inject_Z 1) * B)%Q
      with (tot + B + inject_Z (Z.of_nat n) * B)%Q using relation Qeq by ring.
    apply Qplus_le_l. apply Qplus_le_r. apply HB.
Qed.

(** The total retry time: with the exponential or the linear strategy the
    sum over the attempts [1 .. maxRetries] is at most [maxRetries] times
    the maximum delay; without attempts ([maxRetries <= 0]) it is 0 for
    every strategy. *)
Theorem getMaxRetryTime_bound (o : RetryOptions) (rands : nat → Q) :
  (o.(strategy) = EXPONENTIAL_BACKOFF ∨ o.(strategy) = LINEAR →
   0 <= o.(ro_maxRetries) →
   (getMaxRetryTime o rands <= inject_Z o.(ro_maxRetries) * o.(maxDelay))%Q) ∧
  (o.(ro_maxRetries) <= 0 → (getMaxRetryTime o rands == 0)%Q).
Proof.
  split.
  - intros Hs Hn. unfold getMaxRetryTime.
    eapply Qle_trans; [apply (sumDelays_bound o (maxDelay o))|].
    + intros r i. unfold getRetryDelay. destruct Hs as [-> | ->].
      * apply exponential_whole_bounded.
      * apply linear_bounded.
    + rewrite Z2Nat.id by exact Hn. rewrite Qplus_0_l. apply Qle_refl.
  - intros Hn. unfold getMaxRetryTime.
    replace (Z.to_nat (ro_maxRetries o)) with 0%nat by lia. reflexivity.
Qed.

End MoreRetryPolicy.

(** ** Views of the queue *)

Section Views.

Import TransactionQueue QueueViews.

Lemma getAll_elem (keys : list string) (q : State) (t : QueuedTransaction) :
  enumerates keys q →
  t ∈ getAll keys q ↔ ∃ k, q.(queue) !! k = Some t.
Proof.
  intros [_ Hk]. unfold getAll. rewrite list_elem_of_omap. split.
  - intros (k & _ & H). eauto.
  - intros (k & H). exists k. split; [|exact H]. apply Hk. eauto.
Qed.

Lemma omap_lookup_length (keys : list string) (m : gmap string QueuedTransaction) :
  (∀ k, k ∈ keys → is_Some (m !! k)) →
  length (omap (λ k, m !! k) keys) = length keys.
Proof.
  induction keys as [|k keys IH]; intros H; [reflexivity|].
  cbn. destruct (H k) as [t ->]; [left|]. cbn. f_equal.
  apply IH. intros k' Hk'. apply H. now right.
Qed.

Lemma getAll_length (keys : list string) (q : State) :
  enumerates keys q → length (getAll keys q) = size q.
Proof.
  intros [Hnd Hk]. unfold getAll, size.
  rewrite omap_lookup_length by (intros k Hin; now apply Hk).
  rewrite <- size_dom. unfold base.size, set_size. cbn.
  apply Permutation_length, NoDup_Permutation;
    [exact Hnd | apply NoDup_elements |].
  intros k. rewrite elem_of_elements, elem_of_dom. apply Hk.
Qed.

Lemma status_classes (l : list QueuedTransaction) :
  (length (List.filter pendingLike l) + length (List.filter inFlight l) +
   length (List.filter completed l) +
   length (List.filter (hasStatus REPLACED) l))%nat = length l.
Proof.
  induction l as [|t l IH]; [reflexivity|].
  cbn [List.filter length]. unfold pendingLike, inFlight, completed, hasStatus in *.
  destruct (status t); cbn; lia.
Qed.

Lemma elem_of_filter_list (p : QueuedTransaction → bool)
    (l : list QueuedTransaction) (t : QueuedTransaction) :
  t ∈ List.filter p l ↔ t ∈ l ∧ p t = true.
Proof. rewrite !list_elem_of_In. apply filter_In. Qed.

Lemma view_elem (keys : list string) (q : State) (p : QueuedTransaction → bool)
    (t : QueuedTransaction) :
  enumerates keys q →
  t ∈ List.filter p (getAll keys q) ↔
  (∃ k, q.(queue) !! k = Some t) ∧ p t = true.
Proof. intros He. now rewrite elem_of_filter_list, (getAll_elem keys q t He). Qed.

Lemma pendingLike_true (t : QueuedTransaction) :
  pendingLike t = true ↔ t.(status) = PENDING ∨ t.(status) = QUEUED.
Proof. unfold pendingLike. destruct (status t); cbn; intuition discriminate. Qed.

Lemma inFlight_true (t : QueuedTransaction) :
  inFlight t = true ↔ t.(status) = EXECUTING ∨ t.(status) = CONFIRMING.
Proof. unfold inFlight. destruct (status t); cbn; intuition discriminate. Qed.

Lemma completed_true (t : QueuedTransaction) :
  completed t = true ↔
  t.(status) = CONFIRMED ∨ t.(status) = FAILED ∨ t.(status) = CANCELLED.
Proof. unfold completed. destruct (status t); cbn; intuition discriminate. Qed.

(** The three views split the records by status: Pending and Queued;
    Executing and Confirming; Confirmed, Failed and Cancelled.  The
    records in no view are the Replaced ones: the sizes of the views and
    the number of Replaced records add up to the size of the queue. *)
Theorem views_partition (keys : list string) (q : State) :
  enumerates keys q →
  (∀ t, t ∈ getPending keys q ↔
        (∃ k, q.(queue) !! k = Some t) ∧
        (t.(status) = PENDING ∨ t.(status) = QUEUED)) ∧
  (∀ t, t ∈ getExecuting keys q ↔
        (∃ k, q.(queue) !! k = Some t) ∧
        (t.(status) = EXECUTING ∨ t.(status) = CONFIRMING)) ∧
  (∀ t, t ∈ getCompleted keys q ↔
        (∃ k, q.(queue) !! k = Some t) ∧
        (t.(status) = CONFIRMED ∨ t.(status) = FAILED ∨ t.(status) = CANCELLED)) ∧
  (length (getPending keys q) + length (getExecuting keys q) +
   length (getCompleted keys q) +
   length (List.filter (hasStatus REPLACED) (getAll keys q)))%nat = size q.
Proof.
  intros He. unfold getPending, getExecuting, getCompleted.
  split; [|split; [|split]].
  - intros t. now rewrite (view_elem keys q _ t He), pendingLike_true.
  - intros t. now rewrite (view_elem keys q _ t He), inFlight_true.
  - intros t. now rewrite (view_elem keys q _ t He), completed_true.
  - rewrite status_classes. now apply getAll_length.
Qed.

Lemma views_partition_witness :
  (length (getPending ["tx"] Scenario.oneEnqueued) +
   length (getExecuting ["tx"] Scenario.oneEnqueued) +
   length (getCompleted ["tx"] Scenario.oneEnqueued) +
   length (List.filter (hasStatus REPLACED) (getAll ["tx"] Scenario.oneEnqueued)))%nat
  = size Scenario.oneEnqueued.
Proof.
  refine (proj2 (proj2 (proj2 (views_partition ["tx"] Scenario.oneEnqueued _)))).
  split.
  - apply NoDup_singleton.
  - intros k. rewrite list_elem_of_singleton. split.
    + intros ->. vm_compute. eauto.
    + intros [t Ht]. destruct (decide (k = "tx")) as [|Hne]; [assumption|].
      exfalso. unfold Scenario.oneEnqueued, add in Ht. cbn [snd queue fst] in Ht.
      rewrite lookup_insert_ne in Ht by (cbn; congruence).
      cbn in Ht. rewrite lookup_empty in Ht. discriminate.
Defined.

Lemma filter_nil_iff (p : QueuedTransaction → bool) (l : list QueuedTransaction) :
  length (List.filter p l) = 0%nat ↔ ∀ t, t ∈ l → p t = false.
Proof.
  induction l as [|x l IH]; cbn [List.filter].
  - split; [intros _ t Ht; inversion Ht | reflexivity].
  - destruct (p x) eqn:Hx; cbn [length].
    + split; [discriminate|]. intros H. specialize (H x (list_elem_of_here _ _)).
      congruence.
    + rewrite IH. split.
      * intros H t Ht. apply elem_of_cons in Ht as [-> | Ht]; auto.
      * intros H t Ht. apply H. now right.
Qed.

(** [isEmpty] does not look at the size: it holds exactly when no record
    is Pending, Queued, Executing or Confirming, so a queue that only holds
    finished records counts as empty. *)
Theorem isEmpty_iff (keys : list string) (q : State) :
  enumerates keys q →
  isEmpty keys q = true ↔
  ∀ k t, q.(queue) !! k = Some t →
         t.(status) = CONFIRMED ∨ t.(status) = FAILED ∨
         t.(status) = CANCELLED ∨ t.(status) = REPLACED.
Proof.
  intros He. unfold isEmpty, getPending, getExecuting.
  rewrite andb_true_iff, !Nat.eqb_eq, !filter_nil_iff. split.
  - intros [Hp Hx] k t Hk.
    assert (t ∈ getAll keys q) as Hin by (apply (getAll_elem keys q t He); eauto).
    specialize (Hp t Hin). specialize (Hx t Hin).
    unfold pendingLike, inFlight in *.
    destruct (status t); cbn in *; try discriminate; auto.
  - intros H. split; intros t Hin;
      apply (getAll_elem keys q t He) in Hin as [k Hk];
      specialize (H k t Hk); unfold pendingLike, inFlight;
      destruct H as [-> | [-> | [-> | ->]]]; reflexivity.
Qed.

Lemma isEmpty_iff_witness :
  isEmpty ["tx"] (Scenario.single "tx" FAILED 0) = true.
Proof.
  apply isEmpty_iff.
  - split; [apply NoDup_singleton|].
    intros k. rewrite list_elem_of_singleton. unfold Scenario.single. cbn [queue].
    split.
    + intros ->. rewrite lookup_singleton_eq. eauto.
    + intros [t Ht]. apply lookup_singleton_Some in Ht as [<- _]. reflexivity.
  - intros k t Ht. unfold Scenario.single in Ht. cbn [queue] in Ht.
    apply lookup_singleton_Some in Ht as [_ <-]. right. left. reflexivity.
Defined.

(** *** [clear] *)

Lemma getAll_ids (keys : list string) (q : State) :
  (∀ k, k ∈ keys → is_Some (q.(queue) !! k)) →
  (∀ k t, q.(queue) !! k = Some t → t.(id) = k) →
  List.map id (getAll keys q) = keys.
Proof.
  intros Hk Hid. unfold getAll. induction keys as [|k keys IH]; [reflexivity|].
  cbn. destruct (Hk k) as [t Ht]; [left|]. rewrite Ht. cbn.
  rewrite (Hid k t Ht). f_equal. apply IH. intros k' Hk'. apply Hk. now right.
Qed.

Lemma NoDup_map_filter (p : QueuedTransaction → bool) (l : list QueuedTransaction) :
  NoDup (List.map id l) → NoDup (List.map id (List.filter p l)).
Proof.
  induction l as [|x l IH]; cbn [List.map List.filter]; intros Hnd; [constructor|].
  apply NoDup_cons in Hnd as [Hx Hnd].
  destruct (p x); [|auto]. cbn [List.map]. apply NoDup_cons. split; [|auto].
  intros Hin. apply Hx.
  apply list_elem_of_In, in_map_iff in Hin as (y & Hy & Hin).
  apply filter_In in Hin as [Hin _].
  apply list_elem_of_In, in_map_iff. eauto.
Qed.

Lemma fold_insert_lookup (l : list QueuedTransaction) :
  ∀ (m0 : gmap string QueuedTransaction) (k : string) (t : QueuedTransaction),
    NoDup (List.map id l) →
    fold_left (λ m tx, <[tx.(id) := tx]> m) l m0 !! k = Some t ↔
    (t ∈ l ∧ t.(id) = k) ∨ ((∀ t', t' ∈ l → t'.(id) ≠ k) ∧ m0 !! k = Some t).
Proof.
  induction l as [|x l IH]; intros m0 k t Hnd; cbn [fold_left].
  - split.
    + intros H. right. split; [intros t' Ht'; inversion Ht' | exact H].
    + intros [[Ht _] | [_ H]]; [inversion Ht | exact H].
  - cbn [List.map] in Hnd. apply NoDup_cons in Hnd as [Hx Hnd].
    rewrite (IH _ k t Hnd). split.
    + intros [[Ht Hid] | [Hno Hl]].
      * left. split; [now right | exact Hid].
      * destruct (decide (id x = k)) as [Heq | Hne].
        -- rewrite Heq, lookup_insert_eq in Hl. injection Hl as <-.
           left. split; [left | exact Heq].
        -- rewrite lookup_insert_ne in Hl by done. right. split; [|exact Hl].
           intros t' Ht'. apply elem_of_cons in Ht' as [-> | Ht']; auto.
    + intros [[Ht Hid] | [Hno Hl]].
      * apply elem_of_cons in Ht as [-> | Ht]; [|left; auto].
        right. split.
        -- intros t' Ht' Heq. apply Hx.
           apply list_elem_of_In, in_map_iff. exists t'.
           split; [congruence | now apply list_elem_of_In].
        -- rewrite <- Hid. apply lookup_insert_eq.
      * right. split; [intros t' Ht'; apply Hno; now right|].
        rewrite lookup_insert_ne; [exact Hl|]. apply Hno. left.
Qed.

(** [clear] keeps exactly the records in flight (Executing or Confirming),
    as they are, each with one entry of the execution order; every
    dependency set is dropped, the options stay, and no record is
    eligible afterwards. *)
Theorem clear_keeps_in_flight (keys : list string) (q : State) :
  enumerates keys q →
  (∀ k t, q.(queue) !! k = Some t → t.(id) = k) →
  (∀ k t, (clear keys q).(queue) !! k = Some t ↔
          q.(queue) !! k = Some t ∧ inFlight t = true) ∧
  (∀ k, k ∈ (clear keys q).(executionOrder) ↔
        ∃ t, q.(queue) !! k = Some t ∧ inFlight t = true) ∧
  NoDup (clear keys q).(executionOrder) ∧
  (clear keys q).(dependencyGraph) = ∅ ∧
  (clear keys q).(options) = q.(options) ∧
  getNext (clear keys q) = None.
Proof.
  intros He Hid.
  assert (NoDup (List.map id (getExecuting keys q))) as Hnd.
  { unfold getExecuting. apply NoDup_map_filter.
    rewrite getAll_ids; [apply He | intros k Hk; now apply He | exact Hid]. }
  assert (∀ k t, (clear keys q).(queue) !! k = Some t ↔
                 q.(queue) !! k = Some t ∧ inFlight t = true) as Hq.
  { intros k t. unfold clear. cbn [queue].
    rewrite (fold_insert_lookup _ ∅ k t Hnd). unfold getExecuting.
    rewrite (view_elem keys q _ t He). split.
    - intros [[[[k' Hk'] Hf] Hk] | [_ H]]; [|rewrite lookup_empty in H; discriminate].
      rewrite <- Hk, (Hid k' t Hk'). auto.
    - intros [Hk Hf]. left. split; [split; eauto | eauto]. }
  split; [exact Hq|]. split; [|split; [exact Hnd|]].
  - intros k. unfold clear. cbn [executionOrder].
    rewrite list_elem_of_In, in_map_iff. split.
    + intros (t & Hk & Hin). apply list_elem_of_In in Hin.
      unfold getExecuting in Hin.
      apply (view_elem keys q _ t He) in Hin as [[k' Hk'] Hf].
      exists t. rewrite <- Hk, (Hid k' t Hk'). auto.
    + intros (t & Hk & Hf). exists t. split; [eauto|].
      apply list_elem_of_In. unfold getExecuting.
      apply (view_elem keys q _ t He). eauto.
  - split; [reflexivity|]. split; [reflexivity|].
    apply getNextFrom_None. intros i t _ (Hi & Hs & _).
    apply Hq in Hi as [_ Hf]. apply inFlight_true in Hf.
    destruct Hs as [Hs | Hs], Hf as [Hf | Hf]; congruence.
Qed.

Lemma clear_keeps_in_flight_witness :
  getNext (clear ["tx"] (Scenario.single "tx" EXECUTING 0)) = None.
Proof.
  refine (proj2 (proj2 (proj2 (proj2 (proj2
            (clear_keeps_in_flight ["tx"] (Scenario.single "tx" EXECUTING 0) _ _)))))).
  - split; [apply NoDup_singleton|].
    intros k. rewrite list_elem_of_singleton. unfold Scenario.single. cbn [queue].
    split.
    + intros ->. rewrite lookup_singleton_eq. eauto.
    + intros [t Ht]. apply lookup_singleton_Some in Ht as [<- _]. reflexivity.
  - intros k t Ht. unfold Scenario.single in Ht. cbn [queue] in Ht.
    apply lookup_singleton_Some in Ht as [<- <-]. reflexivity.
Defined.

End Views.

(** ** Statistics *)

Section Statistics.

Import TransactionQueue QueueViews.

Lemma filter_length_le (p : QueuedTransaction → bool) (l : list QueuedTransaction) :
  (length (List.filter p l) <= length l)%nat.
Proof.
  induction l as [|x l IH]; cbn [List.filter length]; [lia|].
  destruct (p x); cbn [length]; lia.
Qed.

Lemma filter_length_all (p : QueuedTransaction → bool) (l : list QueuedTransaction) :
  length (List.filter p l) = length l ↔ ∀ t, t ∈ l → p t = true.
Proof.
  induction l as [|x l IH]; cbn [List.filter length].
  - split; [intros _ t Ht; inversion Ht | reflexivity].
  - pose proof (filter_length_le p l) as Hle. destruct (p x) eqn:Hx; cbn [length].
    + split.
      * intros H t Ht. apply elem_of_cons in Ht as [-> | Ht]; [exact Hx|].
        apply IH; [lia | exact Ht].
      * intros H. f_equal. apply IH. intros t Ht. apply H. now right.
    + split; [lia|]. intros H. specialize (H x (list_elem_of_here _ _)). congruence.
Qed.

Lemma counted_classes (l : list QueuedTransaction) :
  (length (List.filter pendingLike l) + length (List.filter inFlight l) +
   length (List.filter (hasStatus CONFIRMED) l) +
   length (List.filter (hasStatus FAILED) l) +
   length (List.filter (hasStatus CANCELLED) l) +
   length (List.filter (hasStatus REPLACED) l))%nat = length l.
Proof.
  induction l as [|t l IH]; [reflexivity|].
  cbn [List.filter length]. unfold pendingLike, inFlight, hasStatus in *.
  destruct (status t); cbn; lia.
Qed.

Lemma ratio_bounds (c n : nat) :
  (0 < n)%nat → (c <= n)%nat →
  (0 <= inject_Z (Z.of_nat c) / inject_Z (Z.of_nat n))%Q ∧
  (inject_Z (Z.of_nat c) / inject_Z (Z.of_nat n) <= 1)%Q ∧
  ((inject_Z (Z.of_nat c) / inject_Z (Z.of_nat n) == 1)%Q ↔ c = n).
Proof.
  intros Hn Hc.
  assert (0 < inject_Z (Z.of_nat n))%Q as Hpos
    by (rewrite <- (Zlt_Qlt 0); lia).
  split; [|split].
  - apply Qle_shift_div_l; [exact Hpos|]. rewrite Qmult_0_l.
    rewrite <- (Zle_Qle 0). lia.
  - apply Qle_shift_div_r; [exact Hpos|]. rewrite Qmult_1_l.
    rewrite <- Zle_Qle. lia.
  - split.
    + intros H.
      assert (inject_Z (Z.of_nat c) == inject_Z (Z.of_nat n))%Q as E.
      { rewrite <- (Qmult_1_l (inject_Z (Z.of_nat n))), <- H.
        rewrite Qmult_comm, Qmult_div_r; [reflexivity|].
        intros H0. rewrite H0 in Hpos. now apply Qlt_irrefl in Hpos. }
      pose proof (proj1 (inject_Z_injective _ _) E). lia.
    + intros ->. apply Qmult_inv_r.
      intros H0. rewrite H0 in Hpos. now apply Qlt_irrefl in Hpos.
Qed.

(** The figures of [getStatistics]: the four counts never exceed the size
    of the queue (Cancelled and Replaced records are in none of them); the
    success rate lies between 0 and 1, is 0 for a queue without records
    (no division takes place), and is 1 exactly when there are records and
    all of them are Confirmed. *)
Theorem getStatistics_figures (keys : list string) (q : State) :
  enumerates keys q →
  let st := getStatistics keys q in
  (st.(totalQueued) + st.(totalExecuting) + st.(totalConfirmed) +
   st.(totalFailed) <= size q)%nat ∧
  (0 <= st.(successRate))%Q ∧ (st.(successRate) <= 1)%Q ∧
  (size q = 0%nat → (st.(successRate) == 0)%Q) ∧
  ((st.(successRate) == 1)%Q ↔
   (0 < size q)%nat ∧ ∀ k t, q.(queue) !! k = Some t → t.(status) = CONFIRMED).
Proof.
  intros He st. subst st. unfold getStatistics.
  cbn [totalQueued totalExecuting totalConfirmed totalFailed successRate].
  unfold getPending, getExecuting.
  pose proof (getAll_length keys q He) as Hlen.
  pose proof (counted_classes (getAll keys q)) as Hcount.
  pose proof (filter_length_le (hasStatus CONFIRMED) (getAll keys q)) as Hle.
  split; [lia|].
  destruct (Nat.ltb_spec 0 (length (getAll keys q))) as [Hpos | Hzero].
  - destruct (ratio_bounds _ _ Hpos Hle) as (H0 & H1 & Heq).
    split; [exact H0|]. split; [exact H1|]. split; [lia|].
    rewrite Heq, filter_length_all. split.
    + intros Hall. split; [lia|]. intros k t Hk.
      assert (t ∈ getAll keys q) as Hin by (apply (getAll_elem keys q t He); eauto).
      specialize (Hall t Hin). unfold hasStatus in Hall.
      destruct (status t); cbn in Hall; congruence.
    + intros [_ Hall] t Hin. apply (getAll_elem keys q t He) in Hin as [k Hk].
      unfold hasStatus. now rewrite (Hall k t Hk).
  - split; [apply Qle_refl|]. split; [discriminate|]. split; [reflexivity|].
    split; [discriminate | lia].
Qed.

Lemma getStatistics_figures_witness :
  ((getStatistics ["tx"] (Scenario.single "tx" CONFIRMED 0)).(successRate) <= 1)%Q.
Proof.
  refine (proj1 (proj2 (proj2
            (getStatistics_figures ["tx"] (Scenario.single "tx" CONFIRMED 0) _)))).
  split; [apply NoDup_singleton|].
  intros k. rewrite list_elem_of_singleton. unfold Scenario.single. cbn [queue].
  split.
  - intros ->. rewrite lookup_singleton_eq. eauto.
  - intros [t Ht]. apply lookup_singleton_Some in Ht as [<- _]. reflexivity.
Defined.

End Statistics.

(** ** Validation, round trip and repeated cancellation *)

Section MoreQueueOperations.

Import TransactionQueue.

(** The pre-flight validator accepts an intent exactly when it has a
    target and its identifier, if it has one, is not in the queue; an
    intent without data and value is still valid (it only gets a
    warning). *)
Theorem validateTransaction_valid_iff (c : TransactionConfig) (q : State) :
  (validateTransaction c q).(isValid) = true ↔
  truthyS c.(to) = true ∧
  ∀ i, c.(cid) = Some i → i ≠ "" → q.(queue) !! i = None.
Proof.
  unfold validateTransaction. cbn [isValid].
  destruct (truthyS (to c)) eqn:Hto; cbn [app].
  - destruct (cid c) as [i|] eqn:Hc.
    + destruct (truthyS (Some i)) eqn:Hi; cbn [andb].
      * destruct (queue q !! i) as [t|] eqn:Hq.
        -- rewrite bool_decide_eq_true_2 by eauto. cbn. split; [discriminate|].
           intros [_ H].
           assert (i ≠ "") as Hne by (destruct i; [discriminate Hi | discriminate]).
           rewrite (H i eq_refl Hne) in Hq. discriminate.
        -- rewrite bool_decide_eq_false_2 by (intros [? ?]; discriminate).
           cbn. split; [|reflexivity]. intros _. split; [reflexivity|].
           intros j [= <-] _. exact Hq.
      * cbn. split; [|reflexivity]. intros _. split; [reflexivity|].
        intros j [= <-] Hj. destruct i; [contradiction | discriminate].
    + cbn. split; [|reflexivity]. intros _. split; [reflexivity|]. discriminate.
  - split; [|intros [H _]; discriminate].
    destruct (cid c) as [i|]; [|discriminate].
    destruct (truthyS (Some i) && bool_decide (is_Some (queue q !! i)));
      discriminate.
Qed.

Lemma insert_then_filter (m : gmap string QueuedTransaction) (i : string) (p : Z)
    (l : list string) :
  i ∉ l → filter (λ txId, txId ≠ i) (insertIntoExecutionOrder m i p l) = l.
Proof.
  intros Hi. unfold insertIntoExecutionOrder, splice0.
  set (n := insertIndexFrom m p l 0).
  rewrite filter_app, filter_cons.
  destruct (decide (i ≠ i)) as [Hne | _]; [contradiction|].
  rewrite <- filter_app, take_drop.
  induction l as [|x l IH]; [reflexivity|].
  apply not_elem_of_cons in Hi as [Hx Hi].
  rewrite filter_cons. destruct (decide (x ≠ i)) as [_ | Hn];
    [|exfalso; apply Hn; congruence].
  f_equal. now apply IH.
Qed.

(** Round trip: removing a record right after it was added under an
    identifier that the queue did not know (no record, no entry of the
    execution order, no dependency set, and in nobody's dependencies)
    gives the queue back as it was. *)
Theorem add_then_remove (now : Z) (g : string) (c : TransactionConfig)
    (o : AddOptions) (q : State) :
  let i := (add now g c o q).1 in
  q.(queue) !! i = None →
  i ∉ q.(executionOrder) →
  q.(dependencyGraph) !! i = None →
  (∀ k deps, q.(dependencyGraph) !! k = Some deps → i ∉ deps) →
  remove i (add now g c o q).2 = (Returned true, q).
Proof.
  intros i Hq Ho Hg Hdeps. subst i. unfold add in *. cbn [fst snd] in *.
  set (i := if truthyS (cid c) then default g (cid c) else g) in *.
  unfold remove. cbn [queue]. rewrite lookup_insert_eq. cbn [status status_eqb orb].
  cbn [queue executionOrder options dependencyGraph priority].
  destruct q as [m order opts graph]. cbn [queue executionOrder options dependencyGraph] in *.
  f_equal. f_equal.
  - rewrite delete_insert_eq. now apply delete_id.
  - now apply insert_then_filter.
  - apply map_eq. intros k. rewrite lookup_fmap.
    destruct (decide (k = i)) as [-> | Hk].
    + rewrite lookup_delete_eq, Hg. reflexivity.
    + rewrite lookup_delete_ne by done.
      assert (match o_dependencies o with
              | Some (d :: ds) => <[i := list_to_set (d :: ds)]> graph
              | _ => graph
              end !! k = graph !! k) as ->.
      { destruct (o_dependencies o) as [[|d ds]|]; try reflexivity.
        now apply lookup_insert_ne. }
      destruct (graph !! k) as [deps|] eqn:Hk'; [|reflexivity].
      cbn. f_equal. apply difference_disjoint_L, disjoint_singleton_r.
      exact (Hdeps k deps Hk').
Qed.

Lemma add_then_remove_witness :
  remove "b" (add 5 "g" (Scenario.transfer "b") (Scenario.withPriority 7)
                Scenario.oneEnqueued).2
  = (Returned true, Scenario.oneEnqueued).
Proof.
  apply (add_then_remove 5 "g" (Scenario.transfer "b") (Scenario.withPriority 7)
           Scenario.oneEnqueued).
  - vm_compute. reflexivity.
  - vm_compute. intros H. apply list_elem_of_singleton in H. discriminate.
  - vm_compute. reflexivity.
  - intros k deps H. vm_compute in H. discriminate.
Defined.

Lemma cancelTransaction_done (s : TransactionExecutor.State) (i : string)
    (t : QueuedTransaction) :
  s.(TransactionExecutor.queue).(queue) !! i = Some t →
  t.(status) ≠ CONFIRMED →
  i ∉ s.(TransactionExecutor.currentlyExecuting) →
  TransactionExecutor.cancelTransaction i s
  = (true,
     TransactionExecutor.emit (TransactionCancelled t.(id))
       (TransactionExecutor.set_queue
          (mkQueue (<[i := set_status CANCELLED t]> s.(TransactionExecutor.queue).(queue))
                   s.(TransactionExecutor.queue).(executionOrder)
                   s.(TransactionExecutor.queue).(options)
                   s.(TransactionExecutor.queue).(dependencyGraph)) s)).
Proof.
  intros Hq Hs Hnot. unfold TransactionExecutor.cancelTransaction, get.
  rewrite Hq, bool_decide_eq_false_2 by done.
  now rewrite (cancel_other _ _ t Hq Hs).
Qed.

(** Cancelling again: a record that is Cancelled is not guarded, so a
    second [cancel] succeeds as well and changes nothing; the engine's
    [cancelTransaction] then emits the cancelled notification a second
    time. *)
Theorem cancel_twice (s : TransactionExecutor.State) (i : string)
    (t : QueuedTransaction) :
  let q := s.(TransactionExecutor.queue) in
  q.(queue) !! i = Some t → t.(status) ≠ CONFIRMED →
  cancel i (cancel i q).2 = (true, (cancel i q).2) ∧
  (i ∉ s.(TransactionExecutor.currentlyExecuting) →
   let s1 := (TransactionExecutor.cancelTransaction i s).2 in
   let r := TransactionExecutor.cancelTransaction i s1 in
   r.1 = true ∧
   r.2.(TransactionExecutor.queue) = s1.(TransactionExecutor.queue) ∧
   r.2.(TransactionExecutor.emitted)
   = s.(TransactionExecutor.emitted)
       ++ [TransactionCancelled t.(id); TransactionCancelled t.(id)]).
Proof.
  intros q Hq Hs. subst q. split.
  - rewrite (cancel_other _ _ t Hq Hs). cbn [snd].
    unfold cancel. cbn [queue]. rewrite lookup_insert_eq. cbn.
    now rewrite insert_insert_eq.
  - intros Hnot. cbv zeta.
    rewrite (cancelTransaction_done s i t Hq Hs Hnot). cbn [snd].
    rewrite (cancelTransaction_done _ i (set_status CANCELLED t)).
    + cbn. rewrite insert_insert_eq, <- app_assoc. auto.
    + cbn. apply lookup_insert_eq.
    + discriminate.
    + exact Hnot.
Qed.

Lemma cancel_twice_witness :
  cancel "tx" (cancel "tx" (Scenario.single "tx" FAILED 0)).2
  = (true, (cancel "tx" (Scenario.single "tx" FAILED 0)).2).
Proof.
  refine (proj1 (cancel_twice (Scenario.running (Scenario.single "tx" FAILED 0))
                   "tx" (Scenario.record "tx" FAILED 0) _ _)).
  - vm_compute. reflexivity.
  - discriminate.
Defined.

End MoreQueueOperations.

(** ** Invariants of the queue over all its calls *)

Section QueueInvariants.

Import TransactionQueue Props MoreProps.

Lemma insert_Permutation (m : gmap string QueuedTransaction) (i : string) (p : Z)
    (l : list string) :
  insertIntoExecutionOrder m i p l ≡ₚ i :: l.
Proof.
  unfold insertIntoExecutionOrder, splice0.
  rewrite <- Permutation_middle. now rewrite take_drop.
Qed.

Lemma insert_NoDup (m : gmap string QueuedTransaction) (i : string) (p : Z)
    (l : list string) :
  i ∉ l → NoDup l → NoDup (insertIntoExecutionOrder m i p l).
Proof.
  intros Hi Hl. rewrite insert_Permutation. now apply NoDup_cons.
Qed.

Lemma not_elem_of_filter_ne (i : string) (l : list string) :
  i ∉ filter (λ txId, txId ≠ i) l.
Proof. intros Hin. apply list_elem_of_filter in Hin as [Hne _]. now apply Hne. Qed.

Lemma add_consistent (now : Z) (g : string) (c : TransactionConfig)
    (o : AddOptions) (q : State) :
  consistent q → q.(queue) !! (add now g c o q).1 = None →
  consistent (add now g c o q).2.
Proof.
  intros (Hnd & Hdom & Hid & Hg) Hfresh. unfold add in *. cbn [fst snd] in *.
  set (i := if truthyS (cid c) then default g (cid c) else g) in *.
  set (t' := mkTx i _ _ _ _ _ _ _ _ _ _ _ _ _) in *.
  assert (i ∉ executionOrder q) as Hnot.
  { intros Hin. apply Hdom in Hin as [t Ht]. congruence. }
  split; [|split; [|split]]; cbn [executionOrder queue dependencyGraph].
  - now apply insert_NoDup.
  - intros k. rewrite elem_of_insert, lookup_insert_is_Some', Hdom.
    split; intros [-> | H]; auto.
  - intros k t Hk. apply lookup_insert_Some in Hk as [[<- <-] | [_ Hk]];
      [reflexivity | eauto].
  - intros k Hk. rewrite lookup_insert_is_Some'.
    destruct (decide (i = k)) as [|Hne]; [auto|]. right.
    apply Hg. destruct (o_dependencies o) as [[|d ds]|]; try exact Hk.
    now rewrite lookup_insert_ne in Hk.
Qed.

Lemma reorder_consistent (i : string) (p : Z) (q : State) :
  consistent q → consistent (reorder i p q).2.
Proof.
  intros (Hnd & Hdom & Hid & Hg). unfold reorder.
  destruct (queue q !! i) as [t|] eqn:Hq; cbn [snd]; [|repeat split; auto; apply Hdom].
  split; [|split; [|split]]; cbn [executionOrder queue dependencyGraph].
  - apply insert_NoDup; [apply not_elem_of_filter_ne | now apply NoDup_filter].
  - intros k. rewrite elem_of_insert, lookup_insert_is_Some', list_elem_of_filter, Hdom.
    split.
    + intros [-> | [Hne H]]; auto.
    + intros [-> | H]; [auto|]. destruct (decide (k = i)); auto.
  - intros k t0 Hk. apply lookup_insert_Some in Hk as [[<- <-] | [_ Hk]];
      [cbn; eauto | eauto].
  - intros k Hk. rewrite lookup_insert_is_Some'. auto.
Qed.

Lemma remove_cases (i : string) (q : State) :
  (remove i q).2 = q ∨
  ∃ t, q.(queue) !! i = Some t ∧
       (remove i q).2 =
       mkQueue (delete i q.(queue))
               (filter (λ txId, txId ≠ i) q.(executionOrder))
               q.(options)
               ((λ deps : gset string, deps ∖ {[i]}) <$> delete i q.(dependencyGraph)).
Proof.
  unfold remove. destruct (queue q !! i) as [t|]; [|now left].
  destruct (status_eqb (status t) EXECUTING || status_eqb (status t) CONFIRMING);
    [now left | right; eauto].
Qed.

Lemma remove_consistent (i : string) (q : State) :
  consistent q → consistent (remove i q).2.
Proof.
  intros Hc. destruct (remove_cases i q) as [-> | (t & Hq & ->)]; [exact Hc|].
  destruct Hc as (Hnd & Hdom & Hid & Hg).
  split; [|split; [|split]]; cbn [executionOrder queue dependencyGraph].
  - now apply NoDup_filter.
  - intros k. rewrite list_elem_of_filter, Hdom, lookup_delete_is_Some.
    split; intros [H1 H2]; split; auto.
  - intros k t0 Hk. apply lookup_delete_Some in Hk as [_ Hk]. eauto.
  - intros k Hk. rewrite lookup_fmap, fmap_is_Some, lookup_delete_is_Some in Hk.
    rewrite lookup_delete_is_Some. destruct Hk as [Hne Hk]. auto.
Qed.

(** [cancel] and [updateStatus] rewrite one record in place and keep its
    identifier and priority. *)
Lemma rewrite_in_place (q : State) (i : string) (f : QueuedTransaction → QueuedTransaction)
    (t : QueuedTransaction) :
  q.(queue) !! i = Some t → (f t).(id) = t.(id) →
  consistent q →
  consistent (mkQueue (<[i := f t]> q.(queue)) q.(executionOrder) q.(options)
                      q.(dependencyGraph)).
Proof.
  intros Hq Hf (Hnd & Hdom & Hid & Hg).
  split; [|split; [|split]]; cbn [executionOrder queue dependencyGraph].
  - exact Hnd.
  - intros k. rewrite lookup_insert_is_Some', Hdom.
    split; [auto|]. intros [<- | H]; eauto.
  - intros k t0 Hk. apply lookup_insert_Some in Hk as [[<- <-] | [_ Hk]];
      [rewrite Hf; eauto | eauto].
  - intros k Hk. rewrite lookup_insert_is_Some'. auto.
Qed.

Lemma cancel_consistent (i : string) (q : State) :
  consistent q → consistent (cancel i q).2.
Proof.
  intros Hc. unfold cancel. destruct (queue q !! i) as [t|] eqn:Hq; [|exact Hc].
  destruct (status_eqb (status t) CONFIRMED); [exact Hc|]. cbn [snd].
  now apply (rewrite_in_place q i (set_status CANCELLED) t).
Qed.

Lemma updateStatus_consistent (now : Z) (i : string) (st : TransactionStatus)
    (q : State) :
  consistent q → consistent (updateStatus now i st q).2.
Proof.
  intros Hc. unfold updateStatus. destruct (queue q !! i) as [t|] eqn:Hq; [|exact Hc].
  cbn [snd].
  apply (rewrite_in_place q i (λ t, stamp now st (set_status st t)) t); auto.
  destruct st; reflexivity.
Qed.

Lemma runCalls_consistent (calls : list QueueCall) :
  ∀ q, consistent q → freshCalls calls q → consistent (runCalls calls q).
Proof.
  induction calls as [|call calls IH]; intros q Hc Hf; [exact Hc|].
  cbn [runCalls fold_left]. destruct Hf as [Hcall Hf]. apply IH; [|exact Hf].
  destruct call; cbn [applyCall].
  - now apply add_consistent.
  - now apply reorder_consistent.
  - now apply remove_consistent.
  - now apply cancel_consistent.
  - now apply updateStatus_consistent.
Qed.

Lemma create_consistent (o : TransactionQueueOptions) : consistent (create o).
Proof.
  split; [constructor|]. split; [|split]; cbn.
  - intros k. rewrite lookup_empty. split; [intros H; inversion H | intros [? H]; discriminate].
  - intros k t H. rewrite lookup_empty in H. discriminate.
  - intros k [? H]. rewrite lookup_empty in H. discriminate.
Qed.

(** After any sequence of calls of [add], [reorder], [remove], [cancel]
    and [updateStatus] on a new queue in which no [add] reuses an
    identifier, the execution order lists every identifier of the queue
    exactly once, every record is stored under its own identifier, and
    dependency sets exist only for records of the queue. *)
Theorem queue_stays_consistent (o : TransactionQueueOptions)
    (calls : list QueueCall) :
  freshCalls calls (create o) → consistent (runCalls calls (create o)).
Proof. intros Hf. apply runCalls_consistent; [apply create_consistent | exact Hf]. Qed.

Lemma queue_stays_consistent_witness :
  consistent
    (runCalls [ CallAdd 0 "g" (Scenario.transfer "a") Scenario.noOptions;
                CallAdd 0 "g" (Scenario.transfer "b") (Scenario.dependingOn ["a"]);
                CallUpdateStatus 1 "a" CONFIRMED;
                CallRemove "a" ]
       (create Scenario.defaults)).
Proof.
  apply queue_stays_consistent.
  cbn [freshCalls]. repeat split; vm_compute; reflexivity.
Defined.

(** *** The order *)

Lemma goesBefore_same_priorities (q q' : State) (arr : gmap string nat) (a b : string) :
  (∀ c, priority <$> q'.(queue) !! c = priority <$> q.(queue) !! c) →
  goesBefore q arr a b → goesBefore q' arr a b.
Proof.
  intros Hp (ta & tb & na & nb & H1 & H2 & H3 & H4 & H5).
  pose proof (Hp a) as Ha. pose proof (Hp b) as Hb. rewrite H1 in Ha. rewrite H2 in Hb.
  destruct (queue q' !! a) as [ta'|] eqn:Ea; [|discriminate].
  destruct (queue q' !! b) as [tb'|] eqn:Eb; [|discriminate].
  cbn in Ha, Hb. injection Ha as Ha. injection Hb as Hb.
  apply (goesBefore_intro q' arr a b ta' tb' na nb); auto.
  rewrite Ha, Hb. exact H5.
Qed.

Lemma orderedUpTo_same_priorities (k : nat) (q q' : State) (arr : gmap string nat) :
  (∀ c, priority <$> q'.(queue) !! c = priority <$> q.(queue) !! c) →
  q'.(executionOrder) = q.(executionOrder) →
  orderedUpTo k q arr → orderedUpTo k q' arr.
Proof.
  intros Hp Ho [Hs Hm]. unfold orderedUpTo. rewrite Ho. split.
  - clear Hm Ho. induction Hs as [|x l Hs IH Hall]; constructor; [exact IH|].
    eapply Forall_impl; [exact Hall|]. intros y. now apply goesBefore_same_priorities.
  - intros a Ha. destruct (Hm a Ha) as (ta & na & H1 & H2 & H3).
    pose proof (Hp a) as Hpa. rewrite H1 in Hpa.
    destruct (queue q' !! a) as [ta'|]; [|discriminate]. eauto.
Qed.

Lemma in_place_priorities (q : State) (i : string) (t t' : QueuedTransaction) :
  q.(queue) !! i = Some t → t'.(priority) = t.(priority) →
  ∀ c, priority <$> (<[i := t']> q.(queue)) !! c = priority <$> q.(queue) !! c.
Proof.
  intros Hq Hp c. destruct (decide (i = c)) as [<- | Hne].
  - rewrite lookup_insert_eq, Hq. cbn. now rewrite Hp.
  - now rewrite lookup_insert_ne.
Qed.

Lemma cancel_ordered (k : nat) (i : string) (q : State) (arr : gmap string nat) :
  orderedUpTo k q arr → orderedUpTo k (cancel i q).2 arr.
Proof.
  intros Ho. unfold cancel. destruct (queue q !! i) as [t|] eqn:Hq; [|exact Ho].
  destruct (status_eqb (status t) CONFIRMED); [exact Ho|]. cbn [snd].
  apply (orderedUpTo_same_priorities k q _ arr); [|reflexivity|exact Ho].
  now apply (in_place_priorities q i t).
Qed.

Lemma updateStatus_ordered (k : nat) (now : Z) (i : string) (st : TransactionStatus)
    (q : State) (arr : gmap string nat) :
  orderedUpTo k q arr → orderedUpTo k (updateStatus now i st q).2 arr.
Proof.
  intros Ho. unfold updateStatus. destruct (queue q !! i) as [t|] eqn:Hq; [|exact Ho].
  cbn [snd]. apply (orderedUpTo_same_priorities k q _ arr); [|reflexivity|exact Ho].
  apply (in_place_priorities q i t); [exact Hq|]. destruct st; reflexivity.
Qed.

Lemma remove_ordered (k : nat) (i : string) (q : State) (arr : gmap string nat) :
  orderedUpTo k q arr → orderedUpTo k (remove i q).2 arr.
Proof.
  intros Ho. destruct (remove_cases i q) as [-> | (t & Hq & ->)]; [exact Ho|].
  destruct Ho as [Hs Hm]. split; cbn [executionOrder queue].
  - apply (StronglySorted_frame q _ arr arr i); cbn [queue].
    + intros c Hc. now apply lookup_delete_ne.
    + reflexivity.
    + apply not_elem_of_filter_ne.
    + now apply StronglySorted_filter_ne.
  - intros a Ha. apply list_elem_of_filter in Ha as [Hne Ha].
    destruct (Hm a Ha) as (ta & na & H1 & H2 & H3).
    exists ta, na. rewrite lookup_delete_ne by auto. auto.
Qed.

Lemma runCalls_ordered (calls : list QueueCall) :
  ∀ k q arr, orderedUpTo k q arr → freshCalls calls q →
             orderedUpTo (k + length calls) (runCalls calls q)
                         (arrivalsOf calls k q arr).
Proof.
  induction calls as [|call calls IH]; intros k q arr Hinv Hfresh.
  - cbn. now rewrite Nat.add_0_r.
  - cbn [length runCalls fold_left arrivalsOf]. destruct Hfresh as [Hcall Hfresh].
    replace (k + S (length calls))%nat with (S k + length calls)%nat by lia.
    apply IH; [|exact Hfresh].
    destruct call as [now g c o | i p | i | i | now i st]; cbn [applyCall placed].
    + now apply add_ordered.
    + destruct (queue q !! i) as [t|] eqn:Hq.
      * destruct (reorder_ordered k q arr i p t Hinv Hq) as [-> H]. exact H.
      * rewrite (reorder_absent q i p Hq). cbn [fst snd].
        now apply orderedUpTo_weaken.
    + now apply orderedUpTo_weaken, remove_ordered.
    + now apply orderedUpTo_weaken, cancel_ordered.
    + now apply orderedUpTo_weaken, updateStatus_ordered.
Qed.

(** The execution order stays sorted (higher priority first, earlier
    arrival first among equals) under removals, cancellations and status
    updates as well. *)
Theorem order_sorted_under_all_calls (o : TransactionQueueOptions)
    (calls : list QueueCall) :
  freshCalls calls (create o) →
  sortedStable (runCalls calls (create o)) (arrivalsOf calls 0 (create o) ∅).
Proof.
  intros Hfresh.
  destruct (runCalls_ordered calls 0 (create o) ∅) as [Hs _]; [|exact Hfresh|].
  - split; [constructor|]. intros a Ha. inversion Ha.
  - intros n m a b Hnm Ha Hb. eapply StronglySorted_lookup; eauto.
Qed.

Lemma order_sorted_under_all_calls_witness :
  sortedStable
    (runCalls [ CallAdd 0 "g" (Scenario.transfer "a") (Scenario.withPriority 1);
                CallAdd 0 "g" (Scenario.transfer "b") (Scenario.withPriority 5);
                CallCancel "a"; CallRemove "b" ]
       (create Scenario.defaults))
    (arrivalsOf [ CallAdd 0 "g" (Scenario.transfer "a") (Scenario.withPriority 1);
                  CallAdd 0 "g" (Scenario.transfer "b") (Scenario.withPriority 5);
                  CallCancel "a"; CallRemove "b" ]
       0 (create Scenario.defaults) ∅).
Proof.
  apply order_sorted_under_all_calls.
  cbn [freshCalls]. repeat split; vm_compute; reflexivity.
Defined.

(** Scheduling by priority: on a queue reached by such calls, the record
    [getNext] returns has the highest priority among the eligible
    records. *)
Theorem getNext_highest_priority (o : TransactionQueueOptions)
    (calls : list QueueCall) (t : QueuedTransaction) :
  freshCalls calls (create o) →
  getNext (runCalls calls (create o)) = Some t →
  ∀ j tj, eligible (runCalls calls (create o)) j tj →
          tj.(priority) <= t.(priority).
Proof.
  intros Hfresh Hnext j tj Hj.
  pose proof (runCalls_consistent calls (create o) (create_consistent o) Hfresh)
    as (Hnd & Hdom & _).
  destruct (runCalls_ordered calls 0 (create o) ∅) as [Hsorted _];
    [split; [constructor | intros a Ha; inversion Ha] | exact Hfresh |].
  set (q := runCalls calls (create o)) in *.
  apply getNextFrom_Some in Hnext as (n & i & Hn & Hi & Hfirst).
  assert (j ∈ executionOrder q) as Hin by (apply Hdom; destruct Hj as [Hj _]; eauto).
  apply list_elem_of_lookup in Hin as [m Hm].
  destruct (Nat.lt_trichotomy m n) as [Hlt | [-> | Hgt]].
  - exfalso. exact (Hfirst m j tj Hlt Hm Hj).
  - rewrite Hn in Hm. injection Hm as <-.
    rewrite (eligible_functional q i t tj Hi Hj). lia.
  - destruct (StronglySorted_lookup _ _ Hsorted n m i j Hgt Hn Hm)
      as (ta & tb & na & nb & H1 & H2 & _ & _ & H5).
    destruct Hi as [Hi _]. destruct Hj as [Hj _].
    rewrite Hi in H1. rewrite Hj in H2. injection H1 as <-. injection H2 as <-. lia.
Qed.

Lemma getNext_highest_priority_witness :
  (mkTx "low" (Scenario.transfer "low") PENDING 1 [] 0 3 0
        None None None None None None).(priority) <= 10.
Proof.
  apply (getNext_highest_priority Scenario.defaults
           [ CallAdd 0 "g" (Scenario.transfer "low") (Scenario.withPriority 1);
             CallAdd 0 "g" (Scenario.transfer "high") (Scenario.withPriority 10) ]
           (mkTx "high" (Scenario.transfer "high") PENDING 10 [] 0 3 0
                 None None None None None None) ltac:(cbn [freshCalls]; repeat split; vm_compute; reflexivity)
           ltac:(vm_compute; reflexivity) "low").
  split; [vm_compute; reflexivity|]. split; [left; reflexivity|].
  intros deps d Hg. exfalso. revert Hg. vm_compute. discriminate.
Defined.

End QueueInvariants.

(** ** Submission of a sequence, and the gas estimate *)

Section Submission.

Import TransactionQueue Props MoreProps SequentialTransactionHandler.

Lemma add_other (now : Z) (g : string) (c : TransactionConfig) (o : AddOptions)
    (q : State) (a : string) :
  a ≠ (add now g c o q).1 →
  (add now g c o q).2.(queue) !! a = q.(queue) !! a ∧
  (add now g c o q).2.(dependencyGraph) !! a = q.(dependencyGraph) !! a.
Proof.
  intros Ha. unfold add in *. cbn [fst snd queue dependencyGraph] in *.
  split; [now apply lookup_insert_ne|].
  destruct (o_dependencies o) as [[|d ds]|]; try reflexivity.
  now apply lookup_insert_ne.
Qed.

Lemma add_new (now : Z) (g : string) (c : TransactionConfig) (o : AddOptions)
    (q : State) :
  ∃ t, (add now g c o q).2.(queue) !! (add now g c o q).1 = Some t ∧
       t.(status) = PENDING ∧ t.(retryCount) = 0 ∧
       t.(dependencies) = default [] o.(o_dependencies) ∧
       ∀ d, o.(o_dependencies) = Some [d] →
            (add now g c o q).2.(dependencyGraph) !! (add now g c o q).1
            = Some {[d]}.
Proof.
  unfold add. cbn [fst snd queue dependencyGraph].
  eexists. split; [apply lookup_insert_eq|]. cbn.
  do 3 (split; [reflexivity|]). intros d ->.
  rewrite lookup_insert_eq. cbn. now rewrite union_empty_r_L.
Qed.

Lemma addSequenceFrom_ids (o : SequenceOptions) (cs : list TransactionConfig) :
  ∀ env i ids q,
    ∃ rest, (addSequenceFrom env cs o i ids q).1 = ids ++ rest ∧
            length rest = length cs.
Proof.
  induction cs as [|c cs IH]; intros env i ids q; cbn [addSequenceFrom].
  - exists []. now rewrite app_nil_r.
  - match goal with
    | |- context [addSequenceFrom ?e cs o ?j ?l ?q'] =>
        destruct (IH e j l q') as (rest & -> & Hlen)
    end.
    eexists (_ :: rest). rewrite <- app_assoc. split; [reflexivity|].
    cbn. now rewrite Hlen.
Qed.

Lemma addSequenceFrom_chained (o : SequenceOptions) (cs : list TransactionConfig) :
  ∀ env i ids q,
    length ids = i →
    NoDup (addSequenceFrom env cs o i ids q).1 →
    chained ids q →
    (∀ a, a ∈ ids → ∃ ta, q.(queue) !! a = Some ta ∧ ta.(status) = PENDING) →
    chained (addSequenceFrom env cs o i ids q).1 (addSequenceFrom env cs o i ids q).2.
Proof.
  induction cs as [|c cs IH]; intros env i ids q Hlen Hnd Hch Hpres;
    cbn [addSequenceFrom] in *; [exact Hch|].
  set (deps := match i with O => [] | S j => option_list (ids !! j) end) in *.
  set (opts := mkAddOptions (s_priority o) (Some deps) (s_maxRetries o) (s_metadata o)) in *.
  set (r := add (env O).1 (env O).2 c opts q) in *.
  assert (r.1 ∉ ids) as Hfresh.
  { destruct (addSequenceFrom_ids o cs (λ k, env (S k)) (S i) (ids ++ [r.1]) r.2)
      as (rest & E & _).
    rewrite E, <- app_assoc in Hnd. apply NoDup_app in Hnd as (_ & Hdis & _).
    intros Hin. apply (Hdis _ Hin). left. }
  destruct (add_new (env O).1 (env O).2 c opts q) as (tr & Hr & Hst & _ & Hdeps & Hg).
  fold r in Hr, Hg.
  assert (∀ a, a ∈ ids → r.2.(queue) !! a = q.(queue) !! a ∧
                          r.2.(dependencyGraph) !! a = q.(dependencyGraph) !! a) as Hkeep.
  { intros a Ha. apply add_other. intros ->. contradiction. }
  apply IH.
  - rewrite length_app. cbn. lia.
  - exact Hnd.
  - intros k a b Ha Hb.
    destruct (Nat.lt_trichotomy (S k) (length ids)) as [Hlt | [Heq | Hgt]].
    + rewrite lookup_app_l in Ha by lia. rewrite lookup_app_l in Hb by lia.
      destruct (Hch k a b Ha Hb) as (G & (ta & Qa & Sa) & (tb & Qb & Sb & Db)).
      assert (a ∈ ids) as Ia by (eapply list_elem_of_lookup_2; eauto).
      assert (b ∈ ids) as Ib by (eapply list_elem_of_lookup_2; eauto).
      destruct (Hkeep a Ia) as [Ka _]. destruct (Hkeep b Ib) as [Kb Gb].
      rewrite Gb, Ka, Kb. eauto 10.
    + rewrite lookup_app_l in Ha by lia.
      rewrite lookup_app_r in Hb by lia.
      replace (S k - length ids)%nat with 0%nat in Hb by lia.
      cbn in Hb. injection Hb as <-.
      assert (deps = [a]) as Hd.
      { subst deps. rewrite <- Hlen, <- Heq. now rewrite Ha. }
      assert (a ∈ ids) as Ia by (eapply list_elem_of_lookup_2; eauto).
      destruct (Hpres a Ia) as (ta & Qa & Sa). destruct (Hkeep a Ia) as [Ka _].
      split; [apply Hg; subst opts; cbn; now rewrite Hd|].
      split; [exists ta; rewrite Ka; auto|].
      exists tr. split; [exact Hr|]. split; [exact Hst|].
      rewrite Hdeps. subst opts. cbn. exact Hd.
    + apply lookup_lt_Some in Hb. rewrite length_app in Hb. cbn in Hb. lia.
  - intros a Ha. apply elem_of_app in Ha as [Ha | Ha].
    + destruct (Hpres a Ha) as (ta & Qa & Sa). destruct (Hkeep a Ha) as [Ka _].
      exists ta. rewrite Ka. auto.
    + apply list_elem_of_singleton in Ha as ->. eauto.
Qed.

(** A sequence is submitted as a chain: [addSequence] returns one
    identifier per intent, and when these are pairwise different, every
    record but the first depends on exactly its predecessor, so right
    after the submission it is blocked and not eligible. *)
Theorem addSequence_chain (env : nat → Z * string) (cs : list TransactionConfig)
    (o : SequenceOptions) (q : State) :
  NoDup (addSequence env cs o q).1 →
  length (addSequence env cs o q).1 = length cs ∧
  chained (addSequence env cs o q).1 (addSequence env cs o q).2 ∧
  ∀ k b, (addSequence env cs o q).1 !! (S k) = Some b →
         hasPendingDependencies (addSequence env cs o q).2 b = true ∧
         ∀ t, ¬ eligible (addSequence env cs o q).2 b t.
Proof.
  intros Hnd. unfold addSequence in *.
  assert (chained (addSequenceFrom env cs o 0 [] q).1 (addSequenceFrom env cs o 0 [] q).2)
    as Hch.
  { apply addSequenceFrom_chained; auto.
    - intros k a b Ha. destruct k; discriminate.
    - intros a Ha. inversion Ha. }
  split; [|split; [exact Hch|]].
  - destruct (addSequenceFrom_ids o cs env 0%nat [] q) as (rest & -> & Hlen).
    exact Hlen.
  - intros k b Hb.
    assert (∃ a, (addSequenceFrom env cs o 0 [] q).1 !! k = Some a) as [a Ha].
    { apply lookup_lt_is_Some. apply lookup_lt_Some in Hb. lia. }
    destruct (Hch k a b Ha Hb) as (G & (ta & Qa & Sa) & _).
    assert (hasPendingDependencies (addSequenceFrom env cs o 0 [] q).2 b = true) as Hp.
    { unfold hasPendingDependencies. rewrite G, elements_singleton. cbn.
      rewrite Qa. unfold blocks. now rewrite Sa. }
    split; [exact Hp|]. intros t (_ & _ & Hd).
    apply hasPendingDependencies_false in Hd. congruence.
Qed.

Lemma addSequence_chain_witness :
  length (addSequence (λ _, (0, "g")) [Scenario.transfer "a"; Scenario.transfer "b"]
            (mkSequenceOptions None None None) (create Scenario.defaults)).1 = 2%nat.
Proof.
  refine (proj1 (addSequence_chain (λ _, (0, "g"))
                   [Scenario.transfer "a"; Scenario.transfer "b"]
                   (mkSequenceOptions None None None) (create Scenario.defaults) _)).
  vm_compute. apply NoDup_cons. split.
  - intros H. apply list_elem_of_singleton in H. discriminate.
  - apply NoDup_singleton.
Defined.

(** The provider's gas estimate adds a fifth, rounded down, to a
    non-negative estimate of the node: the result is never below the
    node's estimate, the margin is the whole part of a fifth of it, and an
    estimate below 5 gets no margin at all. *)
Theorem estimateGas_margin (gas : Z) :
  0 <= gas →
  ∃ g, WalletConnectProvider.estimateGas (inl gas) = Returned g ∧
       gas <= g ∧ 5 * (g - gas) <= gas < 5 * (g - gas) + 5 ∧
       (gas < 5 → g = gas).
Proof.
  intros Hg. unfold WalletConnectProvider.estimateGas. eexists. split; [reflexivity|].
  rewrite Z.quot_div_nonneg by lia.
  assert (gas * 20 / 100 = gas / 5) as ->.
  { replace 100 with (5 * 20) by lia. apply Z.div_mul_cancel_r; lia. }
  pose proof (Z.div_mod gas 5 ltac:(lia)) as Hdm.
  pose proof (Z.mod_pos_bound gas 5 ltac:(lia)) as Hmod.
  split; [lia|]. split; lia.
Qed.

Lemma estimateGas_margin_witness :
  ∃ g, WalletConnectProvider.estimateGas (inl 21004) = Returned g ∧ 21004 <= g.
Proof.
  destruct (estimateGas_margin 21004) as (g & H & Hle & _); [lia|].
  exists g. split; assumption.
Defined.

End Submission.

(** ** Execution engine: what a turn leaves alone *)

Section EngineFrame.

Import TransactionQueue TransactionExecutor Props MoreProps.

Lemma turnOf_refl (i : string) (s : State) : turnOf i s s.
Proof.
  split; [reflexivity|]. split; [reflexivity|]. split; [reflexivity|].
  exists []. now rewrite app_nil_r.
Qed.

Lemma turnOf_trans (i : string) (s1 s2 s3 : State) :
  turnOf i s1 s2 → turnOf i s2 s3 → turnOf i s1 s3.
Proof.
  intros (H1 & H2 & Ho & evs & H3 & H4) (K1 & K2 & Ko & evs' & K3 & K4).
  split; [congruence|]. split; [congruence|].
  split; [intros k Hk; rewrite Ko, Ho by exact Hk; reflexivity|].
  exists (evs ++ evs'). split; [rewrite K3, H3; apply eq_sym, app_assoc|].
  now apply Forall_app.
Qed.

Lemma turnOf_emit (i : string) (e : Event) (s : State) :
  about i e → turnOf i s (emit e s).
Proof.
  intros He. split; [reflexivity|]. split; [reflexivity|]. split; [reflexivity|].
  exists [e]. split; [reflexivity | now constructor].
Qed.

Lemma turnOf_set_nonceTracker (i : string) (nt : gmap Address Z) (s : State) :
  turnOf i s (set_nonceTracker nt s).
Proof.
  split; [reflexivity|]. split; [reflexivity|]. split; [reflexivity|].
  exists []. cbn. now rewrite app_nil_r.
Qed.

Lemma schedule_in_place (s : State) (i : string)
    (f : QueuedTransaction → QueuedTransaction) (t : QueuedTransaction) :
  s.(queue).(TransactionQueue.queue) !! i = Some t →
  submitted (f t) = submitted t → (f t).(priority) = t.(priority) →
  schedule (set_queue
              (mkQueue (<[i := f t]> s.(queue).(TransactionQueue.queue))
                       s.(queue).(executionOrder) s.(queue).(TransactionQueue.options)
                       s.(queue).(dependencyGraph)) s)
  = schedule s.
Proof.
  intros Hq Hs Hp. unfold schedule. cbn. f_equal.
  rewrite fmap_insert, Hs, Hp. apply insert_id. now rewrite lookup_fmap, Hq.
Qed.

Lemma turnOf_updateStatus (w : World) (i : string) (st : TransactionStatus)
    (s : State) :
  turnOf i s (updateStatus w i st s).
Proof.
  unfold updateStatus, TransactionQueue.updateStatus.
  destruct (TransactionQueue.queue (queue s) !! i) as [t|] eqn:Hq.
  - cbn [snd]. split; [|split; [reflexivity|split]].
    + apply (schedule_in_place s i (λ t, stamp (now w) st (set_status st t)) t Hq);
        destruct st; reflexivity.
    + intros k Hk. cbn. now apply lookup_insert_ne.
    + exists []. cbn. now rewrite app_nil_r.
  - cbn [snd]. destruct s as [[? ? ? ?] ? ? ? ? ? ?]. apply turnOf_refl.
Qed.

Lemma turnOf_modifyRecord (i : string)
    (f : QueuedTransaction → QueuedTransaction) (s : State) :
  (∀ t, submitted (f t) = submitted t ∧ (f t).(priority) = t.(priority)) →
  turnOf i s (modifyRecord i f s).
Proof.
  intros Hf. unfold modifyRecord.
  split; [|split; [reflexivity|split]].
  - unfold schedule. cbn. f_equal. apply map_eq. intros k.
    rewrite !lookup_fmap, lookup_alter.
    destruct (decide (i = k)) as [<- | Hne]; [|reflexivity].
    destruct (TransactionQueue.queue (queue s) !! i) as [t|]; [|reflexivity].
    cbn. destruct (Hf t) as [-> ->]. reflexivity.
  - intros k Hk. cbn. now apply lookup_alter_ne.
  - exists []. cbn. now rewrite app_nil_r.
Qed.

(** The monadic methods. *)
Lemma turnOf_bind {A B : Type} (i : string) (m : M A) (k : A → M B) :
  (∀ s, turnOf i s (m s).2) → (∀ a s, turnOf i s (k a s).2) →
  ∀ s, turnOf i s (bind m k s).2.
Proof.
  intros Hm Hk s. unfold bind. specialize (Hm s).
  destruct (m s) as [[a | e] s']; cbn [snd] in *.
  - eapply turnOf_trans; [exact Hm | apply Hk].
  - exact Hm.
Qed.

Lemma turnOf_await {A : Type} (i : string) (o : Outcome A) (s : State) :
  turnOf i s (await o s).2.
Proof. apply turnOf_refl. Qed.

Lemma turnOf_read {A : Type} (i : string) (f : State → A) (s : State) :
  turnOf i s (read f s).2.
Proof. apply turnOf_refl. Qed.

Lemma turnOf_ret {A : Type} (i : string) (a : A) (s : State) :
  turnOf i s (ret a s).2.
Proof. apply turnOf_refl. Qed.

Lemma turnOf_prepareTransaction (i : string) (w : World) (t : QueuedTransaction)
    (s : State) :
  turnOf i s (prepareTransaction w t s).2.
Proof.
  revert s. unfold prepareTransaction.
  apply turnOf_bind; [|intros c1; apply turnOf_bind].
  - unfold prepareNonce. apply turnOf_bind; [intros s; apply turnOf_read|].
    intros nm. destruct (nm && negb (truthyZ (nonce (config t))));
      [|intros s; apply turnOf_ret].
    apply turnOf_bind; [intros s; apply turnOf_await|]. intros currentNonce.
    apply turnOf_bind; [intros s; apply turnOf_read|]. intros tracked.
    apply turnOf_bind; [|intros _ s; apply turnOf_ret].
    intros s. unfold update. cbn [snd]. apply turnOf_set_nonceTracker.
  - unfold prepareGasLimit. destruct (negb (truthyZ (gasLimit c1)));
      [|intros s; apply turnOf_ret].
    apply turnOf_bind; [intros s; apply turnOf_await | intros g s; apply turnOf_ret].
  - intros c2. unfold prepareGasPrice.
    destruct (negb (truthyZ (gasPrice c2)) && negb (truthyZ (maxFeePerGas c2)));
      [|intros s; apply turnOf_ret].
    apply turnOf_bind; [intros s; apply turnOf_await | intros g s; apply turnOf_ret].
Qed.

Lemma turnOf_update (i : string) (f : State → State) :
  (∀ s, turnOf i s (f s)) → ∀ s, turnOf i s (update f s).2.
Proof. intros Hf s. apply Hf. Qed.

Lemma set_hash_submitted (h : Hash) (t : QueuedTransaction) :
  submitted (set_hash h t) = submitted t ∧ (set_hash h t).(priority) = t.(priority).
Proof. split; reflexivity. Qed.

Lemma set_receipt_submitted (r : TransactionReceipt) (t : QueuedTransaction) :
  submitted (set_receipt r t) = submitted t ∧
  (set_receipt r t).(priority) = t.(priority).
Proof. split; reflexivity. Qed.

Lemma set_error_submitted (e : Error) (t : QueuedTransaction) :
  submitted (set_error e t) = submitted t ∧ (set_error e t).(priority) = t.(priority).
Proof. split; reflexivity. Qed.

(** The body of [executeTransaction], after the record has entered the
    in-flight set. *)
Lemma executeBody_turn (w : World) (i : string) (s : State) :
  turnOf i (set_currentlyExecuting ({[i]} ∪ s.(currentlyExecuting)) s)
           (executeBody w i s).2.
Proof.
  unfold executeBody. unfold bind at 1. unfold update at 1.
  generalize (set_currentlyExecuting ({[i]} ∪ currentlyExecuting s) s). clear s.
  apply turnOf_bind; [apply turnOf_update; intros s; apply turnOf_updateStatus|].
  intros _. apply turnOf_bind;
    [apply turnOf_update; intros s; now apply turnOf_emit|].
  intros _. apply turnOf_bind; [intros s; apply turnOf_read|].
  intros [transaction|]; [|intros s; apply turnOf_ret].
  apply turnOf_bind; [intros s; apply turnOf_prepareTransaction|]. intros c.
  apply turnOf_bind; [intros s; apply turnOf_await|]. intros h.
  apply turnOf_bind;
    [apply turnOf_update; intros s; apply turnOf_modifyRecord, set_hash_submitted|].
  intros _. apply turnOf_bind;
    [apply turnOf_update; intros s; now apply turnOf_emit|].
  intros _. apply turnOf_bind;
    [apply turnOf_update; intros s; apply turnOf_updateStatus|].
  intros _. apply turnOf_bind; [intros s; apply turnOf_read|]. intros cb.
  apply turnOf_bind; [intros s; apply turnOf_await|]. intros r.
  apply turnOf_bind;
    [apply turnOf_update; intros s; apply turnOf_modifyRecord, set_receipt_submitted|].
  intros _. apply turnOf_bind;
    [apply turnOf_update; intros s; apply turnOf_updateStatus|].
  intros _. apply turnOf_update. intros s. now apply turnOf_emit.
Qed.

(** The failure handler notifies about the identifier of the record it
    was given. *)
Lemma handleTransactionError_turn (w : World) (i : string) (err : Error)
    (s : State) :
  (∀ t, s.(queue).(TransactionQueue.queue) !! i = Some t → t.(id) = i) →
  turnOf i s (handleTransactionError w i err s).
Proof.
  intros Hid. unfold handleTransactionError, get.
  destruct (TransactionQueue.queue (queue s) !! i) as [t|] eqn:Hq;
    [|apply turnOf_refl].
  specialize (Hid t eq_refl).
  destruct (RetryManager.shouldRetry t err).
  - cbn [id RetryManager.incrementRetryCount set_retryCount retryCount].
    assert (turnOf i s
              (emit (TransactionRetry (id t) (retryCount t + 1))
                 (updateStatus w (id t) PENDING s))) as H.
    { rewrite Hid. eapply turnOf_trans; [apply turnOf_updateStatus|].
      now apply turnOf_emit. }
    destruct (Str.includes (Str.toLowerCase err) "nonce"); [|exact H].
    eapply turnOf_trans; [exact H | apply turnOf_set_nonceTracker].
  - rewrite Hid. eapply turnOf_trans; [apply turnOf_modifyRecord, set_error_submitted|].
    eapply turnOf_trans; [apply turnOf_updateStatus|].
    now apply turnOf_emit.
Qed.

Lemma schedule_lookup (s s' : State) (k : string) :
  schedule s' = schedule s →
  match s'.(queue).(TransactionQueue.queue) !! k,
        s.(queue).(TransactionQueue.queue) !! k with
  | Some t', Some t => submitted t' = submitted t ∧ t'.(priority) = t.(priority)
  | None, None => True
  | _, _ => False
  end.
Proof.
  intros Hs. unfold schedule in Hs.
  apply (f_equal snd) in Hs. cbn [snd] in Hs.
  apply (f_equal (λ m, m !! k)) in Hs. rewrite !lookup_fmap in Hs.
  destruct (TransactionQueue.queue (queue s') !! k),
           (TransactionQueue.queue (queue s) !! k);
    cbn [fmap option_fmap option_map] in Hs;
    try discriminate; [|exact I].
  split; congruence.
Qed.

Lemma turnOf_keys (i : string) (s s' : State) (k : string) :
  turnOf i s s' →
  id <$> s'.(queue).(TransactionQueue.queue) !! k
  = id <$> s.(queue).(TransactionQueue.queue) !! k.
Proof.
  intros (Hs & _). pose proof (schedule_lookup s s' k Hs) as H.
  destruct (TransactionQueue.queue (queue s') !! k),
           (TransactionQueue.queue (queue s) !! k); cbn; try contradiction;
    [|reflexivity].
  destruct H as [H _]. unfold submitted in H. congruence.
Qed.

Lemma executeTransaction_turn (w : World) (i : string) (s : State) :
  (∀ t, s.(queue).(TransactionQueue.queue) !! i = Some t → t.(id) = i) →
  let s' := executeTransaction w i s in
  schedule s' = schedule s ∧
  s'.(currentlyExecuting) = s.(currentlyExecuting) ∖ {[i]} ∧
  (∀ k, k ≠ i → s'.(queue).(TransactionQueue.queue) !! k
                = s.(queue).(TransactionQueue.queue) !! k) ∧
  ∃ evs, s'.(emitted) = s.(emitted) ++ evs ∧ Forall (about i) evs.
Proof.
  intros Hid. cbv zeta. unfold executeTransaction.
  pose proof (executeBody_turn w i s) as Hbody.
  assert (turnOf i (set_currentlyExecuting ({[i]} ∪ currentlyExecuting s) s)
            match executeBody w i s with
            | (Returned _, s1) => s1
            | (Thrown err, s1) => handleTransactionError w i err s1
            end) as (H1 & H2 & Ho & H3).
  { destruct (executeBody w i s) as [[u | err] s1]; cbn [snd] in Hbody;
      [exact Hbody|].
    eapply turnOf_trans; [exact Hbody|]. apply handleTransactionError_turn.
    intros t Ht. pose proof (turnOf_keys i _ _ i Hbody) as Hk.
    rewrite Ht in Hk. cbn in Hk.
    destruct (TransactionQueue.queue (queue s) !! i) as [t0|] eqn:Hq;
      [|discriminate].
    cbn in Hk. injection Hk as ->. now apply Hid. }
  split; [exact H1|]. split; [|split; [exact Ho | exact H3]].
  cbn [set_currentlyExecuting currentlyExecuting]. rewrite H2. cbn.
  now rewrite difference_union_distr_l_L, difference_diag_L, union_empty_l_L.
Qed.

Lemma processStep_turn (w : World) (s : State) :
  (∀ k t, s.(queue).(TransactionQueue.queue) !! k = Some t → t.(id) = k) →
  let s' := processStep w s in
  schedule s' = schedule s ∧
  (∀ k t, s'.(queue).(TransactionQueue.queue) !! k = Some t → t.(id) = k) ∧
  (∀ k, getNext s.(queue) ≠ None →
        (∀ t, getNext s.(queue) = Some t → k ≠ t.(id)) →
        s'.(queue).(TransactionQueue.queue) !! k
        = s.(queue).(TransactionQueue.queue) !! k) ∧
  (getNext s.(queue) = None → s'.(queue) = s.(queue)) ∧
  ∃ evs, s'.(emitted) = s.(emitted) ++ evs ∧
         match getNext s.(queue) with
         | Some t => Forall (about t.(id)) evs
         | None => evs = [] ∨ evs = [QueueEmpty]
         end.
Proof.
  intros Hid. cbv zeta.
  assert (∀ s', schedule s' = schedule s →
                ∀ k t, s'.(queue).(TransactionQueue.queue) !! k = Some t → t.(id) = k)
    as Hkeep.
  { intros s' Hs k t Ht. pose proof (schedule_lookup s s' k Hs) as H.
    rewrite Ht in H.
    destruct (TransactionQueue.queue (queue s) !! k) as [t0|] eqn:Hq;
      [|contradiction].
    destruct H as [H _]. unfold submitted in H.
    replace (id t) with (id t0) by congruence. eauto. }
  unfold processStep.
  destruct (Z.of_nat (base.size (currentlyExecuting s)) >=? maxConcurrent (options s)).
  { split; [reflexivity|]. split; [exact Hid|]. split; [reflexivity|].
    split; [reflexivity|]. exists [].
    rewrite app_nil_r. split; [reflexivity|].
    destruct (getNext (queue s)); [constructor | now left]. }
  destruct (getNext (queue s)) as [t|] eqn:Hnext.
  - set (s2 := emit (TransactionQueued (id t)) (updateStatus w (id t) QUEUED s)).
    assert (turnOf (id t) s s2) as Hs2.
    { eapply turnOf_trans; [apply turnOf_updateStatus|]. now apply turnOf_emit. }
    destruct (executeTransaction_turn w (id t) s2) as (H1 & _ & Ho & evs & H3 & H4).
    { intros t0 Ht0. destruct Hs2 as (Hs2 & _). exact (Hkeep s2 Hs2 _ _ Ht0). }
    destruct Hs2 as (K1 & _ & Ko & evs0 & K3 & K4).
    assert (schedule (executeTransaction w (id t) s2) = schedule s) as Hsched
      by congruence.
    split; [exact Hsched|]. split; [now apply Hkeep|].
    split; [intros k _ Hk; rewrite Ho, Ko by (now apply Hk); reflexivity|].
    split; [discriminate|].
    exists (evs0 ++ evs). split; [rewrite H3, K3; apply eq_sym, app_assoc|].
    now apply Forall_app.
  - destruct (Nat.eqb (base.size (currentlyExecuting s)) 0).
    + split; [reflexivity|]. split; [exact Hid|]. split; [reflexivity|].
      split; [reflexivity|]. exists [QueueEmpty]. auto.
    + split; [reflexivity|]. split; [exact Hid|]. split; [reflexivity|].
      split; [reflexivity|]. exists [].
      rewrite app_nil_r. auto.
Qed.

(** With nothing in flight, a turn of the loop ends with nothing in
    flight: the execution it starts has released its record. *)
Lemma processStep_idle (w : World) (s : State) :
  (∀ k t, s.(queue).(TransactionQueue.queue) !! k = Some t → t.(id) = k) →
  s.(currentlyExecuting) = ∅ → (processStep w s).(currentlyExecuting) = ∅.
Proof.
  intros Hid He. unfold processStep.
  destruct (Z.of_nat (base.size (currentlyExecuting s)) >=? maxConcurrent (options s));
    [exact He|].
  destruct (getNext (queue s)) as [t|] eqn:Hnext.
  - set (s2 := emit (TransactionQueued (id t)) (updateStatus w (id t) QUEUED s)).
    assert (turnOf (id t) s s2) as Hs2.
    { eapply turnOf_trans; [apply turnOf_updateStatus|]. now apply turnOf_emit. }
    destruct (executeTransaction_turn w (id t) s2) as (_ & Hce & _).
    { intros t0 Ht0. pose proof (turnOf_keys (id t) s s2 (id t) Hs2) as Hk.
      rewrite Ht0 in Hk.
      destruct (TransactionQueue.queue (queue s) !! id t) as [t1|] eqn:H1;
        [|discriminate].
      cbn in Hk. rewrite (Hid _ _ H1) in Hk. congruence. }
    destruct Hs2 as (_ & Hce2 & _). rewrite Hce, Hce2, He.
    apply difference_disjoint_L, disjoint_empty_l.
  - now destruct (Nat.eqb (base.size (currentlyExecuting s)) 0).
Qed.

(** The loop with at most one execution at a time ([maxConcurrent] at most
    1, nothing in flight at the start), where a turn of [processStep] is a
    turn of the source's loop.  Whatever the provider answers and however
    long the loop runs, at the end of every turn nothing is in flight, and
    the loop changes no option, not the run flag, not the execution order,
    no dependency set, and of a record only its status, timestamps, hash,
    receipt and error: identifier, intent, priority, dependencies, retry
    counter, retry ceiling, creation time and metadata of every record
    stay, and no record appears or disappears. *)
Theorem processQueue_frame (n : nat) :
  ∀ (ws : nat → World) (s : State),
    s.(options).(maxConcurrent) <= 1 →
    s.(currentlyExecuting) = ∅ →
    (∀ k t, s.(queue).(TransactionQueue.queue) !! k = Some t → t.(id) = k) →
    schedule (processQueue n ws s) = schedule s ∧
    (processQueue n ws s).(currentlyExecuting) = ∅ ∧
    ∀ k, retryCount <$> (processQueue n ws s).(queue).(TransactionQueue.queue) !! k
         = retryCount <$> s.(queue).(TransactionQueue.queue) !! k.
Proof.
  assert (∀ s s' : State, schedule s' = schedule s →
            ∀ k, retryCount <$> s'.(queue).(TransactionQueue.queue) !! k
                 = retryCount <$> s.(queue).(TransactionQueue.queue) !! k) as Hrc.
  { intros s s' Hs k. pose proof (schedule_lookup s s' k Hs) as H.
    destruct (TransactionQueue.queue (queue s') !! k) as [t'|],
             (TransactionQueue.queue (queue s) !! k) as [t|]; cbn;
      try contradiction; [|reflexivity].
    destruct H as [H _]. unfold submitted in H. congruence. }
  assert (∀ n ws s,
            s.(currentlyExecuting) = ∅ →
            (∀ k t, s.(queue).(TransactionQueue.queue) !! k = Some t → t.(id) = k) →
            schedule (processQueue n ws s) = schedule s ∧
            (processQueue n ws s).(currentlyExecuting) = ∅) as Hmain.
  { clear n. induction n as [|n IH]; intros ws s He Hid; cbn [processQueue].
    - destruct (isRunning s); split; auto.
    - destruct (isRunning s); [|split; auto].
      destruct (processStep_turn (ws O) s Hid) as (H1 & H2 & _).
      destruct (IH (λ k, ws (S k)) _ (processStep_idle (ws O) s Hid He) H2)
        as [H3 H4].
      split; [rewrite H3; exact H1 | exact H4]. }
  intros ws s _ He Hid. destruct (Hmain n ws s He Hid) as [H1 H2].
  split; [exact H1|]. split; [exact H2|]. now apply Hrc.
Qed.

Lemma processQueue_frame_witness :
  retryCount <$> (processQueue 5 (Scenario.alwaysFailing "Network error")
                    (Scenario.running Scenario.oneEnqueued))
                   .(queue).(TransactionQueue.queue) !! "tx"
  = retryCount <$> (Scenario.running Scenario.oneEnqueued)
                     .(queue).(TransactionQueue.queue) !! "tx".
Proof.
  refine (proj2 (proj2 (processQueue_frame 5 (Scenario.alwaysFailing "Network error")
                          (Scenario.running Scenario.oneEnqueued) _ _ _)) "tx").
  - vm_compute. discriminate.
  - reflexivity.
  - intros k t Ht. unfold Scenario.running, Scenario.oneEnqueued, add in Ht.
    cbn [snd fst TransactionExecutor.queue set_isRunning create TransactionQueue.queue] in Ht.
    apply lookup_insert_Some in Ht as [[<- <-] | [_ Ht]]; [reflexivity|].
    cbn in Ht. rewrite lookup_empty in Ht. discriminate.
Defined.

(** Whether the execution of a record ends confirmed, in a retry or in
    failure, the record has left the in-flight set afterwards, and the
    other records in flight stay there. *)
Theorem executeTransaction_releases (w : World) (i : string) (s : State) :
  (∀ t, s.(queue).(TransactionQueue.queue) !! i = Some t → t.(id) = i) →
  (executeTransaction w i s).(currentlyExecuting) = s.(currentlyExecuting) ∖ {[i]}.
Proof. intros Hid. apply (executeTransaction_turn w i s Hid). Qed.

Lemma executeTransaction_releases_witness :
  (executeTransaction (Scenario.alwaysFailing "Network error" O) "tx"
     (Scenario.running Scenario.oneEnqueued)).(currentlyExecuting)
  = (Scenario.running Scenario.oneEnqueued).(currentlyExecuting) ∖ {["tx"]}.
Proof.
  apply executeTransaction_releases.
  intros t Ht. vm_compute in Ht. injection Ht as <-. reflexivity.
Defined.

(** Dependency gating in the loop: the notifications of one turn are
    about the record [getNext] returned.  So a record is started in a turn
    only if it was the first eligible record: Pending or Queued, with
    every dependency that is in the queue Confirmed or Cancelled. *)
Theorem processStep_starts_eligible (w : World) (s : State) (j : string) :
  (∀ k t, s.(queue).(TransactionQueue.queue) !! k = Some t → t.(id) = k) →
  ∀ evs, (processStep w s).(emitted) = s.(emitted) ++ evs →
         TransactionStarted j ∈ evs →
         ∃ t, firstEligible s.(queue) t ∧ t.(id) = j ∧
              s.(queue).(TransactionQueue.queue) !! j = Some t.
Proof.
  intros Hid evs Hevs Hin.
  destruct (processStep_turn w s Hid) as (_ & _ & _ & _ & evs' & Hevs' & Hcase).
  rewrite Hevs' in Hevs. apply app_inv_head in Hevs. subst evs'.
  destruct (getNext (queue s)) as [t|] eqn:Hnext.
  - rewrite Forall_forall in Hcase. specialize (Hcase _ Hin). cbn in Hcase.
    exists t. pose proof Hnext as Hfirst.
    apply getNextFrom_Some in Hfirst.
    split; [exact Hfirst|]. split; [congruence|].
    destruct Hfirst as (n & i & _ & (Hi & _) & _).
    pose proof (Hid i t Hi). congruence.
  - destruct Hcase as [-> | ->]; [inversion Hin|].
    apply list_elem_of_singleton in Hin. discriminate.
Qed.

Lemma processStep_starts_eligible_witness :
  ∃ t, firstEligible (Scenario.running Scenario.oneEnqueued).(queue) t ∧
       t.(id) = "tx" ∧
       (Scenario.running Scenario.oneEnqueued).(queue).(TransactionQueue.queue)
         !! "tx" = Some t.
Proof.
  apply (processStep_starts_eligible (Scenario.alwaysFailing "Network error" O)
           (Scenario.running Scenario.oneEnqueued) "tx")
    with (evs := [TransactionQueued "tx"; TransactionStarted "tx";
                  TransactionRetry "tx" 1]).
  - intros k t Ht. unfold Scenario.running, Scenario.oneEnqueued, add in Ht.
    cbn [snd fst TransactionExecutor.queue set_isRunning create TransactionQueue.queue] in Ht.
    apply lookup_insert_Some in Ht as [[<- <-] | [_ Ht]]; [reflexivity|].
    cbn in Ht. rewrite lookup_empty in Ht. discriminate.
  - vm_compute. reflexivity.
  - right. left.
Defined.

End EngineFrame.

(** ** Execution engine: preparation and the nonce ledger *)

Section EnginePaths.

Import TransactionQueue TransactionExecutor Props MoreProps.

Lemma bind_returned {A B : Type} (m : M A) (k : A → M B) (s s' : State) (a : A) :
  m s = (Returned a, s') → bind m k s = k a s'.
Proof. intros H. unfold bind. now rewrite H. Qed.

Lemma bind_thrown {A B : Type} (m : M A) (k : A → M B) (s s' : State) (e : Error) :
  m s = (Thrown e, s') → bind m k s = (Thrown e, s').
Proof. intros H. unfold bind. now rewrite H. Qed.

Lemma set_nonceTracker_same (s : State) : set_nonceTracker s.(nonceTracker) s = s.
Proof. now destruct s. Qed.

Lemma prepareNonce_returns (w : World) (c : TransactionConfig) (s : State) :
  (∃ count, w.(provider).(getTransactionCount) getAccount = Returned count) →
  ∃ c1 nt, prepareNonce w c s = (Returned c1, set_nonceTracker nt s) ∧
           cid c1 = cid c ∧ to c1 = to c ∧ data c1 = data c ∧ value c1 = value c ∧
           gasLimit c1 = gasLimit c ∧ gasPrice c1 = gasPrice c ∧
           maxFeePerGas c1 = maxFeePerGas c ∧
           maxPriorityFeePerGas c1 = maxPriorityFeePerGas c ∧
           chainId c1 = chainId c ∧
           (truthyZ c.(nonce) = true → nonce c1 = nonce c ∧ nt = s.(nonceTracker)) ∧
           (s.(options).(nonceManager) = false →
            nonce c1 = nonce c ∧ nt = s.(nonceTracker)).
Proof.
  intros [count Hc].
  destruct (nonceManager (options s) && negb (truthyZ (nonce c))) eqn:Hcond.
  - apply andb_true_iff in Hcond as [Hm Hn]. apply negb_true_iff in Hn.
    rewrite (prepareNonce_managed w c s count Hm Hn Hc).
    eexists _, _. split; [reflexivity|]. cbn.
    do 9 (split; [reflexivity|]). split; intros H; congruence.
  - exists c, (nonceTracker s). split.
    + unfold prepareNonce, bind, read. rewrite Hcond.
      unfold ret. now rewrite set_nonceTracker_same.
    + do 9 (split; [reflexivity|]). split; intros _; split; reflexivity.
Qed.

Local Ltac gas_fields :=
  eexists; split; [reflexivity|]; cbn;
  do 8 (split; [reflexivity|]);
  split;
  [ first [ discriminate | intros _; reflexivity ]
  | first [ intros [?|?]; discriminate | intros _; reflexivity ] ].

Lemma prepareGas_fields (w : World) (c : TransactionConfig) (s : State) :
  (∀ c0, ∃ g, w.(provider).(estimateGas) c0 = Returned g) →
  (∃ gp, w.(provider).(getGasPrice) = Returned gp) →
  ∃ c', (do c2 <- prepareGasLimit w c; prepareGasPrice w c2) s = (Returned c', s) ∧
        cid c' = cid c ∧ to c' = to c ∧ data c' = data c ∧ value c' = value c ∧
        nonce c' = nonce c ∧ maxFeePerGas c' = maxFeePerGas c ∧
        maxPriorityFeePerGas c' = maxPriorityFeePerGas c ∧ chainId c' = chainId c ∧
        (truthyZ c.(gasLimit) = true → gasLimit c' = gasLimit c) ∧
        (truthyZ c.(gasPrice) = true ∨ truthyZ c.(maxFeePerGas) = true →
         gasPrice c' = gasPrice c).
Proof.
  intros Hg [gp Hp]. unfold prepareGasLimit, prepareGasPrice, bind, await, ret.
  destruct (truthyZ (gasLimit c)) eqn:E1; cbn [negb].
  - destruct (truthyZ (gasPrice c)) eqn:E2; cbn [negb andb]; [gas_fields|].
    destruct (truthyZ (maxFeePerGas c)) eqn:E3; cbn [negb]; [gas_fields|].
    rewrite Hp. gas_fields.
  - destruct (Hg c) as [g ->]. cbn [with_gasLimit gasPrice maxFeePerGas].
    destruct (truthyZ (gasPrice c)) eqn:E2; cbn [negb andb]; [gas_fields|].
    destruct (truthyZ (maxFeePerGas c)) eqn:E3; cbn [negb]; [gas_fields|].
    rewrite Hp. gas_fields.
Qed.

(** With a provider that answers, the preparation returns; it only fills
    in what is missing: identifier, target, data, value, chain and the
    fee-market fields are never changed, a nonce, a gas limit and a gas
    price other than 0 are kept, no gas price is fetched for an intent
    with a fee-market fee, and the engine's state changes at most in the
    nonce ledger (not at all for an explicit nonce or with nonce
    management off). *)
Theorem prepareTransaction_fills_missing (w : World) (t : QueuedTransaction)
    (s : State) :
  answersPreparation w →
  ∃ c' nt,
    prepareTransaction w t s = (Returned c', set_nonceTracker nt s) ∧
    cid c' = cid t.(config) ∧ to c' = to t.(config) ∧
    data c' = data t.(config) ∧ value c' = value t.(config) ∧
    chainId c' = chainId t.(config) ∧
    maxFeePerGas c' = maxFeePerGas t.(config) ∧
    maxPriorityFeePerGas c' = maxPriorityFeePerGas t.(config) ∧
    (truthyZ t.(config).(nonce) = true →
     nonce c' = nonce t.(config) ∧ nt = s.(nonceTracker)) ∧
    (s.(options).(nonceManager) = false →
     nonce c' = nonce t.(config) ∧ nt = s.(nonceTracker)) ∧
    (truthyZ t.(config).(gasLimit) = true → gasLimit c' = gasLimit t.(config)) ∧
    (truthyZ t.(config).(gasPrice) = true ∨
     truthyZ t.(config).(maxFeePerGas) = true →
     gasPrice c' = gasPrice t.(config)).
Proof.
  intros (Hcount & Hgas & Hprice). rewrite prepareTransaction_steps.
  destruct (prepareNonce_returns w (config t) s Hcount)
    as (c1 & nt & -> & F1 & F2 & F3 & F4 & F5 & F6 & F7 & F8 & F9 & N1 & N2).
  destruct (prepareGas_fields w c1 (set_nonceTracker nt s) Hgas Hprice)
    as (c' & -> & G1 & G2 & G3 & G4 & G5 & G6 & G7 & G8 & L1 & L2).
  exists c', nt. split; [reflexivity|].
  do 7 (split; [congruence|]).
  split; [intros H; destruct (N1 H); split; congruence|].
  split; [intros H; destruct (N2 H); split; congruence|].
  split.
  - intros H. rewrite <- F5. apply L1. now rewrite F5.
  - intros H. rewrite <- F6. apply L2. now rewrite F6, F7.
Qed.

Lemma prepareTransaction_fills_missing_witness :
  ∃ c' nt,
    prepareTransaction (mkWorld (Scenario.answering 7) 0 0%Q)
      (Scenario.record "tx" PENDING 0) (Scenario.running Scenario.oneEnqueued)
    = (Returned c', set_nonceTracker nt (Scenario.running Scenario.oneEnqueued)) ∧
    value c' = Some 1.
Proof.
  destruct (prepareTransaction_fills_missing (mkWorld (Scenario.answering 7) 0 0%Q)
              (Scenario.record "tx" PENDING 0) (Scenario.running Scenario.oneEnqueued))
    as (c' & nt & H & _ & _ & _ & Hv & _).
  - split; [|split]; cbn; eauto.
  - exists c', nt. split; [exact H | exact Hv].
Defined.

(** The ledger hands out increasing nonces: of two preparations in a row
    with automatic nonce management, both without a nonce of their own,
    the second gets a nonce above the first, namely the larger of the
    provider's count and the first nonce plus one.  This holds while the
    provider's counts and the ledger entry are below
    [Number.MAX_SAFE_INTEGER], where the sums [nonce + 1] of the source are
    exact; the second nonce is then a safe integer as well. *)
Theorem nonces_increase (w1 w2 : World) (t1 t2 : QueuedTransaction) (s : State)
    (count1 count2 : Z) :
  s.(options).(nonceManager) = true →
  truthyZ t1.(config).(nonce) = false → truthyZ t2.(config).(nonce) = false →
  answersPreparation w1 → answersPreparation w2 →
  w1.(provider).(getTransactionCount) getAccount = Returned count1 →
  w2.(provider).(getTransactionCount) getAccount = Returned count2 →
  0 <= count1 < maxSafeInteger → count2 < maxSafeInteger →
  (∀ tracked, s.(nonceTracker) !! getAccount = Some tracked →
              tracked < maxSafeInteger) →
  ∃ c1 s1 c2 s2 n1 n2,
    prepareTransaction w1 t1 s = (Returned c1, s1) ∧
    prepareTransaction w2 t2 s1 = (Returned c2, s2) ∧
    nonce c1 = Some n1 ∧ nonce c2 = Some n2 ∧
    count1 <= n1 ∧ n1 < n2 ∧ n2 = Z.max count2 (n1 + 1) ∧
    n2 <= maxSafeInteger.
Proof.
  intros Hm Hn1 Hn2 (_ & Hg1 & Hp1) (_ & Hg2 & Hp2) Hc1 Hc2 Hpos Hsafe2 Hledger.
  set (n1 := Z.max count1 (orZ (nonceTracker s !! getAccount) count1)).
  set (s1 := set_nonceTracker (<[getAccount := n1 + 1]> (nonceTracker s)) s).
  set (n2 := Z.max count2 (orZ (nonceTracker s1 !! getAccount) count2)).
  assert (count1 <= n1) as Hle by (subst n1; lia).
  assert (n1 < maxSafeInteger) as Hn1safe.
  { subst n1. destruct (nonceTracker s !! getAccount) as [tracked|] eqn:Ht;
      cbn [orZ]; [|lia].
    pose proof (Hledger tracked eq_refl). destruct (tracked =? 0); lia. }
  assert (n2 = Z.max count2 (n1 + 1)) as Hn2eq.
  { subst n2 s1. cbn [nonceTracker set_nonceTracker]. rewrite lookup_insert_eq.
    cbn [orZ]. destruct (Z.eqb_spec (n1 + 1) 0); [lia | reflexivity]. }
  destruct (prepareGas_returns w1 (with_nonce n1 (config t1)) s1 Hg1 Hp1)
    as (c1 & E1 & N1).
  destruct (prepareGas_returns w2 (with_nonce n2 (config t2))
              (set_nonceTracker (<[getAccount := n2 + 1]> (nonceTracker s1)) s1)
              Hg2 Hp2) as (c2 & E2 & N2).
  exists c1, s1, c2, (set_nonceTracker (<[getAccount := n2 + 1]> (nonceTracker s1)) s1),
         n1, n2.
  split; [|split; [|split; [|split; [|split; [|split; [|split]]]]]].
  - rewrite prepareTransaction_steps, (prepareNonce_managed w1 _ s count1 Hm Hn1 Hc1).
    exact E1.
  - rewrite prepareTransaction_steps.
    rewrite (prepareNonce_managed w2 _ s1 count2) by (auto; exact Hm).
    exact E2.
  - rewrite N1. reflexivity.
  - rewrite N2. reflexivity.
  - exact Hle.
  - lia.
  - exact Hn2eq.
  - lia.
Qed.

Lemma nonces_increase_witness :
  ∃ c1 s1 c2 s2 n1 n2,
    prepareTransaction (mkWorld (Scenario.answering 7) 0 0%Q)
      (Scenario.record "a" PENDING 0) (Scenario.running Scenario.oneEnqueued)
    = (Returned c1, s1) ∧
    prepareTransaction (mkWorld (Scenario.answering 7) 0 0%Q)
      (Scenario.record "b" PENDING 0) s1 = (Returned c2, s2) ∧
    nonce c1 = Some n1 ∧ nonce c2 = Some n2 ∧
    7 <= n1 ∧ n1 < n2 ∧ n2 = Z.max 7 (n1 + 1) ∧ n2 <= maxSafeInteger.
Proof.
  apply (nonces_increase (mkWorld (Scenario.answering 7) 0 0%Q)
           (mkWorld (Scenario.answering 7) 0 0%Q)).
  - reflexivity.
  - reflexivity.
  - reflexivity.
  - split; [|split]; cbn; eauto.
  - split; [|split]; cbn; eauto.
  - reflexivity.
  - reflexivity.
  - unfold maxSafeInteger. lia.
  - unfold maxSafeInteger. lia.
  - intros tracked Ht. cbn in Ht. rewrite lookup_empty in Ht. discriminate.
Defined.

(** A preparation that fails after the nonce was chosen has used the
    nonce up: when the gas estimate fails, [prepareTransaction] throws, but
    the ledger already points past the nonce it had assigned, although
    nothing was sent with it. *)
Theorem failed_preparation_consumes_nonce (w : World) (t : QueuedTransaction)
    (s : State) (count : Z) (err : Error) :
  s.(options).(nonceManager) = true →
  truthyZ t.(config).(nonce) = false →
  truthyZ t.(config).(gasLimit) = false →
  w.(provider).(getTransactionCount) getAccount = Returned count →
  (∀ c0, w.(provider).(estimateGas) c0 = Thrown err) →
  let n := Z.max count (orZ (s.(nonceTracker) !! getAccount) count) in
  prepareTransaction w t s
  = (Thrown err, set_nonceTracker (<[getAccount := n + 1]> s.(nonceTracker)) s) ∧
  (set_nonceTracker (<[getAccount := n + 1]> s.(nonceTracker)) s).(nonceTracker)
    !! getAccount = Some (n + 1).
Proof.
  intros Hm Hn Hg Hc He n. split.
  - rewrite prepareTransaction_steps, (prepareNonce_managed w _ s count Hm Hn Hc).
    fold n. unfold bind, prepareGasLimit. cbn [with_nonce gasLimit].
    rewrite Hg. cbn [negb]. unfold bind, await. now rewrite He.
  - cbn. apply lookup_insert_eq.
Qed.

Lemma failed_preparation_consumes_nonce_witness :
  prepareTransaction
    (mkWorld (mkProvider (λ _, Returned "0xhash") (λ _, Returned 7)
                (λ _, Thrown "execution reverted") (Returned 1)
                (λ _ _, Thrown "unused")) 0 0%Q)
    (Scenario.record "tx" PENDING 0) (Scenario.running Scenario.oneEnqueued)
  = (Thrown "execution reverted",
     set_nonceTracker (<[getAccount := 8]> ∅) (Scenario.running Scenario.oneEnqueued)).
Proof.
  refine (proj1 (failed_preparation_consumes_nonce
            (mkWorld (mkProvider (λ _, Returned "0xhash") (λ _, Returned 7)
                        (λ _, Thrown "execution reverted") (Returned 1)
                        (λ _ _, Thrown "unused")) 0 0%Q)
            (Scenario.record "tx" PENDING 0) (Scenario.running Scenario.oneEnqueued)
            7 "execution reverted" eq_refl eq_refl eq_refl eq_refl (λ _, eq_refl))).
Defined.



End EnginePaths.

(** ** Execution engine: one execution from start to end *)

Section OneExecution.

Import TransactionQueue TransactionExecutor Props MoreProps.

Lemma updateStatus_lookup (w : World) (s : State) (i : string)
    (st : TransactionStatus) (t : QueuedTransaction) :
  s.(queue).(TransactionQueue.queue) !! i = Some t →
  (updateStatus w i st s).(queue).(TransactionQueue.queue) !! i
  = Some (stamp w.(now) st (set_status st t)).
Proof. intros Hq. rewrite (updateStatus_present w s i st t Hq). apply lookup_insert_eq. Qed.

Lemma modifyRecord_lookup (s : State) (i : string)
    (f : QueuedTransaction → QueuedTransaction) (t : QueuedTransaction) :
  s.(queue).(TransactionQueue.queue) !! i = Some t →
  (modifyRecord i f s).(queue).(TransactionQueue.queue) !! i = Some (f t).
Proof. intros Hq. unfold modifyRecord. cbn. now rewrite lookup_alter_eq, Hq. Qed.

Lemma prepareTransaction_returns (w : World) (t : QueuedTransaction) (s : State) :
  answersPreparation w →
  ∃ c nt, prepareTransaction w t s = (Returned c, set_nonceTracker nt s).
Proof.
  intros (Hcount & Hgas & Hprice). rewrite prepareTransaction_steps.
  destruct (prepareNonce_returns w (config t) s Hcount) as (c1 & nt & -> & _).
  destruct (prepareGas_returns w c1 (set_nonceTracker nt s) Hgas Hprice)
    as (c' & -> & _).
  eauto.
Qed.

(** The first half of the body: the record enters the in-flight set,
    becomes Executing, the started notification goes out and the intent is
    prepared. *)
Lemma executeBody_prepared (w : World) (i : string) (s : State)
    (t : QueuedTransaction) :
  s.(queue).(TransactionQueue.queue) !! i = Some t →
  answersPreparation w →
  ∃ c nt,
    let s3 := emit (TransactionStarted i)
                (updateStatus w i EXECUTING
                   (set_currentlyExecuting ({[i]} ∪ s.(currentlyExecuting)) s)) in
    let s4 := set_nonceTracker nt s3 in
    s4.(queue).(TransactionQueue.queue) !! i
      = Some (set_executedAt w.(now) (set_status EXECUTING t)) ∧
    executeBody w i s =
    (do h <- await (w.(provider).(sendTransaction) c);
     do_ update (modifyRecord i (set_hash h));
     do_ update (emit (TransactionSent i h));
     do_ update (updateStatus w i CONFIRMING);
     do cb <- read (λ s, s.(options).(confirmationBlocks));
     do r <- await (w.(provider).(waitForTransaction) h cb);
     do_ update (modifyRecord i (set_receipt r));
     do_ update (updateStatus w i CONFIRMED);
     update (emit (TransactionConfirmed i r))) s4.
Proof.
  intros Hq Hans.
  set (s1 := set_currentlyExecuting ({[i]} ∪ currentlyExecuting s) s).
  set (s3 := emit (TransactionStarted i) (updateStatus w i EXECUTING s1)).
  assert (s3.(queue).(TransactionQueue.queue) !! i
          = Some (set_executedAt w.(now) (set_status EXECUTING t))) as H3.
  { subst s3. cbn [emit queue]. now rewrite (updateStatus_lookup w s1 i EXECUTING t). }
  destruct (prepareTransaction_returns w (set_executedAt (now w) (set_status EXECUTING t))
              s3 Hans) as (c & nt & Hprep).
  exists c, nt. cbv zeta. fold s1. fold s3. split; [exact H3|].
  unfold executeBody.
  rewrite (bind_returned _ _ s s1 tt) by reflexivity.
  rewrite (bind_returned _ _ s1 (updateStatus w i EXECUTING s1) tt) by reflexivity.
  rewrite (bind_returned _ _ (updateStatus w i EXECUTING s1) s3 tt) by reflexivity.
  rewrite (bind_returned _ _ s3 s3 (Some (set_executedAt (now w) (set_status EXECUTING t))))
    by (unfold read, get; now rewrite H3).
  now rewrite (bind_returned _ _ s3 _ c Hprep).
Qed.

(** The successful path: when the provider answers the preparation,
    accepts the transaction and confirms it, the record ends Confirmed, with
    the hash, the receipt and both timestamps, and is otherwise as
    submitted; the notifications are started, sent and confirmed, in this
    order, and the record has left the in-flight set. *)
Theorem executeTransaction_confirms (w : World) (i : string) (s : State)
    (t : QueuedTransaction) (h : Hash) (r : TransactionReceipt) :
  s.(queue).(TransactionQueue.queue) !! i = Some t →
  answersPreparation w →
  (∀ c, w.(provider).(sendTransaction) c = Returned h) →
  (∀ cb, w.(provider).(waitForTransaction) h cb = Returned r) →
  let s' := executeTransaction w i s in
  (∃ executed confirmed,
     s'.(queue).(TransactionQueue.queue) !! i
     = Some (mkTx t.(id) t.(config) CONFIRMED t.(priority) t.(dependencies)
                  t.(retryCount) t.(maxRetries) t.(createdAt) (Some executed)
                  (Some confirmed) (Some h) (Some r) t.(error) t.(metadata))) ∧
  s'.(emitted) = s.(emitted) ++ [TransactionStarted i; TransactionSent i h;
                                 TransactionConfirmed i r] ∧
  s'.(currentlyExecuting) = s.(currentlyExecuting) ∖ {[i]}.
Proof.
  intros Hq Hans Hsend Hwait. cbv zeta.
  destruct (executeBody_prepared w i s t Hq Hans) as (c & nt & H4 & Hbody).
  cbv zeta in H4, Hbody. unfold executeTransaction. rewrite Hbody. clear Hbody.
  set (s4 := set_nonceTracker nt _) in *.
  rewrite (bind_returned _ _ s4 s4 h) by (unfold await; now rewrite Hsend).
  set (s5 := modifyRecord i (set_hash h) s4).
  rewrite (bind_returned _ _ s4 s5 tt) by reflexivity.
  set (s6 := emit (TransactionSent i h) s5).
  rewrite (bind_returned _ _ s5 s6 tt) by reflexivity.
  set (s7 := updateStatus w i CONFIRMING s6).
  rewrite (bind_returned _ _ s6 s7 tt) by reflexivity.
  rewrite (bind_returned _ _ s7 s7 (confirmationBlocks (options s7))) by reflexivity.
  rewrite (bind_returned _ _ s7 s7 r) by (unfold await; now rewrite Hwait).
  set (s8 := modifyRecord i (set_receipt r) s7).
  rewrite (bind_returned _ _ s7 s8 tt) by reflexivity.
  set (s9 := updateStatus w i CONFIRMED s8).
  rewrite (bind_returned _ _ s8 s9 tt) by reflexivity.
  unfold update. cbn [set_currentlyExecuting queue emitted currentlyExecuting emit].
  assert (s5.(queue).(TransactionQueue.queue) !! i
          = Some (set_hash h (set_executedAt (now w) (set_status EXECUTING t)))) as H5
    by (subst s5; now apply modifyRecord_lookup).
  assert (s7.(queue).(TransactionQueue.queue) !! i
          = Some (stamp (now w) CONFIRMING
                    (set_status CONFIRMING
                       (set_hash h (set_executedAt (now w) (set_status EXECUTING t))))))
    as H7 by (subst s7 s6; now apply updateStatus_lookup).
  assert (s8.(queue).(TransactionQueue.queue) !! i = Some _) as H8
    by (subst s8; apply modifyRecord_lookup; exact H7).
  split; [|split].
  - exists (now w), (now w).
    subst s9. rewrite (updateStatus_lookup w s8 i CONFIRMED _ H8). reflexivity.
  - subst s9 s8 s7 s6 s5 s4. cbn. rewrite <- !app_assoc. reflexivity.
  - subst s9 s8 s7 s6 s5 s4. cbn.
    now rewrite difference_union_distr_l_L, difference_diag_L, union_empty_l_L.
Qed.

Lemma executeTransaction_confirms_witness :
  status <$> (executeTransaction (mkWorld (Scenario.answering 7) 0 0%Q) "tx"
                (Scenario.running Scenario.oneEnqueued))
               .(queue).(TransactionQueue.queue) !! "tx" = Some CONFIRMED.
Proof.
  destruct (executeTransaction_confirms (mkWorld (Scenario.answering 7) 0 0%Q)
              "tx" (Scenario.running Scenario.oneEnqueued)
              (Scenario.retryingRecord None) "0xhash" (mkReceipt 21000 1))
    as ((executed & confirmed & H) & _).
  - vm_compute. reflexivity.
  - split; [|split]; cbn; eauto.
  - intros c. reflexivity.
  - intros cb. reflexivity.
  - rewrite H. reflexivity.
Defined.

(** The terminal path: when the provider refuses the transaction with an
    error that is not to be retried, the record ends Failed, with the
    error and the time of the attempt; the notifications are started and
    failed, and the record has left the in-flight set. *)
Theorem executeTransaction_fails (w : World) (i : string) (s : State)
    (t : QueuedTransaction) (err : Error) :
  s.(queue).(TransactionQueue.queue) !! i = Some t →
  t.(id) = i →
  answersPreparation w →
  (∀ c, w.(provider).(sendTransaction) c = Thrown err) →
  RetryManager.shouldRetry t err = false →
  let s' := executeTransaction w i s in
  (∃ executed,
     s'.(queue).(TransactionQueue.queue) !! i
     = Some (mkTx t.(id) t.(config) FAILED t.(priority) t.(dependencies)
                  t.(retryCount) t.(maxRetries) t.(createdAt) (Some executed)
                  t.(confirmedAt) t.(hash) t.(receipt) (Some err) t.(metadata))) ∧
  s'.(emitted) = s.(emitted) ++ [TransactionStarted i; TransactionFailed i err] ∧
  s'.(currentlyExecuting) = s.(currentlyExecuting) ∖ {[i]}.
Proof.
  intros Hq Hid Hans Hsend Hr. cbv zeta.
  destruct (executeBody_prepared w i s t Hq Hans) as (c & nt & H4 & Hbody).
  cbv zeta in H4, Hbody. unfold executeTransaction. rewrite Hbody. clear Hbody.
  set (s4 := set_nonceTracker nt _) in *.
  rewrite (bind_thrown _ _ s4 s4 err) by (unfold await; now rewrite Hsend).
  set (t1 := set_executedAt (now w) (set_status EXECUTING t)) in *.
  assert (RetryManager.shouldRetry t1 err = false) as Hr1 by exact Hr.
  assert (id t1 = i) as Hid1 by exact Hid.
  destruct (handleTransactionError_terminal w s4 i err t1 H4 Hid1 Hr1) as [Hrec Hev].
  cbn [set_currentlyExecuting queue emitted currentlyExecuting].
  split; [|split].
  - exists (now w). rewrite Hrec. reflexivity.
  - rewrite Hev. subst s4. cbn. rewrite <- app_assoc. reflexivity.
  - assert (turnOf i s4 (handleTransactionError w i err s4)) as (_ & Hce & _).
    { apply handleTransactionError_turn. intros t0 Ht0. congruence. }
    rewrite Hce. subst s4. cbn.
    now rewrite difference_union_distr_l_L, difference_diag_L, union_empty_l_L.
Qed.

Lemma executeTransaction_fails_witness :
  status <$> (executeTransaction (Scenario.alwaysFailing "insufficient funds" O) "tx"
                (Scenario.running Scenario.oneEnqueued))
               .(queue).(TransactionQueue.queue) !! "tx" = Some FAILED.
Proof.
  destruct (executeTransaction_fails (Scenario.alwaysFailing "insufficient funds" O)
              "tx" (Scenario.running Scenario.oneEnqueued)
              (Scenario.retryingRecord None) "insufficient funds")
    as ((executed & H) & _).
  - vm_compute. reflexivity.
  - reflexivity.
  - split; [|split]; cbn; eauto.
  - intros c. reflexivity.
  - vm_compute. reflexivity.
  - rewrite H. reflexivity.
Defined.

End OneExecution.

(** ** Dependencies: release and starvation *)

Section Dependencies.

Import TransactionQueue TransactionExecutor Props MoreProps.

(** Release: once a dependency is marked Confirmed, or is cancelled, a
    Pending or Queued record whose other dependencies are satisfied is
    eligible. *)
Theorem dependency_release (now : Z) (q : TransactionQueue.State) (a b : string)
    (ta tb : QueuedTransaction) :
  q.(TransactionQueue.queue) !! a = Some ta → a ≠ b →
  q.(TransactionQueue.queue) !! b = Some tb →
  tb.(status) = PENDING ∨ tb.(status) = QUEUED →
  (∀ deps d, q.(dependencyGraph) !! b = Some deps → d ∈ deps → d ≠ a →
             satisfied q d) →
  eligible (TransactionQueue.updateStatus now a CONFIRMED q).2 b tb ∧
  (ta.(status) ≠ CONFIRMED → eligible (cancel a q).2 b tb).
Proof.
  intros Ha Hab Hb Hs Hdeps.
  assert (∀ ta' : QueuedTransaction,
            ta'.(status) = CONFIRMED ∨ ta'.(status) = CANCELLED →
            eligible (mkQueue (<[a := ta']> q.(TransactionQueue.queue))
                              q.(executionOrder) q.(TransactionQueue.options)
                              q.(dependencyGraph)) b tb) as Hgen.
  { intros ta' Hst. split; [|split; [exact Hs|]].
    - cbn. now rewrite lookup_insert_ne.
    - intros deps d Hg Hd depTx Hl. cbn in Hg, Hl.
      destruct (decide (a = d)) as [<- | Hne].
      + rewrite lookup_insert_eq in Hl. injection Hl as <-. exact Hst.
      + rewrite lookup_insert_ne in Hl by exact Hne.
        apply (Hdeps deps d Hg Hd); [congruence | exact Hl]. }
  split.
  - unfold TransactionQueue.updateStatus. rewrite Ha. cbn [snd].
    apply Hgen. now left.
  - intros Hnc. rewrite (cancel_other q a ta Ha Hnc). cbn [snd].
    apply Hgen. now right.
Qed.

Lemma dependency_release_witness :
  eligible
    (TransactionQueue.updateStatus 1 "a" CONFIRMED
       (add 0 "g" (Scenario.transfer "b") (Scenario.dependingOn ["a"])
          (add 0 "g" (Scenario.transfer "a") Scenario.noOptions
             (TransactionQueue.create Scenario.defaults)).2).2).2
    "b"
    (mkTx "b" (Scenario.transfer "b") PENDING 0 ["a"] 0 3 0
          None None None None None None).
Proof.
  refine (proj1 (dependency_release 1 _ "a" "b" (Scenario.record "a" PENDING 0) _ _ _ _ _ _)).
  - vm_compute. reflexivity.
  - discriminate.
  - vm_compute. reflexivity.
  - left. reflexivity.
  - intros deps d Hg Hd Hne. unfold add in Hg. cbn [snd fst dependencyGraph] in Hg.
    cbn in Hg. rewrite lookup_insert_eq in Hg. injection Hg as <-.
    rewrite union_empty_r_L in Hd. apply elem_of_singleton in Hd.
    exfalso. apply Hne. exact Hd.
Defined.

Lemma schedule_graph (s s' : State) :
  schedule s' = schedule s →
  s'.(queue).(dependencyGraph) = s.(queue).(dependencyGraph).
Proof. unfold schedule. intros H. now injection H. Qed.

(** A member of a stuck set is not what [getNext] returns. *)
Lemma stuck_not_next (ids : gset string) (q : TransactionQueue.State)
    (t : QueuedTransaction) :
  (∀ k t, q.(TransactionQueue.queue) !! k = Some t → t.(id) = k) →
  stuck ids q → getNext q = Some t → t.(id) ∉ ids.
Proof.
  intros Hid Hstuck Hnext Hin.
  apply getNextFrom_Some in Hnext as (n & i & _ & (Hi & Hs & Hd) & _).
  rewrite (Hid i t Hi) in Hin.
  destruct (Hstuck i Hin) as (t0 & Ht0 & Hcase).
  rewrite Hi in Ht0. injection Ht0 as <-.
  destruct Hcase as [Hfin | (deps & d & td & Hg & Hdin & _ & Htd & Hb)].
  - destruct Hs as [Hs | Hs], Hfin as [? | [? | [? | ?]]]; congruence.
  - pose proof (Hd deps d Hg Hdin td Htd) as Hsat.
    apply blocks_false in Hsat. congruence.
Qed.

Lemma processQueue_stuck (ids : gset string) (n : nat) :
  ∀ (ws : nat → World) (s : State),
    (∀ k t, s.(queue).(TransactionQueue.queue) !! k = Some t → t.(id) = k) →
    stuck ids s.(queue) →
    (∀ k, k ∈ ids →
          (processQueue n ws s).(queue).(TransactionQueue.queue) !! k
          = s.(queue).(TransactionQueue.queue) !! k) ∧
    ∃ evs, (processQueue n ws s).(emitted) = s.(emitted) ++ evs ∧
           ∀ k, k ∈ ids → Forall (λ e, ¬ about k e) evs.
Proof.
  induction n as [|n IH]; intros ws s Hid Hstuck; cbn [processQueue].
  - assert ((if isRunning s then s else s) = s) as -> by now destruct (isRunning s).
    split; [reflexivity|]. exists []. rewrite app_nil_r. split; [reflexivity|].
    intros k _. constructor.
  - destruct (isRunning s).
    2:{ split; [reflexivity|]. exists []. rewrite app_nil_r. split; [reflexivity|].
        intros k _. constructor. }
    destruct (processStep_turn (ws O) s Hid)
      as (Hsched & Hid1 & Hothers & Hnone & evs & Hev & Hcase).
    set (s1 := processStep (ws O) s) in *.
    assert (∀ k, k ∈ ids → s1.(queue).(TransactionQueue.queue) !! k
                           = s.(queue).(TransactionQueue.queue) !! k) as Hkeep.
    { intros k Hk. destruct (getNext (queue s)) as [t|] eqn:Hnext.
      - apply Hothers; [discriminate|]. intros t0 [= <-] ->.
        exact (stuck_not_next ids (queue s) t Hid Hstuck Hnext Hk).
      - now rewrite Hnone. }
    assert (stuck ids (queue s1)) as Hstuck1.
    { intros k Hk. destruct (Hstuck k Hk) as (t & Ht & Hc).
      exists t. rewrite (Hkeep k Hk). split; [exact Ht|].
      destruct Hc as [Hfin | (deps & d & td & Hg & Hdin & Hds & Htd & Hb)];
        [now left|].
      right. exists deps, d, td. rewrite (schedule_graph _ _ Hsched), (Hkeep d Hds).
      auto. }
    destruct (IH (λ k, ws (S k)) s1 Hid1 Hstuck1) as (Hrec & evs1 & Hev1 & Hno1).
    split.
    + intros k Hk. rewrite (Hrec k Hk). now apply Hkeep.
    + exists (evs ++ evs1). split; [rewrite Hev1, Hev; apply eq_sym, app_assoc|].
      intros k Hk. apply Forall_app. split; [|now apply Hno1].
      destruct (getNext (queue s)) as [t|] eqn:Hnext.
      * eapply Forall_impl; [exact Hcase|]. intros e He Hke.
        apply (stuck_not_next ids (queue s) t Hid Hstuck Hnext).
        destruct e; cbn in He, Hke; try contradiction; congruence.
      * destruct Hcase as [-> | ->]; [constructor|].
        constructor; [intros H; exact H | constructor].
Qed.

(** Starvation, for the loop with at most one execution at a time
    ([maxConcurrent] at most 1, nothing in flight at the start): the
    records of a stuck set (finished records, and records that wait for a
    member of the set, as in a dependency cycle, for a record that depends
    on itself, or behind a Failed record) are never touched by the loop:
    however long it runs and whatever the provider answers, their stored
    records stay as they are and no notification is about them. *)
Theorem stuck_records_starve (ids : gset string) (n : nat) (ws : nat → World)
    (s : State) :
  s.(options).(maxConcurrent) <= 1 →
  s.(currentlyExecuting) = ∅ →
  (∀ k t, s.(queue).(TransactionQueue.queue) !! k = Some t → t.(id) = k) →
  stuck ids s.(queue) →
  (∀ k, k ∈ ids →
        (processQueue n ws s).(queue).(TransactionQueue.queue) !! k
        = s.(queue).(TransactionQueue.queue) !! k) ∧
  ∃ evs, (processQueue n ws s).(emitted) = s.(emitted) ++ evs ∧
         ∀ k, k ∈ ids → Forall (λ e, ¬ about k e) evs.
Proof. intros _ _. apply processQueue_stuck. Qed.

Lemma stuck_records_starve_witness :
  (processQueue 3 (λ _, mkWorld (Scenario.answering 7) 0 0%Q)
     (Scenario.running
        (add 0 "g" (Scenario.transfer "a") (Scenario.dependingOn ["a"])
           (TransactionQueue.create Scenario.defaults)).2))
    .(queue).(TransactionQueue.queue) !! "a"
  = (Scenario.running
       (add 0 "g" (Scenario.transfer "a") (Scenario.dependingOn ["a"])
          (TransactionQueue.create Scenario.defaults)).2)
      .(queue).(TransactionQueue.queue) !! "a".
Proof.
  refine (proj1 (stuck_records_starve {["a"]} 3
                   (λ _, mkWorld (Scenario.answering 7) 0 0%Q)
                   (Scenario.running
                      (add 0 "g" (Scenario.transfer "a") (Scenario.dependingOn ["a"])
                         (TransactionQueue.create Scenario.defaults)).2) _ _ _ _) "a" _).
  - vm_compute. discriminate.
  - reflexivity.
  - intros k t Ht. unfold Scenario.running, add in Ht.
    cbn [snd fst queue set_isRunning create TransactionQueue.queue] in Ht.
    apply lookup_insert_Some in Ht as [[<- <-] | [_ Ht]]; [reflexivity|].
    cbn in Ht. rewrite lookup_empty in Ht. discriminate.
  - intros k Hk. apply elem_of_singleton in Hk as ->.
    unfold Scenario.running, add.
    cbn [snd fst queue set_isRunning create TransactionQueue.queue dependencyGraph].
    eexists. split; [apply lookup_insert_eq|]. right.
    exists {["a"]}, "a". eexists. split.
    + cbn. rewrite lookup_insert_eq. now rewrite union_empty_r_L.
    + split; [now apply elem_of_singleton|]. split; [now apply elem_of_singleton|].
      split; [apply lookup_insert_eq | reflexivity].
  - now apply elem_of_singleton.
Defined.

End Dependencies.

(** ** Manual retry on reachable states *)

Section ManualRetry.

Import TransactionQueue TransactionExecutor Props MoreProps Reachability.

Lemma countersAtZero_insert (q : TransactionQueue.State) (i : string)
    (t : QueuedTransaction) (order : list string) (o : TransactionQueueOptions)
    (g : gmap string (gset string)) :
  countersAtZero q → t.(id) = i → t.(retryCount) = 0 →
  countersAtZero (mkQueue (<[i := t]> q.(TransactionQueue.queue)) order o g).
Proof.
  intros Hq Hid Hrc k t' Hl. cbn in Hl.
  apply lookup_insert_Some in Hl as [[<- <-] | [_ Hl]]; [auto | now apply Hq].
Qed.

Lemma countersAtZero_applyCall (call : QueueCall) (q : TransactionQueue.State) :
  countersAtZero q → countersAtZero (applyCall call q).
Proof.
  intros Hq. destruct call as [now g c o | i p | i | i | now i st]; cbn [applyCall].
  - unfold add. cbn [snd]. now apply countersAtZero_insert.
  - unfold reorder. destruct (TransactionQueue.queue q !! i) as [t|] eqn:Hi;
      [|exact Hq].
    cbn [snd]. apply countersAtZero_insert; [exact Hq | |]; apply (Hq i t Hi).
  - unfold remove. destruct (TransactionQueue.queue q !! i) as [t|] eqn:Hi;
      [|exact Hq].
    destruct (status_eqb (status t) EXECUTING || status_eqb (status t) CONFIRMING);
      [exact Hq|].
    cbn [snd]. intros k t' Hl. cbn in Hl.
    apply lookup_delete_Some in Hl as [_ Hl]. now apply Hq.
  - unfold cancel. destruct (TransactionQueue.queue q !! i) as [t|] eqn:Hi;
      [|exact Hq].
    destruct (status_eqb (status t) CONFIRMED); [exact Hq|].
    cbn [snd]. apply countersAtZero_insert; [exact Hq | |]; apply (Hq i t Hi).
  - unfold TransactionQueue.updateStatus.
    destruct (TransactionQueue.queue q !! i) as [t|] eqn:Hi; [|exact Hq].
    cbn [snd]. destruct (Hq i t Hi) as [Hid Hrc].
    apply countersAtZero_insert; [exact Hq | |]; destruct st; assumption.
Qed.

Lemma fold_insert_from (l : list QueuedTransaction) :
  ∀ (m0 : gmap string QueuedTransaction) (k : string) (t : QueuedTransaction),
    fold_left (λ m tx, <[tx.(id) := tx]> m) l m0 !! k = Some t →
    (t ∈ l ∧ t.(id) = k) ∨ m0 !! k = Some t.
Proof.
  induction l as [|x l IH]; intros m0 k t H; cbn [fold_left] in H; [now right|].
  destruct (IH _ _ _ H) as [[Ht Hid] | Hl].
  - left. split; [now right | exact Hid].
  - apply lookup_insert_Some in Hl as [[<- <-] | [_ Hl]]; [|now right].
    left. split; [left | reflexivity].
Qed.

Lemma countersAtZero_clear (keys : list string) (q : TransactionQueue.State) :
  countersAtZero q → countersAtZero (QueueViews.clear keys q).
Proof.
  intros Hq k t Hl. unfold QueueViews.clear in Hl. cbn in Hl.
  apply fold_insert_from in Hl as [[Ht Hid] | Hl];
    [|rewrite lookup_empty in Hl; discriminate].
  split; [exact Hid|].
  unfold QueueViews.getExecuting in Ht. apply elem_of_filter_list in Ht as [Ht _].
  unfold QueueViews.getAll in Ht. apply list_elem_of_omap in Ht as (k' & _ & Hk').
  apply (Hq k' t Hk').
Qed.

Lemma countersAtZero_schedule (s s' : State) :
  schedule s' = schedule s →
  countersAtZero s.(queue) → countersAtZero s'.(queue).
Proof.
  intros Hs Hq k t' Hl. pose proof (schedule_lookup s s' k Hs) as H.
  rewrite Hl in H.
  destruct (TransactionQueue.queue (queue s) !! k) as [t|] eqn:Hk; [|contradiction].
  destruct H as [H _]. unfold submitted in H. destruct (Hq k t Hk) as [Hid Hrc].
  split; congruence.
Qed.

Lemma countersAtZero_processQueue (n : nat) :
  ∀ (ws : nat → World) (s : State),
    countersAtZero s.(queue) → countersAtZero (processQueue n ws s).(queue).
Proof.
  induction n as [|n IH]; intros ws s Hq; cbn [processQueue].
  - now destruct (isRunning s).
  - destruct (isRunning s); [|exact Hq].
    apply IH. destruct (processStep_turn (ws O) s) as (Hs & _).
    + intros k t Hk. apply (Hq k t Hk).
    + exact (countersAtZero_schedule _ _ Hs Hq).
Qed.

Lemma countersAtZero_write (wr : EngineWrite) (s : State) :
  countersAtZero s.(queue) → countersAtZero (applyWrite wr s).(queue).
Proof.
  intros Hq. destruct wr; cbn [applyWrite]; try exact Hq.
  - apply (countersAtZero_applyCall (CallUpdateStatus (now w) i st) _ Hq).
  - apply (countersAtZero_schedule s); [|exact Hq].
    apply (turnOf_modifyRecord i). intros t. split; reflexivity.
  - apply (countersAtZero_schedule s); [|exact Hq].
    apply (turnOf_modifyRecord i). intros t. split; reflexivity.
  - apply (countersAtZero_schedule s); [|exact Hq].
    apply (turnOf_modifyRecord i). intros t. split; reflexivity.
Qed.

(** The counters of a reachable state are all 0: the only write of a
    stored retry counter is the 0 that [add] puts into a new record. *)
Lemma reachable_countersAtZero (s : State) :
  reachable s → countersAtZero s.(queue).
Proof.
  induction 1 as [qo o | call s _ IH | keys s _ IH | n ws s _ IH | s _ IH
                  | n ws s _ IH | w i s _ IH | i s _ IH | w i s _ IH | wr s _ IH].
  - intros k t Hl. cbn in Hl. rewrite lookup_empty in Hl. discriminate.
  - now apply countersAtZero_applyCall.
  - now apply countersAtZero_clear.
  - unfold start. destruct (isRunning s); [exact IH|].
    now apply countersAtZero_processQueue.
  - exact IH.
  - now apply countersAtZero_processQueue.
  - destruct (executeTransaction_turn w i s) as (Hs & _).
    + intros t Hl. apply (IH i t Hl).
    + exact (countersAtZero_schedule _ _ Hs IH).
  - unfold cancelTransaction, get.
    destruct (TransactionQueue.queue (queue s) !! i) as [t|] eqn:Hi; [|exact IH].
    destruct (bool_decide (i ∈ currentlyExecuting s)); [exact IH|].
    pose proof (countersAtZero_applyCall (CallCancel i) _ IH) as Hc.
    cbn [applyCall] in Hc.
    destruct (cancel i (queue s)) as [[|] q'] eqn:Hcancel; cbn [snd] in *; exact Hc.
  - unfold retryTransaction, get.
    destruct (TransactionQueue.queue (queue s) !! i) as [t|] eqn:Hi; [|exact IH].
    destruct (negb (status_eqb (status t) FAILED)); [exact IH|].
    cbn [snd].
    apply (countersAtZero_applyCall (CallUpdateStatus (now w) _ PENDING) _ IH).
  - now apply countersAtZero_write.
Qed.

(** C4: in every reachable state, [retryTransaction] on a Failed record
    returns success and leaves the stored record Pending with retry counter
    0, every other field and every other record as it was; on a record that
    is not Failed, or on an unknown identifier, it returns failure and
    changes nothing. *)
Theorem retryTransaction_resets (w : World) (s : State) (i : string) :
  reachable s →
  (∀ t, s.(queue).(TransactionQueue.queue) !! i = Some t → t.(status) = FAILED →
        (retryTransaction w i s).1 = true ∧
        (retryTransaction w i s).2.(queue).(TransactionQueue.queue) !! i
          = Some (set_retryCount 0 (set_status PENDING t)) ∧
        ∀ k, k ≠ i →
             (retryTransaction w i s).2.(queue).(TransactionQueue.queue) !! k
             = s.(queue).(TransactionQueue.queue) !! k) ∧
  ((∀ t, s.(queue).(TransactionQueue.queue) !! i = Some t → t.(status) ≠ FAILED) →
   retryTransaction w i s = (false, s)).
Proof.
  intros Hr. pose proof (reachable_countersAtZero s Hr) as Hz. split.
  - intros t Hi Hf. destruct (Hz i t Hi) as [Hid Hrc].
    destruct (retryTransaction_failed w s i t Hi Hid Hf) as [H1 H2].
    split; [exact H1|]. split.
    + rewrite H2. f_equal. destruct t. cbn in *. now subst.
    + intros k Hk. unfold retryTransaction, get. rewrite Hi, Hf.
      cbn [status_eqb negb snd RetryManager.resetRetryCount set_retryCount id].
      rewrite Hid, (updateStatus_present w s i PENDING t Hi).
      now apply lookup_insert_ne.
  - intros Hn. destruct (TransactionQueue.queue (queue s) !! i) as [t|] eqn:Hi.
    + apply (retryTransaction_not_failed w s i t Hi). now apply Hn.
    + unfold retryTransaction, get. now rewrite Hi.
Qed.

Lemma retryTransaction_resets_witness :
  let s := start 1 (Scenario.alwaysFailing "insufficient funds")
             (set_queue
                (applyCall (CallAdd 0 "g" (Scenario.transfer "tx") Scenario.noOptions)
                   (TransactionQueue.create Scenario.defaults))
                (create (TransactionQueue.create Scenario.defaults) Scenario.defaults)) in
  status <$> s.(queue).(TransactionQueue.queue) !! "tx" = Some FAILED ∧
  (retryTransaction (mkWorld (Scenario.answering 7) 0 0%Q) "tx" s).1 = true.
Proof.
  cbv zeta. split; [vm_compute; reflexivity|].
  refine (proj1 (proj1 (retryTransaction_resets (mkWorld (Scenario.answering 7) 0 0%Q)
                          _ "tx" _)
                   (mkTx "tx" (Scenario.transfer "tx") FAILED 0 [] 0 3 0 (Some 0)
                         None None None (Some "insufficient funds") None) _ _)).
  - apply reachable_start.
    apply (reachable_call (CallAdd 0 "g" (Scenario.transfer "tx") Scenario.noOptions)
             (create (TransactionQueue.create Scenario.defaults) Scenario.defaults)).
    apply reachable_new.
  - vm_compute. reflexivity.
  - reflexivity.
Defined.

End ManualRetry.

(** ** Executions that overlap *)

Section OverlappingExecutions.

Import TransactionQueue Props MoreProps Reachability Overlap.

(** *** The tree of a method and the method run in one go *)

Lemma runAlone_andThen {A B : Type} (m : Async A) (h : Outcome A → Async B) :
  ∀ s, runAlone (andThen m h) s
       = runAlone (h (runAlone m s).1) (runAlone m s).2.
Proof.
  induction m as [o | k IH | wr k IH | k IH]; intros s; cbn; auto.
Qed.

Lemma runAlone_bindA {A B : Type} (m : Async A) (h : A → Async B)
    (s : TransactionExecutor.State) :
  runAlone (bindA m h) s
  = TransactionExecutor.bind (runAlone m) (λ a, runAlone (h a)) s.
Proof.
  unfold bindA, TransactionExecutor.bind. rewrite runAlone_andThen.
  destruct (runAlone m s) as [[a | e] s']; reflexivity.
Qed.

Lemma runAlone_awaitA {A : Type} (m : Async A) (s : TransactionExecutor.State) :
  runAlone (awaitA m) s = runAlone m s.
Proof.
  unfold awaitA. rewrite runAlone_andThen. cbn. now destruct (runAlone m s).
Qed.

Lemma bind_ext {A B : Type} (m m' : TransactionExecutor.M A)
    (k k' : A → TransactionExecutor.M B) (s : TransactionExecutor.State) :
  m s = m' s → (∀ a s', k a s' = k' a s') →
  TransactionExecutor.bind m k s = TransactionExecutor.bind m' k' s.
Proof.
  intros Hm Hk. unfold TransactionExecutor.bind. rewrite Hm.
  destruct (m' s) as [[a | e] s']; [apply Hk | reflexivity].
Qed.

Lemma runAlone_awaitP {A B : Type} (o : Outcome A) (h : A → Async B)
    (k : A → TransactionExecutor.M B) (s : TransactionExecutor.State) :
  (∀ a s', runAlone (h a) s' = k a s') →
  runAlone (bindA (awaitP o) h) s
  = TransactionExecutor.bind (TransactionExecutor.await o) k s.
Proof. intros Hk. rewrite runAlone_bindA. now apply bind_ext. Qed.

Lemma runAlone_prepareNonce (w : TransactionExecutor.World) (c : TransactionConfig)
    (s : TransactionExecutor.State) :
  runAlone (Overlap.prepareNonce w c) s = TransactionExecutor.prepareNonce w c s.
Proof.
  unfold Overlap.prepareNonce, TransactionExecutor.prepareNonce.
  cbn [runAlone].
  rewrite (bind_returned _ _ s s (nonceManager (TransactionExecutor.options s)))
    by reflexivity.
  destruct (nonceManager _ && negb (truthyZ (nonce c))); [|reflexivity].
  cbn [runAlone]. apply runAlone_awaitP. intros currentNonce s'. cbn [runAlone].
  rewrite (bind_returned _ _ s' s'
             (TransactionExecutor.nonceTracker s' !! TransactionExecutor.getAccount))
    by reflexivity.
  now rewrite (bind_returned _ _ s' _ tt) by reflexivity.
Qed.

Lemma runAlone_prepareGasLimit (w : TransactionExecutor.World)
    (c : TransactionConfig) (s : TransactionExecutor.State) :
  runAlone (Overlap.prepareGasLimit w c) s = TransactionExecutor.prepareGasLimit w c s.
Proof.
  unfold Overlap.prepareGasLimit, TransactionExecutor.prepareGasLimit.
  destruct (negb (truthyZ (gasLimit c))); [|reflexivity].
  now apply runAlone_awaitP.
Qed.

Lemma runAlone_prepareGasPrice (w : TransactionExecutor.World)
    (c : TransactionConfig) (s : TransactionExecutor.State) :
  runAlone (Overlap.prepareGasPrice w c) s = TransactionExecutor.prepareGasPrice w c s.
Proof.
  unfold Overlap.prepareGasPrice, TransactionExecutor.prepareGasPrice.
  destruct (negb (truthyZ (gasPrice c)) && negb (truthyZ (maxFeePerGas c)));
    [|reflexivity].
  now apply runAlone_awaitP.
Qed.

Lemma runAlone_prepareTransaction (w : TransactionExecutor.World)
    (t : QueuedTransaction) (s : TransactionExecutor.State) :
  runAlone (Overlap.prepareTransaction w t) s
  = TransactionExecutor.prepareTransaction w t s.
Proof.
  unfold Overlap.prepareTransaction, TransactionExecutor.prepareTransaction.
  rewrite runAlone_bindA. apply bind_ext; [apply runAlone_prepareNonce|].
  intros c1 s1. rewrite runAlone_bindA.
  apply bind_ext; [apply runAlone_prepareGasLimit|].
  intros c2 s2. apply runAlone_prepareGasPrice.
Qed.

Lemma runAlone_handleTransactionError (w : TransactionExecutor.World) (i : string)
    (err : Error) (s : TransactionExecutor.State) :
  runAlone (Overlap.handleTransactionError w i err) s
  = (Returned tt, TransactionExecutor.handleTransactionError w i err s).
Proof.
  unfold Overlap.handleTransactionError, TransactionExecutor.handleTransactionError.
  cbn [runAlone]. destruct (get i (TransactionExecutor.queue s)) as [t|];
    [|reflexivity].
  destruct (RetryManager.shouldRetry t err); [|reflexivity].
  cbn [runAlone]. destruct (Str.includes (Str.toLowerCase err) "nonce"); reflexivity.
Qed.

Lemma runAlone_executeBody (w : TransactionExecutor.World) (i : string)
    (s : TransactionExecutor.State) :
  runAlone (Overlap.executeBody w i) s = TransactionExecutor.executeBody w i s.
Proof.
  unfold Overlap.executeBody, TransactionExecutor.executeBody.
  cbn [runAlone applyWrite].
  set (s1 := TransactionExecutor.set_currentlyExecuting _ s).
  rewrite (bind_returned _ _ s s1 tt) by reflexivity.
  set (s2 := TransactionExecutor.updateStatus w i EXECUTING s1).
  rewrite (bind_returned _ _ s1 s2 tt) by reflexivity.
  set (s3 := TransactionExecutor.emit (TransactionStarted i) s2).
  rewrite (bind_returned _ _ s2 s3 tt) by reflexivity.
  rewrite (bind_returned _ _ s3 s3 (get i (TransactionExecutor.queue s3)))
    by reflexivity.
  destruct (get i (TransactionExecutor.queue s3)) as [t|]; [|reflexivity].
  rewrite runAlone_bindA. apply bind_ext.
  { rewrite runAlone_awaitA. apply runAlone_prepareTransaction. }
  intros c s4. apply runAlone_awaitP. intros h s5. cbn [runAlone applyWrite].
  set (s6 := TransactionExecutor.modifyRecord i (set_hash h) s5).
  rewrite (bind_returned _ _ s5 s6 tt) by reflexivity.
  set (s7 := TransactionExecutor.emit (TransactionSent i h) s6).
  rewrite (bind_returned _ _ s6 s7 tt) by reflexivity.
  set (s8 := TransactionExecutor.updateStatus w i CONFIRMING s7).
  rewrite (bind_returned _ _ s7 s8 tt) by reflexivity.
  rewrite (bind_returned _ _ s8 s8
             (confirmationBlocks (TransactionExecutor.options s8))) by reflexivity.
  apply runAlone_awaitP. intros r s9. cbn [runAlone applyWrite].
  set (s10 := TransactionExecutor.modifyRecord i (set_receipt r) s9).
  rewrite (bind_returned _ _ s9 s10 tt) by reflexivity.
  now rewrite (bind_returned _ _ s10 _ tt) by reflexivity.
Qed.

(** The execution of the loop's model is the tree run in one go. *)
Lemma runAlone_executeTransaction (w : TransactionExecutor.World) (i : string)
    (s : TransactionExecutor.State) :
  (runAlone (Overlap.executeTransaction w i) s).2
  = TransactionExecutor.executeTransaction w i s.
Proof.
  unfold Overlap.executeTransaction, TransactionExecutor.executeTransaction,
    finallyA, catchA.
  rewrite !runAlone_andThen, runAlone_executeBody.
  destruct (TransactionExecutor.executeBody w i s) as [[[] | e] s1]; cbn [fst snd].
  - reflexivity.
  - rewrite runAlone_awaitA, runAlone_handleTransactionError. reflexivity.
Qed.

(** *** One step after the other *)

Lemma advance_runAlone {A : Type} (m : Async A) :
  ∀ s, runAlone (advance m s).1 (advance m s).2 = runAlone m s.
Proof. induction m as [o | k IH | wr k IH | k IH]; intros s; cbn; auto. Qed.

Lemma advance_settles {A : Type} (m : Async A) :
  ∀ s, awaits m s = O →
       advance m s = (Settled (runAlone m s).1, (runAlone m s).2).
Proof.
  induction m as [o | k IH | wr k IH | k IH]; intros s Hn; cbn in *; auto.
  discriminate.
Qed.

Lemma advance_awaits {A : Type} (m : Async A) :
  ∀ s n, awaits m s = S n → awaits (advance m s).1 (advance m s).2 = n.
Proof.
  induction m as [o | k IH | wr k IH | k IH]; intros s n Hn; cbn in *.
  - discriminate.
  - now apply IH.
  - now apply IH.
  - congruence.
Qed.

(** A suspended execution that is resumed until it has settled does what
    it does when it runs alone. *)
Lemma resume_to_end (n : nat) :
  ∀ (m : Async unit) (s : TransactionExecutor.State) (l : list (Async unit))
    (j : nat),
    l !! j = Some m → awaits m s = n →
    ∃ m', runs (mkSystem s l) (mkSystem (runAlone m s).2 (<[j := m']> l)).
Proof.
  induction n as [|n IH]; intros m s l j Hj Hn.
  - exists (Settled (runAlone m s).1). apply rtc_once.
    replace (mkSystem (runAlone m s).2 (<[j := Settled (runAlone m s).1]> l))
      with (resume j (mkSystem s l)); [apply step_resume|].
    unfold resume. cbn. rewrite Hj. now rewrite (advance_settles m s Hn).
  - destruct (IH (advance m s).1 (advance m s).2 (<[j := (advance m s).1]> l) j)
      as (m' & Hruns).
    + apply list_lookup_insert_eq. now apply lookup_lt_Some in Hj.
    + now apply advance_awaits.
    + exists m'. eapply rtc_l; [apply (step_resume j)|].
      unfold resume. cbn. rewrite Hj.
      rewrite advance_runAlone, list_insert_insert_eq in Hruns. exact Hruns.
Qed.

(** A turn of the loop's model is a run of the scheduler: the loop takes
    a turn and the execution it has started is resumed until it has
    settled. *)
Lemma processStep_runs (w : TransactionExecutor.World)
    (s : TransactionExecutor.State) (l : list (Async unit)) :
  s.(TransactionExecutor.isRunning) = true →
  ∃ l', runs (mkSystem s l) (mkSystem (TransactionExecutor.processStep w s) l').
Proof.
  intros Hrun.
  assert (∃ l', runs (loopTurn w (mkSystem s l))
                     (mkSystem (TransactionExecutor.processStep w s) l')) as (l' & H).
  { unfold loopTurn, TransactionExecutor.processStep. cbn [engine suspended].
    destruct (Z.of_nat _ >=? _); [exists l; apply rtc_refl|].
    destruct (getNext (TransactionExecutor.queue s)) as [t|].
    - set (s2 := TransactionExecutor.emit _ _).
      set (m := Overlap.executeTransaction w (id t)).
      destruct (resume_to_end (awaits (advance m s2).1 (advance m s2).2)
                  (advance m s2).1 (advance m s2).2
                  (l ++ [(advance m s2).1]) (length l)) as (m' & Hruns).
      + now rewrite lookup_app_r, Nat.sub_diag by lia.
      + reflexivity.
      + eexists. rewrite advance_runAlone in Hruns. subst m.
        rewrite runAlone_executeTransaction in Hruns. exact Hruns.
    - destruct (Nat.eqb _ 0); exists l; apply rtc_refl. }
  exists l'. eapply rtc_l; [apply (step_turn w); exact Hrun | exact H].
Qed.

(** *** What no schedule changes *)

Lemma applyWrite_schedule (wr : EngineWrite) (s : TransactionExecutor.State) :
  schedule (applyWrite wr s) = schedule s.
Proof.
  destruct wr; cbn [applyWrite]; try reflexivity.
  - apply (turnOf_updateStatus w i st s).
  - apply (turnOf_modifyRecord i). intros t. split; reflexivity.
  - apply (turnOf_modifyRecord i). intros t. split; reflexivity.
  - apply (turnOf_modifyRecord i). intros t. split; reflexivity.
Qed.

Lemma advance_schedule {A : Type} (m : Async A) :
  ∀ s, schedule (advance m s).2 = schedule s.
Proof.
  induction m as [o | k IH | wr k IH | k IH]; intros s; cbn; auto.
  rewrite IH. apply applyWrite_schedule.
Qed.

Lemma step_schedule (sys sys' : System) :
  step sys sys' → schedule sys'.(engine) = schedule sys.(engine).
Proof.
  intros [w sys0 _ | j sys0].
  - unfold loopTurn. destruct (Z.of_nat _ >=? _); [reflexivity|].
    destruct (getNext _) as [t|].
    + cbn [engine]. rewrite advance_schedule.
      apply (turnOf_updateStatus w (id t) QUEUED).
    + destruct (Nat.eqb _ 0); reflexivity.
  - unfold resume. destruct (suspended sys0 !! j); [|reflexivity].
    cbn [engine]. apply advance_schedule.
Qed.

Lemma runs_schedule (sys sys' : System) :
  runs sys sys' → schedule sys'.(engine) = schedule sys.(engine).
Proof.
  induction 1 as [|x y z Hstep _ IH]; [reflexivity|].
  rewrite IH. now apply step_schedule.
Qed.

(** *** The writes of an execution *)

Lemma keyed_schedule (s s' : TransactionExecutor.State) (i : string) :
  schedule s' = schedule s →
  (∀ t, s.(TransactionExecutor.queue).(queue) !! i = Some t → t.(id) = i) →
  ∀ t, s'.(TransactionExecutor.queue).(queue) !! i = Some t → t.(id) = i.
Proof.
  intros Hs Hid t Ht. pose proof (schedule_lookup s s' i Hs) as H.
  rewrite Ht in H.
  destruct (queue (TransactionExecutor.queue s) !! i) as [t0|] eqn:Hq;
    [|contradiction].
  destruct H as [H _]. unfold submitted in H.
  replace (id t) with (id t0) by congruence. eauto.
Qed.

Lemma concerns_refl (i : string) (s : TransactionExecutor.State) : concerns i s s.
Proof.
  split; [reflexivity|]. split; [reflexivity|].
  exists []. now rewrite app_nil_r.
Qed.

Lemma concerns_trans (i : string) (s1 s2 s3 : TransactionExecutor.State) :
  concerns i s1 s2 → concerns i s2 s3 → concerns i s1 s3.
Proof.
  intros (A1 & A2 & e1 & A3 & A4) (B1 & B2 & e2 & B3 & B4).
  split; [congruence|]. split; [intros k Hk; rewrite B2, A2; auto|].
  exists (e1 ++ e2). split; [rewrite B3, A3; apply eq_sym, app_assoc|].
  now apply Forall_app.
Qed.

Lemma concerns_turnOf (i : string) (s s' : TransactionExecutor.State) :
  turnOf i s s' → concerns i s s'.
Proof. intros (H1 & _ & H2 & H3). now split. Qed.

Lemma applyWrite_concerns (i : string) (wr : EngineWrite)
    (s : TransactionExecutor.State) :
  targets i wr → concerns i s (applyWrite wr s).
Proof.
  destruct wr; cbn [targets applyWrite]; intros Ht; try subst.
  - apply concerns_turnOf, turnOf_updateStatus.
  - apply concerns_turnOf, turnOf_modifyRecord. intros t. split; reflexivity.
  - apply concerns_turnOf, turnOf_modifyRecord. intros t. split; reflexivity.
  - apply concerns_turnOf, turnOf_modifyRecord. intros t. split; reflexivity.
  - now apply concerns_turnOf, turnOf_emit.
  - apply concerns_turnOf, turnOf_set_nonceTracker.
  - apply concerns_turnOf, turnOf_set_nonceTracker.
  - split; [reflexivity|]. split; [reflexivity|]. exists []. cbn.
    now rewrite app_nil_r.
  - split; [reflexivity|]. split; [reflexivity|]. exists []. cbn.
    now rewrite app_nil_r.
Qed.

Lemma advance_confined (i : string) {A : Type} (m : Async A) :
  confined i m →
  ∀ s, (∀ t, s.(TransactionExecutor.queue).(queue) !! i = Some t → t.(id) = i) →
       concerns i s (advance m s).2 ∧ confined i (advance m s).1.
Proof.
  induction 1 as [o | k Hk IH | wr k Hwr Hk IH | k Hk IH]; intros s Hid;
    cbn [advance].
  - split; [apply concerns_refl | constructor].
  - now apply IH.
  - pose proof (applyWrite_concerns i wr s Hwr) as Hc.
    destruct (IH (applyWrite wr s)) as [H1 H2].
    { destruct Hc as (Hs & _). exact (keyed_schedule _ _ i Hs Hid). }
    split; [exact (concerns_trans _ _ _ _ Hc H1) | exact H2].
  - split; [apply concerns_refl | exact Hk].
Qed.

Lemma confined_andThen (i : string) {A B : Type} (m : Async A)
    (h : Outcome A → Async B) :
  confined i m → (∀ o, confined i (h o)) → confined i (andThen m h).
Proof.
  intros Hm Hh. induction Hm as [o | k Hk IH | wr k Hwr Hk IH | k Hk IH];
    cbn [andThen].
  - apply Hh.
  - constructor. intros s Hs. now apply IH.
  - now constructor.
  - now constructor.
Qed.

Lemma confined_bindA (i : string) {A B : Type} (m : Async A) (h : A → Async B) :
  confined i m → (∀ a, confined i (h a)) → confined i (bindA m h).
Proof.
  intros Hm Hh. apply confined_andThen; [exact Hm|].
  intros [a | e]; [apply Hh | constructor].
Qed.

Lemma confined_awaitP (i : string) {A : Type} (o : Outcome A) :
  confined i (awaitP o).
Proof. repeat constructor. Qed.

Lemma confined_prepareTransaction (i : string) (w : TransactionExecutor.World)
    (t : QueuedTransaction) :
  confined i (Overlap.prepareTransaction w t).
Proof.
  unfold Overlap.prepareTransaction. apply confined_bindA.
  - unfold Overlap.prepareNonce. constructor. intros s _.
    destruct (nonceManager _ && negb (truthyZ (nonce (config t))));
      [|constructor].
    constructor. apply confined_bindA; [apply confined_awaitP|].
    intros n. constructor. intros s' _. repeat constructor.
  - intros c1. apply confined_bindA.
    + unfold Overlap.prepareGasLimit. destruct (negb (truthyZ (gasLimit c1)));
        [|constructor].
      apply confined_bindA; [apply confined_awaitP | constructor].
    + intros c2. unfold Overlap.prepareGasPrice.
      destruct (negb (truthyZ (gasPrice c2)) && negb (truthyZ (maxFeePerGas c2)));
        [|constructor].
      apply confined_bindA; [apply confined_awaitP | constructor].
Qed.

Lemma confined_handleTransactionError (i : string) (w : TransactionExecutor.World)
    (err : Error) :
  confined i (Overlap.handleTransactionError w i err).
Proof.
  unfold Overlap.handleTransactionError. constructor. intros s Hid.
  unfold get. destruct (queue (TransactionExecutor.queue s) !! i) as [t|] eqn:Hq;
    [|constructor].
  pose proof (Hid t eq_refl) as Ht.
  destruct (RetryManager.shouldRetry t err).
  - constructor; [exact Ht|]. constructor; [exact Ht|]. constructor.
    destruct (Str.includes (Str.toLowerCase err) "nonce"); repeat constructor.
  - constructor; [reflexivity|]. constructor; [exact Ht|].
    constructor; [exact Ht|]. constructor.
Qed.

Lemma confined_executeTransaction (i : string) (w : TransactionExecutor.World) :
  confined i (Overlap.executeTransaction w i).
Proof.
  unfold Overlap.executeTransaction, finallyA, catchA.
  apply confined_andThen.
  - apply confined_andThen.
    + unfold Overlap.executeBody.
      constructor; [exact I|]. constructor; [reflexivity|].
      constructor; [reflexivity|]. constructor. intros s _.
      destruct (get i (TransactionExecutor.queue s)) as [t|]; [|constructor].
      apply confined_bindA.
      { unfold awaitA. apply confined_andThen; [apply confined_prepareTransaction|].
        intros o. repeat constructor. }
      intros c. apply confined_bindA; [apply confined_awaitP|].
      intros h. constructor; [reflexivity|]. constructor; [reflexivity|].
      constructor; [reflexivity|]. constructor. intros s' _.
      apply confined_bindA; [apply confined_awaitP|].
      intros r. constructor; [reflexivity|]. constructor; [reflexivity|].
      constructor; [reflexivity|]. constructor.
    + intros [[] | e]; [constructor|].
      unfold awaitA. apply confined_andThen; [apply confined_handleTransactionError|].
      intros o. repeat constructor.
  - intros o. apply confined_bindA; [repeat constructor | intros; constructor].
Qed.

(** *** Starvation under every schedule *)

Lemma stuck_kept (ids : gset string) (s s' : TransactionExecutor.State) :
  schedule s' = schedule s →
  (∀ k, k ∈ ids → s'.(TransactionExecutor.queue).(queue) !! k
                  = s.(TransactionExecutor.queue).(queue) !! k) →
  stuck ids s.(TransactionExecutor.queue) →
  stuck ids s'.(TransactionExecutor.queue).
Proof.
  intros Hs Hk Hstuck k Hin. destruct (Hstuck k Hin) as (t & Ht & Hc).
  exists t. rewrite (Hk k Hin). split; [exact Ht|].
  destruct Hc as [Hfin | (deps & d & td & Hg & Hdin & Hds & Htd & Hb)]; [now left|].
  right. exists deps, d, td. rewrite (schedule_graph _ _ Hs), (Hk d Hds). auto.
Qed.

Lemma not_about (ids : gset string) (i : string) (evs : list Event) :
  i ∉ ids → Forall (about i) evs →
  ∀ k, k ∈ ids → Forall (λ e, ¬ about k e) evs.
Proof.
  intros Hi Hev k Hk. eapply Forall_impl; [exact Hev|].
  intros e He Hke. apply Hi.
  destruct e; cbn in He, Hke; try contradiction; congruence.
Qed.

(** What every schedule keeps, for a stuck set [ids] of the state [s0]. *)
Lemma step_starves (ids : gset string) (s0 : TransactionExecutor.State)
    (sys sys' : System) :
  step sys sys' →
  (schedule sys.(engine) = schedule s0 ∧
   (∀ k t, sys.(engine).(TransactionExecutor.queue).(queue) !! k = Some t →
           t.(id) = k) ∧
   stuck ids sys.(engine).(TransactionExecutor.queue) ∧
   Forall (outside ids) sys.(suspended)) →
  (schedule sys'.(engine) = schedule s0 ∧
   (∀ k t, sys'.(engine).(TransactionExecutor.queue).(queue) !! k = Some t →
           t.(id) = k) ∧
   stuck ids sys'.(engine).(TransactionExecutor.queue) ∧
   Forall (outside ids) sys'.(suspended)) ∧
  (∀ k, k ∈ ids →
        sys'.(engine).(TransactionExecutor.queue).(queue) !! k
        = sys.(engine).(TransactionExecutor.queue).(queue) !! k) ∧
  ∃ evs, sys'.(engine).(TransactionExecutor.emitted)
         = sys.(engine).(TransactionExecutor.emitted) ++ evs ∧
         ∀ k, k ∈ ids → Forall (λ e, ¬ about k e) evs.
Proof.
  assert (∀ (s s' : TransactionExecutor.State) (i : string) l,
            schedule s = schedule s0 →
            (∀ k t, s.(TransactionExecutor.queue).(queue) !! k = Some t → t.(id) = k) →
            stuck ids s.(TransactionExecutor.queue) →
            i ∉ ids → concerns i s s' →
            Forall (outside ids) l →
            (schedule s' = schedule s0 ∧
             (∀ k t, s'.(TransactionExecutor.queue).(queue) !! k = Some t →
                     t.(id) = k) ∧
             stuck ids s'.(TransactionExecutor.queue) ∧
             Forall (outside ids) l) ∧
            (∀ k, k ∈ ids →
                  s'.(TransactionExecutor.queue).(queue) !! k
                  = s.(TransactionExecutor.queue).(queue) !! k) ∧
            ∃ evs, s'.(TransactionExecutor.emitted)
                   = s.(TransactionExecutor.emitted) ++ evs ∧
                   ∀ k, k ∈ ids → Forall (λ e, ¬ about k e) evs) as Hgen.
  { intros s s' i l Hs Hid Hst Hi (C1 & C2 & evs & C3 & C4) Hl.
    assert (∀ k, k ∈ ids → queue (TransactionExecutor.queue s') !! k
                           = queue (TransactionExecutor.queue s) !! k) as Hk.
    { intros k Hin. apply C2. intros ->. contradiction. }
    split; [split; [congruence|split; [|split]]|split].
    - intros k t. apply (keyed_schedule s s' k C1). intros t0. apply Hid.
    - exact (stuck_kept ids s s' C1 Hk Hst).
    - exact Hl.
    - exact Hk.
    - exists evs. split; [exact C3 | exact (not_about ids i evs Hi C4)]. }
  assert (∀ sys0 : System,
            (∀ k, k ∈ ids →
                  sys0.(engine).(TransactionExecutor.queue).(queue) !! k
                  = sys0.(engine).(TransactionExecutor.queue).(queue) !! k) ∧
            ∃ evs, sys0.(engine).(TransactionExecutor.emitted)
                   = sys0.(engine).(TransactionExecutor.emitted) ++ evs ∧
                   ∀ k, k ∈ ids → Forall (λ e, ¬ about k e) evs) as Hsame.
  { intros sys0. split; [reflexivity|]. exists []. rewrite app_nil_r.
    split; [reflexivity | intros; constructor]. }
  intros [w sys0 _ | j sys0] (Hs & Hid & Hst & Hl).
  - unfold loopTurn. destruct (Z.of_nat _ >=? _); [split; [auto | apply Hsame]|].
    destruct (getNext (TransactionExecutor.queue (engine sys0))) as [t|] eqn:Hnext.
    + pose proof (stuck_not_next ids _ t Hid Hst Hnext) as Hi.
      set (s2 := TransactionExecutor.emit _ _).
      assert (concerns (id t) (engine sys0) s2) as H2.
      { apply concerns_turnOf. eapply turnOf_trans; [apply turnOf_updateStatus|].
        now apply turnOf_emit. }
      destruct (advance_confined (id t) _ (confined_executeTransaction (id t) w) s2)
        as [H3 H4].
      { destruct H2 as (H2 & _). intros t0. apply (keyed_schedule _ _ _ H2).
        intros t1. apply Hid. }
      cbn [engine suspended].
      apply (Hgen (engine sys0) _ (id t)); auto.
      * exact (concerns_trans _ _ _ _ H2 H3).
      * apply Forall_app. split; [exact Hl|]. constructor; [|constructor].
        exists (id t). split; [exact Hi | exact H4].
    + destruct (Nat.eqb _ 0); [|split; [auto | apply Hsame]].
      cbn [engine suspended]. split; [split; auto|].
      split; [reflexivity|]. exists [QueueEmpty]. split; [reflexivity|].
      intros k _. constructor; [intros H; exact H | constructor].
  - unfold resume. destruct (suspended sys0 !! j) as [m|] eqn:Hj;
      [|split; [auto | apply Hsame]].
    pose proof (proj1 (Forall_lookup _ _) Hl j m Hj) as (i & Hi & Hm).
    destruct (advance_confined i m Hm (engine sys0)) as [H1 H2].
    { intros t0. apply Hid. }
    cbn [engine suspended].
    apply (Hgen (engine sys0) _ i); auto.
    apply Forall_insert; [exact Hl|]. exists i. split; [exact Hi | exact H2].
Qed.

Lemma runs_starve (ids : gset string) (s0 : TransactionExecutor.State)
    (sys sys' : System) :
  runs sys sys' →
  (schedule sys.(engine) = schedule s0 ∧
   (∀ k t, sys.(engine).(TransactionExecutor.queue).(queue) !! k = Some t →
           t.(id) = k) ∧
   stuck ids sys.(engine).(TransactionExecutor.queue) ∧
   Forall (outside ids) sys.(suspended)) →
  (∀ k, k ∈ ids →
        sys'.(engine).(TransactionExecutor.queue).(queue) !! k
        = sys.(engine).(TransactionExecutor.queue).(queue) !! k) ∧
  ∃ evs, sys'.(engine).(TransactionExecutor.emitted)
         = sys.(engine).(TransactionExecutor.emitted) ++ evs ∧
         ∀ k, k ∈ ids → Forall (λ e, ¬ about k e) evs.
Proof.
  induction 1 as [x | x y z Hstep _ IH]; intros Hinv.
  - split; [reflexivity|]. exists []. rewrite app_nil_r.
    split; [reflexivity | intros; constructor].
  - destruct (step_starves ids s0 x y Hstep Hinv) as (Hy & L1 & e1 & E1 & N1).
    destruct (IH Hy) as (L2 & e2 & E2 & N2).
    split; [intros k Hk; rewrite L2, L1; auto|].
    exists (e1 ++ e2). split; [rewrite E2, E1; apply eq_sym, app_assoc|].
    intros k Hk. apply Forall_app. auto.
Qed.

(** Starvation under every schedule, for any [maxConcurrent]: the records
    of a stuck set (finished records, and records that wait for a member
    of the set, as in a dependency cycle, for a record that depends on
    itself, or behind a Failed record) are never touched, however the loop
    and the executions it has started overlap and whatever the provider
    answers: their stored records stay as they are and no notification is
    about them. *)
Theorem stuck_records_starve_overlapping (ids : gset string)
    (s : TransactionExecutor.State) (sys' : System) :
  (∀ k t, s.(TransactionExecutor.queue).(queue) !! k = Some t → t.(id) = k) →
  stuck ids s.(TransactionExecutor.queue) →
  runs (mkSystem s []) sys' →
  (∀ k, k ∈ ids →
        sys'.(engine).(TransactionExecutor.queue).(queue) !! k
        = s.(TransactionExecutor.queue).(queue) !! k) ∧
  ∃ evs, sys'.(engine).(TransactionExecutor.emitted)
         = s.(TransactionExecutor.emitted) ++ evs ∧
         ∀ k, k ∈ ids → Forall (λ e, ¬ about k e) evs.
Proof.
  intros Hid Hst Hruns.
  apply (runs_starve ids s (mkSystem s []) sys' Hruns).
  cbn [engine suspended]. split; [reflexivity|]. split; [exact Hid|].
  split; [exact Hst | constructor].
Qed.

Lemma stuck_records_starve_overlapping_witness :
  let w := TransactionExecutor.mkWorld (Scenario.answering 7) 0 0%Q in
  let s := TransactionExecutor.set_isRunning true
             (TransactionExecutor.create
                (add 0 "g" (Scenario.transfer "b") Scenario.noOptions
                   (add 0 "g" (Scenario.transfer "a") (Scenario.dependingOn ["a"])
                      (create twoAtATime)).2).2
                twoAtATime) in
  (resume 0 (loopTurn w (loopTurn w (mkSystem s [])))).(engine)
    .(TransactionExecutor.queue).(queue) !! "a"
  = s.(TransactionExecutor.queue).(queue) !! "a".
Proof.
  cbv zeta.
  refine (proj1 (stuck_records_starve_overlapping {["a"]} _ _ _ _ _) "a" _).
  - intros k t Ht. unfold add in Ht.
    cbn [snd fst TransactionExecutor.queue TransactionExecutor.set_isRunning
         TransactionExecutor.create queue] in Ht.
    apply lookup_insert_Some in Ht as [[<- <-] | [_ Ht]]; [reflexivity|].
    apply lookup_insert_Some in Ht as [[<- <-] | [_ Ht]]; [reflexivity|].
    cbn in Ht. rewrite lookup_empty in Ht. discriminate.
  - intros k Hk. apply elem_of_singleton in Hk as ->.
    exists (mkTx "a" (Scenario.transfer "a") PENDING 0 ["a"] 0 3 0
                 None None None None None None).
    split; [vm_compute; reflexivity|]. right.
    exists {["a"]}, "a",
           (mkTx "a" (Scenario.transfer "a") PENDING 0 ["a"] 0 3 0
                 None None None None None None).
    split.
    + unfold add.
      cbn [snd fst TransactionExecutor.queue TransactionExecutor.set_isRunning
           TransactionExecutor.create dependencyGraph o_dependencies
           Scenario.noOptions Scenario.dependingOn].
      rewrite lookup_insert_eq. cbn. now rewrite union_empty_r_L.
    + split; [now apply elem_of_singleton|]. split; [now apply elem_of_singleton|].
      split; [vm_compute; reflexivity | reflexivity].
  - eapply rtc_l; [apply (step_turn (TransactionExecutor.mkWorld (Scenario.answering 7) 0 0%Q));
                   reflexivity|].
    eapply rtc_l; [apply (step_turn (TransactionExecutor.mkWorld (Scenario.answering 7) 0 0%Q));
                   vm_compute; reflexivity|].
    eapply rtc_l; [apply (step_resume 0)|].
    apply rtc_refl.
  - now apply elem_of_singleton.
Defined.

(** The frame under every schedule, for any [maxConcurrent]: however the
    loop and the executions it has started overlap, and whatever the
    provider answers, no option, not the run flag, not the execution
    order, no dependency set changes, and of a record only its status,
    timestamps, hash, receipt and error: identifier, intent, priority,
    dependencies, retry counter, retry ceiling, creation time and metadata
    of every record stay, and no record appears or disappears. *)
Theorem overlapping_runs_frame (s : TransactionExecutor.State) (sys' : System) :
  runs (mkSystem s []) sys' →
  schedule sys'.(engine) = schedule s ∧
  ∀ k, retryCount <$> sys'.(engine).(TransactionExecutor.queue).(queue) !! k
       = retryCount <$> s.(TransactionExecutor.queue).(queue) !! k.
Proof.
  intros Hruns. pose proof (runs_schedule _ _ Hruns) as Hs. cbn [engine] in Hs.
  split; [exact Hs|]. intros k.
  pose proof (schedule_lookup s (engine sys') k Hs) as H.
  destruct (queue (TransactionExecutor.queue (engine sys')) !! k) as [t'|],
           (queue (TransactionExecutor.queue s) !! k) as [t|]; cbn;
    try contradiction; [|reflexivity].
  destruct H as [H _]. unfold submitted in H. congruence.
Qed.

(** Two turns of the loop start both records, whose executions are then
    in flight together; each is resumed once. *)
Lemma overlapping_runs_frame_witness :
  let w := TransactionExecutor.mkWorld (Scenario.answering 7) 0 0%Q in
  base.size (loopTurn w (loopTurn w twoEnqueued)).(engine)
              .(TransactionExecutor.currentlyExecuting) = 2%nat ∧
  schedule (resume 1 (resume 0 (loopTurn w (loopTurn w twoEnqueued)))).(engine)
  = schedule twoEnqueued.(engine).
Proof.
  cbv zeta. split; [vm_compute; reflexivity|].
  refine (proj1 (overlapping_runs_frame twoEnqueued.(engine) _ _)).
  eapply rtc_l; [apply (step_turn (TransactionExecutor.mkWorld (Scenario.answering 7) 0 0%Q));
                 reflexivity|].
  eapply rtc_l; [apply (step_turn (TransactionExecutor.mkWorld (Scenario.answering 7) 0 0%Q));
                 vm_compute; reflexivity|].
  eapply rtc_l; [apply (step_resume 0)|].
  eapply rtc_l; [apply (step_resume 1)|].
  apply rtc_refl.
Defined.

(** *** Reachable states *)

Lemma advance_reachable {A : Type} (m : Async A) :
  ∀ s, reachable s → reachable (advance m s).2.
Proof.
  induction m as [o | k IH | wr k IH | k IH]; intros s Hr; cbn [advance snd]; auto.
  apply IH. now apply reachable_write.
Qed.

(** The engine's states under every schedule are reachable states. *)
Lemma runs_reachable (sys sys' : System) :
  runs sys sys' → reachable sys.(engine) → reachable sys'.(engine).
Proof.
  induction 1 as [x | x y z Hstep _ IH]; intros Hr; [exact Hr|].
  apply IH. destruct Hstep as [w sys0 _ | j sys0].
  - unfold loopTurn. destruct (Z.of_nat _ >=? _); [exact Hr|].
    destruct (getNext _) as [t|].
    + cbn [engine]. apply advance_reachable.
      apply (reachable_write (Emit (TransactionQueued (id t)))).
      now apply (reachable_write (SetStatus w (id t) QUEUED)).
    + destruct (Nat.eqb _ 0); [|exact Hr].
      now apply (reachable_write (Emit QueueEmpty)).
  - unfold resume. destruct (suspended sys0 !! j); [|exact Hr].
    cbn [engine]. now apply advance_reachable.
Qed.

End OverlappingExecutions.
